(** * Layout-preserving PDF text replacement: a shallow embedding

    The development follows [back/filler_agent/text_utils.py]: the Unicode
    sanitizer, the occurrence locator, the redaction and re-draw step with
    its baseline heuristic, the font resolver and the sequential driver
    [replace_text_preserve_layout_pdf].

    Python strings are sequences of code points, coordinates are rationals,
    and the PyMuPDF primitives the module calls (search, structured text,
    redaction, text writing, font construction) are the fields of the class
    [PdfEnv]. *)

From Stdlib Require Import QArith Qminmax ZArith NArith Lia String Ascii List.
From stdpp Require Import gmap list.
Import ListNotations.

Local Open Scope Q_scope.

(* ===================================================================== *)
(** ** Python strings *)
(* ===================================================================== *)

(** A [str] is a sequence of Unicode code points. *)
Abbreviation pystr := (list N).

(** An ASCII literal as a [pystr]. *)
Definition py (s : string) : pystr :=
  List.map N_of_ascii (list_ascii_of_string s).

(** [s.startswith(prefix)] *)
Fixpoint startswith (s prefix : pystr) : bool :=
  match prefix, s with
  | [], _ => true
  | _ :: _, [] => false
  | p :: prefix', ch :: s' => N.eqb ch p && startswith s' prefix'
  end.

(** [sub in s] *)
Fixpoint contains (s sub : pystr) : bool :=
  startswith s sub ||
  match s with
  | [] => false
  | _ :: s' => contains s' sub
  end.

(** [a == b] on strings *)
Definition str_eqb (a b : pystr) : bool := bool_decide (a = b).

(** [not s]: the empty string is falsy. *)
Definition falsy (s : pystr) : bool :=
  match s with [] => true | _ :: _ => false end.

(** The scan of [str.replace] for a non-empty pattern: left to right,
    non-overlapping; [skip] counts the characters of a match still to be
    passed over. *)
Fixpoint replace_from (old new : pystr) (skip : nat) (t : pystr) : pystr :=
  match t with
  | [] => []
  | ch :: t' =>
      match skip with
      | S k => replace_from old new k t'
      | O =>
          if startswith t old
          then new ++ replace_from old new (length old - 1) t'
          else ch :: replace_from old new 0 t'
      end
  end.

(** [t.replace(old, new)] *)
Definition str_replace (t old new : pystr) : pystr :=
  match old with
  | [] => new ++ flat_map (fun ch => ch :: new) t
  | _ :: _ => replace_from old new 0 t
  end.

(** [name.lower()], as far as comparisons with ASCII patterns can see it:
    the code points whose lowercase form contains an ASCII letter are
    [A]-[Z], the Kelvin sign U+212A and U+0130; the other code points
    lowercase to non-ASCII code points and are kept as they are. *)
Definition lower_char (ch : N) : pystr :=
  if (65 <=? ch)%N && (ch <=? 90)%N then [(ch + 32)%N]
  else if (ch =? 8490)%N then [107%N]
  else if (ch =? 304)%N then [105%N; 775%N]
  else [ch].

Definition lower (s : pystr) : pystr := flat_map lower_char s.

(** The line boundaries of [str.splitlines]. *)
Definition is_linebreak (ch : N) : bool :=
  match ch with
  | 10%N | 11%N | 12%N | 13%N | 28%N | 29%N | 30%N | 133%N
  | 8232%N | 8233%N => true
  | _ => false
  end.

(** [s.splitlines()]: [\r\n] is one boundary and no empty string follows
    a final boundary. [cur] is the line read so far. *)
Fixpoint splitlines_from (cur t : pystr) : list pystr :=
  match t with
  | [] => match cur with [] => [] | _ :: _ => [cur] end
  | ch :: t' =>
      if (ch =? 13)%N then
        match t' with
        | 10%N :: t'' => cur :: splitlines_from [] t''
        | _ => cur :: splitlines_from [] t'
        end
      else if is_linebreak ch then cur :: splitlines_from [] t'
      else splitlines_from (cur ++ [ch]) t'
  end.

Definition splitlines (s : pystr) : list pystr := splitlines_from [] s.

(* ===================================================================== *)
(** ** Exceptions and log records *)
(* ===================================================================== *)

Inductive pyexn : Type :=
| ValueError (msg : string)
| FontError          (* a failing [fitz.Font(...)] outside [try] *)
| HelperError.       (* an exception out of [get_available_font] *)

Inductive result (A : Type) : Type :=
| Ok (a : A)
| Raise (e : pyexn).
Arguments Ok {A} a.
Arguments Raise {A} e.

Global Instance result_ret : MRet result := fun A a => Ok a.

Global Instance result_bind : MBind result := fun A B k r =>
  match r with
  | Ok a => k a
  | Raise e => Raise e
  end.

Inductive LogLevel : Type := DEBUG | INFO.

Inductive LogMsg : Type :=
| Sanitized (replaced_chars : list (pystr * pystr))
| NoMatchingOccurrences (search : pystr)
| FontMapping (name pymupdf_font : pystr)
| FailedToEmbed (font_path : pystr).

Record LogRecord : Type := mkLog { log_level : LogLevel; log_msg : LogMsg }.

(* ===================================================================== *)
(** ** [sanitize_unicode_for_pdf] *)
(* ===================================================================== *)

(** The dict [unicode_replacements], in insertion order. *)
Definition unicode_replacements : list (pystr * pystr) :=
  [ ([8220%N], [34%N]);            (* left double quotation mark *)
    ([8221%N], [34%N]);            (* right double quotation mark *)
    ([8216%N], [39%N]);            (* left single quotation mark *)
    ([8217%N], [39%N]);            (* right single quotation mark *)
    ([8212%N], [45%N; 45%N]);      (* em dash *)
    ([8211%N], [45%N]);            (* en dash *)
    ([8230%N], [46%N; 46%N; 46%N]);(* horizontal ellipsis *)
    ([160%N], [32%N]) ].           (* non-breaking space *)

Definition sanitize_unicode_for_pdf (text : pystr) : pystr :=
  if falsy text then text
  else
    fold_left (fun t '(unicode_char, ascii_replacement) =>
                 str_replace t unicode_char ascii_replacement)
              unicode_replacements text.

(** The record [sanitize_unicode_for_pdf] logs, if any. *)
Definition sanitize_unicode_for_pdf_log (text : pystr) : list LogRecord :=
  if falsy text then []
  else
    let original_text := text in
    if negb (str_eqb (sanitize_unicode_for_pdf text) original_text) then
      let replaced_chars :=
        List.filter (fun '(unicode_char, _) => contains original_text unicode_char)
                    unicode_replacements in
      match replaced_chars with
      | [] => []
      | _ :: _ => [mkLog DEBUG (Sanitized replaced_chars)]
      end
    else [].

(* ===================================================================== *)
(** ** Geometry *)
(* ===================================================================== *)

(** [a > b] and [a <= b] on coordinates. *)
Definition Qgtb (a b : Q) : bool := negb (Qle_bool a b).
Definition Qleb (a b : Q) : bool := Qle_bool a b.

(** [fitz.Rect]: [y] grows downwards, [y1] is the lower edge. *)
Record Rect : Type := mkRect { x0 : Q; y0 : Q; x1 : Q; y1 : Q }.

Definition rect_is_empty (r : Rect) : bool :=
  Qleb (x1 r) (x0 r) || Qleb (y1 r) (y0 r).

(** The bounds of PyMuPDF's infinite rectangle. *)
Definition FZ_MIN_INF_RECT : Q := inject_Z (-2147483648).
Definition FZ_MAX_INF_RECT : Q := inject_Z 2147483520.

Definition INFINITE_RECT : Rect :=
  mkRect FZ_MIN_INF_RECT FZ_MIN_INF_RECT FZ_MAX_INF_RECT FZ_MAX_INF_RECT.

(** [r.is_infinite]:
    [x0 == y0 == FZ_MIN_INF_RECT and x1 == y1 == FZ_MAX_INF_RECT]. *)
Definition rect_is_infinite (r : Rect) : bool :=
  Qeq_bool (x0 r) (y0 r) && Qeq_bool (y0 r) FZ_MIN_INF_RECT &&
  (Qeq_bool (x1 r) (y1 r) && Qeq_bool (y1 r) FZ_MAX_INF_RECT).

(** [a |= b], which is [Rect(a).include_rect(b)]: the infinite rectangle
    when either is infinite; [a] when [b] is empty; [b] when [a] is
    empty; and otherwise the smallest rectangle that contains both. *)
Definition rect_union (a b : Rect) : Rect :=
  if rect_is_infinite b || rect_is_infinite a then INFINITE_RECT
  else if rect_is_empty b then a
  else if rect_is_empty a then b
  else mkRect (Qmin (x0 a) (x0 b)) (Qmin (y0 a) (y0 b))
              (Qmax (x1 a) (x1 b)) (Qmax (y1 a) (y1 b)).

(** A rectangle that is neither empty nor infinite. *)
Definition ordinary_rect (r : Rect) : Prop :=
  rect_is_empty r = false /\ rect_is_infinite r = false.

(** [a.intersects(b)]: neither is empty or infinite, and their
    intersection is not empty. *)
Definition intersects (a b : Rect) : bool :=
  negb (rect_is_empty a) && negb (rect_is_infinite a) &&
  negb (rect_is_empty b) && negb (rect_is_infinite b) &&
  negb (rect_is_empty
          (mkRect (Qmax (x0 a) (x0 b)) (Qmax (y0 a) (y0 b))
                  (Qmin (x1 a) (x1 b)) (Qmin (y1 a) (y1 b)))).

(** [max(l)] and [min(l)] of a list whose head is [x]. *)
Definition py_max (x : Q) (l : list Q) : Q := fold_left Qmax l x.
Definition py_min (x : Q) (l : list Q) : Q := fold_left Qmin l x.

(* ===================================================================== *)
(** ** Structured text and glyphs *)
(* ===================================================================== *)

(** A colour as [get_text] reports it. *)
Inductive PyNum : Type := PyInt (z : Z) | PyFloat (q : Q).

Inductive PyColor : Type :=
| ColorSeq (comps : list PyNum)   (* list or tuple of numbers *)
| ColorInt (packed : Z)           (* 0xRRGGBB *)
| ColorOther.

Definition is_int_above_1 (n : PyNum) : bool :=
  match n with
  | PyInt z => (1 <? z)%Z
  | PyFloat _ => false
  end.

Definition div255 (n : PyNum) : PyNum :=
  match n with
  | PyInt z => PyFloat (inject_Z z / 255)
  | PyFloat q => PyFloat (q / 255)
  end.

Definition _normalize_color (color : PyColor) : list PyNum :=
  match color with
  | ColorSeq comps =>
      let comps := if forallb is_int_above_1 comps
                   then List.map div255 comps else comps in
      let comps := match comps with
                   | [one] => [one; one; one]
                   | _ => comps
                   end in
      firstn 3 comps
  | ColorInt packed =>
      let r := Z.land (Z.shiftr packed 16) 255 in
      let g := Z.land (Z.shiftr packed 8) 255 in
      let b := Z.land packed 255 in
      [PyFloat (inject_Z r / 255); PyFloat (inject_Z g / 255);
       PyFloat (inject_Z b / 255)]
  | ColorOther => [PyFloat 0; PyFloat 0; PyFloat 0]
  end.

(** [page.get_text("dict")]: blocks, lines and spans. *)
Record DictSpan : Type := mkDictSpan { span_text : pystr; span_bbox : Rect }.
Record DictLine : Type := mkDictLine { line_bbox : Rect; line_spans : list DictSpan }.
Record DictBlock : Type := mkDictBlock { block_type : Z; block_lines : list DictLine }.

(** [page.get_text("rawdict")]: a span carries [chars], or only [text]
    with older versions of the library. A block without ["lines"] has
    the empty list. *)
Record RawChar : Type := mkRawChar { rc_c : N; rc_bbox : Rect }.
Record RawSpan : Type := mkRawSpan {
  raw_chars : option (list RawChar);
  raw_text : option pystr;
  raw_bbox : Rect;
  raw_font : pystr;
  raw_size : Q;
  raw_color : PyColor;
  raw_flags : option Z
}.
Record RawLine : Type := mkRawLine { raw_spans : list RawSpan }.
Record RawBlock : Type := mkRawBlock { raw_lines : list RawLine }.

(** The glyph dictionaries [_span_glyphs] yields. *)
Record Glyph : Type := mkGlyph {
  g_c : N;
  g_bbox : Rect;
  g_font : pystr;
  g_size : Q;
  g_color : PyColor;
  g_flags : Z
}.

(** A [fitz.TextWriter]: its colour and the characters appended to it,
    each with its point, font and size. *)
Record TextItem (Font : Type) : Type := mkTextItem {
  ti_x : Q; ti_y : Q; ti_ch : N; ti_font : Font; ti_size : Q
}.
Arguments mkTextItem {Font}.
Arguments ti_x {Font}.
Arguments ti_y {Font}.
Arguments ti_ch {Font}.
Arguments ti_font {Font}.
Arguments ti_size {Font}.

Record TextWriter (Font : Type) : Type := mkTextWriter {
  tw_color : list PyNum;
  tw_items : list (TextItem Font)
}.
Arguments mkTextWriter {Font}.
Arguments tw_color {Font}.
Arguments tw_items {Font}.

(* ===================================================================== *)
(** ** The environment: PyMuPDF and the font manager *)
(* ===================================================================== *)

(** What the module calls and does not define. A font constructor that
    answers [None] raises; [get_available_font] is the helper of the
    module [font_manager], which returns [(resolved_name, font_path)]
    ([None] stands for an exception out of it). *)
Class PdfEnv : Type := {
  Page : Type;
  Font : Type;
  page_height : Page -> Q;                    (* [page.rect.height] *)
  search_for : Page -> pystr -> list Rect;    (* [page.search_for(s, quads=False)] *)
  get_text_dict : Page -> list DictBlock;     (* [page.get_text("dict")["blocks"]] *)
  get_text_rawdict : Page -> list RawBlock;   (* [page.get_text("rawdict")["blocks"]] *)
  apply_redaction : Page -> Rect -> Page;     (* [add_redact_annot(rect, fill=(1, 1, 1))]
                                                 then [apply_redactions()] *)
  write_text : Page -> TextWriter Font -> Page; (* [writer.write_text(page, overlay=True)] *)
  Font_fontname : pystr -> option Font;       (* [fitz.Font(fontname=...)] *)
  Font_fontfile : pystr -> option Font;       (* [fitz.Font(fontfile=...)] *)
  text_length : Font -> N -> Q -> Q;          (* [font.text_length(ch, fontsize)] *)
  get_available_font : pystr -> option (pystr * option pystr)
}.

(** A document is the list of its pages. *)
Abbreviation Doc := (list Page).

Section Engine.
Context `{env : PdfEnv}.

(* --------------------------------------------------------------------- *)
(** *** [_span_glyphs] and the glyphs of a page *)

Definition _span_glyphs (span : RawSpan) : result (list Glyph) :=
  let flags := default 0%Z (raw_flags span) in
  match raw_chars span with
  | Some chars =>
      Ok (List.map (fun ch => mkGlyph (rc_c ch) (rc_bbox ch) (raw_font span)
                                (raw_size span) (raw_color span) flags) chars)
  | None =>
      let txt := default [] (raw_text span) in
      match Font_fontname (raw_font span) with
      | None => Raise FontError
      | Some _ =>
          let b := raw_bbox span in
          let step := (x1 b - x0 b) / inject_Z (Z.max (Z.of_nat (length txt)) 1) in
          Ok (imap (fun idx ch =>
                      mkGlyph ch
                        (mkRect (x0 b + inject_Z (Z.of_nat idx) * step) (y0 b)
                                (x0 b + (inject_Z (Z.of_nat idx) + 1) * step) (y1 b))
                        (raw_font span) (raw_size span) (raw_color span) flags)
                   txt)
      end
  end.

(** [glyphs.extend(_span_glyphs(sp))] over a list of spans. *)
Fixpoint extend_glyphs (glyphs : list Glyph) (spans : list RawSpan)
  : result (list Glyph) :=
  match spans with
  | [] => Ok glyphs
  | sp :: spans' =>
      new ← _span_glyphs sp;
      extend_glyphs (glyphs ++ new) spans'
  end.

(** The three nested loops over blocks, lines and spans of the raw dict. *)
Definition page_glyphs (page : Page) : result (list Glyph) :=
  extend_glyphs []
    (flat_map raw_spans (flat_map raw_lines (get_text_rawdict page))).

(* --------------------------------------------------------------------- *)
(** *** The position test *)

(** [position is None or global_y > position] *)
Definition below (position : option Q) (global_y : Q) : bool :=
  match position with
  | None => true
  | Some p => Qgtb global_y p
  end.

(** [last_pos is not None and global_y <= last_pos] *)
Definition not_below (last_pos : option Q) (global_y : Q) : bool :=
  match last_pos with
  | None => false
  | Some p => Qleb global_y p
  end.

(** [page_index * page.rect.height] *)
Definition page_offset_of (page_index : nat) (page : Page) : Q :=
  inject_Z (Z.of_nat page_index) * page_height page.

(* --------------------------------------------------------------------- *)
(** *** [get_string_last_char_position_pdf] *)

(** [for rect in rects]: the first rectangle that passes the test. *)
Fixpoint first_rect_below (page_offset : Q) (position : option Q)
  (rects : list Rect) : option Q :=
  match rects with
  | [] => None
  | rect :: rects' =>
      let global_y := page_offset + y1 rect in
      if below position global_y then Some global_y
      else first_rect_below page_offset position rects'
  end.

(** [for page_index, page in enumerate(doc)] *)
Fixpoint position_in_pages (page_index : nat) (pages : list Page)
  (s : pystr) (position : option Q) : option Q :=
  match pages with
  | [] => None
  | page :: pages' =>
      let page_offset := page_offset_of page_index page in
      match search_for page s with
      | [] => position_in_pages (S page_index) pages' s position
      | rects =>
          match first_rect_below page_offset position rects with
          | Some global_y => Some global_y
          | None => position_in_pages (S page_index) pages' s position
          end
      end
  end.

Definition get_string_last_char_position_pdf (pdf : Doc) (s : pystr)
  (position : option Q) : result (option Q) :=
  if falsy s then Raise (ValueError "Search string cannot be empty")
  else Ok (position_in_pages 0 pdf s position).

(* --------------------------------------------------------------------- *)
(** *** Locating the rectangle in [_replace_once] *)

(** The loop over the spans of a line that computes [search_start_x] and
    [search_end_x]. *)
Fixpoint span_bounds (search accumulated_text : pystr)
  (search_start_x search_end_x : option Q) (spans : list DictSpan)
  : option Q * option Q :=
  match spans with
  | [] => (search_start_x, search_end_x)
  | span :: spans' =>
      let span_text := span_text span in
      let span_bbox := span_bbox span in
      let search_start_x :=
        match search_start_x with
        | None => if startswith search (accumulated_text ++ span_text)
                  then Some (x0 span_bbox) else None
        | Some _ => search_start_x
        end in
      let accumulated_text := accumulated_text ++ span_text in
      if startswith accumulated_text search then
        let search_end_x := Some (x1 span_bbox) in
        if (length search <=? length accumulated_text)%nat
        then (search_start_x, search_end_x)
        else span_bounds search accumulated_text search_start_x search_end_x spans'
      else span_bounds search accumulated_text search_start_x search_end_x spans'
  end.

(** The body of [for line in block["lines"]]: the rectangle the line
    gives, if it selects one. *)
Definition line_selection (page_offset : Q) (search : pystr)
  (last_pos : option Q) (line : DictLine) : option Rect :=
  let line_text := concat (List.map span_text (line_spans line)) in
  if contains line_text search then
    let line_rect := line_bbox line in
    let global_y := page_offset + y1 line_rect in
    if below last_pos global_y then
      match span_bounds search [] None None (line_spans line) with
      | (Some search_start_x, Some search_end_x) =>
          Some (mkRect search_start_x (y0 line_rect) search_end_x (y1 line_rect))
      | _ => None
      end
    else None
  else None.

Fixpoint lines_selection (page_offset : Q) (search : pystr)
  (last_pos : option Q) (lines : list DictLine) : option Rect :=
  match lines with
  | [] => None
  | line :: lines' =>
      match line_selection page_offset search last_pos line with
      | Some selected_rect => Some selected_rect
      | None => lines_selection page_offset search last_pos lines'
      end
  end.

(** [for block in text_dict["blocks"]], text blocks only. *)
Fixpoint blocks_selection (page_offset : Q) (search : pystr)
  (last_pos : option Q) (blocks : list DictBlock) : option Rect :=
  match blocks with
  | [] => None
  | block :: blocks' =>
      if negb (block_type block =? 0)%Z
      then blocks_selection page_offset search last_pos blocks'
      else
        match lines_selection page_offset search last_pos (block_lines block) with
        | Some selected_rect => Some selected_rect
        | None => blocks_selection page_offset search last_pos blocks'
        end
  end.

(** The followers of a hit: the rectangles after its first one whose
    vertical centre lies within 2 units of the first one's extent. *)
Fixpoint same_hit_followers (base_y0 base_y1 : Q) (followers : list Rect)
  : list Rect :=
  match followers with
  | [] => []
  | follower :: followers' =>
      let cy := (y0 follower + y1 follower) / 2 in
      if Qleb (base_y0 - 2) cy && Qleb cy (base_y1 + 2)
      then follower :: same_hit_followers base_y0 base_y1 followers'
      else []
  end.

(** The fallback: the first rectangle below [last_pos], united with the
    followers of its hit. *)
Fixpoint fallback_selection (page_offset : Q) (last_pos : option Q)
  (rects : list Rect) : option Rect :=
  match rects with
  | [] => None
  | rect :: followers =>
      let global_y := page_offset + y1 rect in
      if not_below last_pos global_y
      then fallback_selection page_offset last_pos followers
      else
        let rects_same_hit := same_hit_followers (y0 rect) (y1 rect) followers in
        Some (fold_left rect_union rects_same_hit rect)
  end.

(** What one page contributes to the search. *)
Definition page_selection (page_index : nat) (page : Page) (search : pystr)
  (last_pos : option Q) : option Rect :=
  let page_offset := page_offset_of page_index page in
  match search_for page search with
  | [] => None
  | rects =>
      let selected_rect :=
        if (1 <? length rects)%nat
        then blocks_selection page_offset search last_pos (get_text_dict page)
        else None in
      match selected_rect with
      | Some r => Some r
      | None => fallback_selection page_offset last_pos rects
      end
  end.

(** The first loop of [_replace_once]: the selected page index, the page
    and the selected rectangle. *)
Fixpoint locate_from (page_index : nat) (pages : list Page) (search : pystr)
  (last_pos : option Q) : option (nat * Page * Rect) :=
  match pages with
  | [] => None
  | page :: pages' =>
      match page_selection page_index page search last_pos with
      | Some selected_rect => Some (page_index, page, selected_rect)
      | None => locate_from (S page_index) pages' search last_pos
      end
  end.

Definition locate (doc : Doc) (search : pystr) (last_pos : option Q)
  : option (nat * Page * Rect) :=
  locate_from 0 doc search last_pos.

(* --------------------------------------------------------------------- *)
(** *** The baseline of the replacement text *)

Definition checkbox_chars : list N :=
  [9633%N; 9632%N; 9744%N; 9745%N; 9746%N; 11036%N; 11035%N].

(** [g.get("c") in checkbox_chars] *)
Definition is_checkbox (g : Glyph) : bool :=
  existsb (N.eqb (g_c g)) checkbox_chars.

(** The loop that separates [text_glyphs] from [checkbox_glyphs]. *)
Definition split_glyphs (target_glyphs : list Glyph)
  : list Glyph * list Glyph :=
  fold_left (fun '(text_glyphs, checkbox_glyphs) g =>
               if is_checkbox g
               then (text_glyphs, checkbox_glyphs ++ [g])
               else (text_glyphs ++ [g], checkbox_glyphs))
            target_glyphs ([], []).

Definition nonempty {A} (l : list A) : bool :=
  match l with [] => false | _ :: _ => true end.

(** [text_glyphs if text_glyphs else target_glyphs] *)
Definition baseline_glyphs_of (target_glyphs : list Glyph) : list Glyph :=
  let '(text_glyphs, checkbox_glyphs) := split_glyphs target_glyphs in
  if nonempty text_glyphs then text_glyphs else target_glyphs.

(** [baseline_y]; [None] stands for the [IndexError] of
    [baseline_glyphs[0]] on an empty list, which the guard
    [if not target_glyphs] excludes. *)
Definition baseline_y_of (target_glyphs : list Glyph) : option Q :=
  let '(text_glyphs, checkbox_glyphs) := split_glyphs target_glyphs in
  match baseline_glyphs_of target_glyphs with
  | [] => None
  | base_glyph :: others =>
      let fontsize := g_size base_glyph in
      let baseline_raw :=
        py_max (y1 (g_bbox base_glyph)) (List.map (fun g => y1 (g_bbox g)) others) in
      let glyph_top :=
        py_min (y0 (g_bbox base_glyph)) (List.map (fun g => y0 (g_bbox g)) others) in
      let glyph_height := baseline_raw - glyph_top in
      let excess := Qmax 0 (glyph_height - fontsize) in
      let baseline_shift :=
        if nonempty checkbox_glyphs && nonempty text_glyphs
        then Qmin (excess * (5 # 10)) (fontsize * (1 # 10))
        else Qmin (excess * (18 # 10)) (fontsize * (2 # 10)) in
      Some (baseline_raw - baseline_shift)
  end.

(* --------------------------------------------------------------------- *)
(** *** The dominant font *)

(** A [Counter], in the order its keys were first seen. *)
Fixpoint counter_incr (elem : pystr) (counts : list (pystr * nat))
  : list (pystr * nat) :=
  match counts with
  | [] => [(elem, 1%nat)]
  | (k, n) :: counts' =>
      if str_eqb k elem then (k, S n) :: counts'
      else (k, n) :: counter_incr elem counts'
  end.

Definition Counter (elems : list pystr) : list (pystr * nat) :=
  fold_left (fun counts elem => counter_incr elem counts) elems [].

(** [most_common(1)]: the first key of greatest count. *)
Fixpoint most_common_from (best : pystr * nat) (counts : list (pystr * nat))
  : pystr * nat :=
  match counts with
  | [] => best
  | kn :: counts' =>
      if (snd best <? snd kn)%nat then most_common_from kn counts'
      else most_common_from best counts'
  end.

Definition most_common_1 (counts : list (pystr * nat)) : option (pystr * nat) :=
  match counts with
  | [] => None
  | kn :: counts' => Some (most_common_from kn counts')
  end.

Definition dominant_fontname_of (first : Glyph) (target_glyphs : list Glyph)
  : pystr :=
  let font_counter :=
    Counter (List.map g_font
               (List.filter (fun g => negb (falsy (g_font g))) target_glyphs)) in
  match most_common_1 font_counter with
  | Some (name, _) => name
  | None => g_font first
  end.

(** [next((g for g in target_glyphs if g.get("font") == dominant_fontname),
    target_glyphs[0])] *)
Definition rep_glyph_of (first : Glyph) (target_glyphs : list Glyph)
  (dominant_fontname : pystr) : Glyph :=
  match List.find (fun g => str_eqb (g_font g) dominant_fontname) target_glyphs with
  | Some g => g
  | None => first
  end.

(* --------------------------------------------------------------------- *)
(** *** [_get_font] *)

Definition pymupdf_font_map : list (pystr * pystr) :=
  [ (py "lmroman", py "tiro");
    (py "cmr", py "tiro");
    (py "times", py "tiro");
    (py "arial", py "helv");
    (py "helvetica", py "helv");
    (py "lmsans", py "helv");
    (py "cmss", py "helv");
    (py "courier", py "cour");
    (py "lmmono", py "cour");
    (py "cmtt", py "cour") ].

(** The loop over the prefix table: the first matching prefix whose
    built-in font can be constructed. *)
Fixpoint font_by_prefix (name_lower : pystr) (table : list (pystr * pystr))
  : option (Font * pystr) :=
  match table with
  | [] => None
  | (prefix, pymupdf_font) :: table' =>
      if startswith name_lower prefix then
        match Font_fontname pymupdf_font with
        | Some f => Some (f, pymupdf_font)
        | None => font_by_prefix name_lower table'
        end
      else font_by_prefix name_lower table'
  end.

(** The end of the ladder, after the font file (if any) could not be
    loaded: the family of [resolved_name], [resolved_name] itself, and at
    last the built-in [helv], whose failure is not caught. *)
Definition font_by_resolved_name (resolved_name : pystr) : result Font :=
  let last_resort :=
    match Font_fontname resolved_name with
    | Some f => Ok f
    | None =>
        match Font_fontname (py "helv") with
        | Some f => Ok f
        | None => Raise FontError
        end
    end in
  let resolved_lower := lower resolved_name in
  if str_eqb resolved_lower (py "times new roman")
     || contains resolved_lower (py "times") then
    match Font_fontname (py "tiro") with
    | Some f => Ok f
    | None => last_resort
    end
  else if str_eqb resolved_lower (py "arial")
          || contains resolved_lower (py "arial")
          || str_eqb resolved_lower (py "helvetica")
          || contains resolved_lower (py "helvetica") then
    match Font_fontname (py "helv") with
    | Some f => Ok f
    | None => last_resort
    end
  else last_resort.

(** [_get_font(name)] on the cache [font_cache]: the font, the cache
    after the call and the records logged. *)
Definition _get_font (name : pystr) (font_cache : gmap pystr Font)
  : result (Font * gmap pystr Font * list LogRecord) :=
  match font_cache !! name with
  | Some f => Ok (f, font_cache, [])
  | None =>
      match Font_fontname name with
      | Some f => Ok (f, <[name := f]> font_cache, [])
      | None =>
          match font_by_prefix (lower name) pymupdf_font_map with
          | Some (f, pymupdf_font) =>
              Ok (f, <[name := f]> font_cache,
                  [mkLog INFO (FontMapping name pymupdf_font)])
          | None =>
              match get_available_font name with
              | None => Raise HelperError
              | Some (resolved_name, font_path) =>
                  let from_file :=
                    match font_path with
                    | Some path =>
                        if falsy path then (None, [])
                        else
                          match Font_fontfile path with
                          | Some f => (Some f, [])
                          | None => (None, [mkLog DEBUG (FailedToEmbed path)])
                          end
                    | None => (None, [])
                    end in
                  match from_file with
                  | (Some f, log) => Ok (f, <[name := f]> font_cache, log)
                  | (None, log) =>
                      f ← font_by_resolved_name resolved_name;
                      Ok (f, <[name := f]> font_cache, log)
                  end
              end
          end
      end
  end.

(* --------------------------------------------------------------------- *)
(** *** Redaction and re-draw on the selected page *)

(** The loop [for ch in sanitized_repl] that fills the text writer. *)
Fixpoint append_text (font_obj : Font) (fontsize baseline_y cursor_x : Q)
  (text : pystr) : list (TextItem Font) :=
  match text with
  | [] => []
  | ch :: text' =>
      let glyph_w := text_length font_obj ch fontsize in
      mkTextItem cursor_x baseline_y ch font_obj fontsize
        :: append_text font_obj fontsize baseline_y (cursor_x + glyph_w) text'
  end.

(** [target_glyphs]: the glyphs whose box intersects [rect]. *)
Definition target_glyphs_of (rect : Rect) (glyphs : list Glyph) : list Glyph :=
  List.filter (fun g => intersects rect (g_bbox g)) glyphs.

(** The second loop of [_replace_once] on the selected page: the page
    after the edit, the font cache and the records logged. *)
Definition replace_on_page (page : Page) (rect : Rect) (repl : pystr)
  (font_cache : gmap pystr Font)
  : result (Page * gmap pystr Font * list LogRecord) :=
  glyphs ← page_glyphs page;
  let target_glyphs := target_glyphs_of rect glyphs in
  match target_glyphs with
  | [] => Ok (page, font_cache, [])
  | first :: _ =>
      let sanitized_repl := sanitize_unicode_for_pdf repl in
      let log_sanitize := sanitize_unicode_for_pdf_log repl in
      let baseline_y := default 0 (baseline_y_of target_glyphs) in
      let page := apply_redaction page rect in
      let cursor_x := x0 rect in
      let dominant_fontname := dominant_fontname_of first target_glyphs in
      let rep_glyph := rep_glyph_of first target_glyphs dominant_fontname in
      let fontsize := g_size rep_glyph in
      let rep_color := _normalize_color (g_color rep_glyph) in
      '(font_obj, font_cache, log_font) ← _get_font dominant_fontname font_cache;
      let writer :=
        mkTextWriter rep_color
          (append_text font_obj fontsize baseline_y cursor_x sanitized_repl) in
      Ok (write_text page writer, font_cache, log_sanitize ++ log_font)
  end.

(** [_replace_once(search, repl, last_pos)] on the open document: the
    document and font cache after the call, the returned position and
    the records logged. *)
Definition _replace_once (doc : Doc) (font_cache : gmap pystr Font)
  (search repl : pystr) (last_pos : option Q)
  : result (Doc * gmap pystr Font * option Q * list LogRecord) :=
  match locate doc search last_pos with
  | None =>
      Ok (doc, font_cache, last_pos,
          [mkLog DEBUG (NoMatchingOccurrences search)])
  | Some (selected_page_index, page, selected_rect) =>
      '(page, font_cache, log) ←
        replace_on_page page selected_rect repl font_cache;
      let doc := <[selected_page_index := page]> doc in
      let page_offset := page_offset_of selected_page_index page in
      Ok (doc, font_cache, Some (page_offset + y1 selected_rect), log)
  end.

(* --------------------------------------------------------------------- *)
(** *** The sequential driver *)

(** What the loop of [replace_text_preserve_layout_pdf] carries: the open
    document, the font cache, the cursor and the log. *)
Record DriverState : Type := mkState {
  st_doc : Doc;
  st_font_cache : gmap pystr Font;
  last_position : option Q;
  st_log : list LogRecord
}.

(** The body of the loop for one pair. [pdf] is the file at [pdf_path],
    which [get_string_last_char_position_pdf] opens anew. *)
Definition process_pair (pdf : Doc) (st : DriverState)
  (line_pair : pystr * pystr) : result DriverState :=
  let '(search_line, repl_line) := line_pair in
  if falsy search_line then Ok st
  else if str_eqb search_line repl_line then
    pos ← get_string_last_char_position_pdf pdf search_line (last_position st);
    Ok (mkState (st_doc st) (st_font_cache st) pos (st_log st))
  else
    '(doc, font_cache, pos, log) ←
      _replace_once (st_doc st) (st_font_cache st) search_line repl_line
                    (last_position st);
    Ok (mkState doc font_cache pos (st_log st ++ log)).

(** [for search_line, repl_line in zip(s1_lines, s2_lines)] *)
Fixpoint process_pairs (pdf : Doc) (st : DriverState)
  (pairs : list (pystr * pystr)) : result DriverState :=
  match pairs with
  | [] => Ok st
  | line_pair :: pairs' =>
      st' ← process_pair pdf st line_pair;
      process_pairs pdf st' pairs'
  end.

(** [{s1_lines[i] for i in range(n) if s1_lines[i] != s2_lines[i]}] *)
Definition related_lines (s1_lines s2_lines : list pystr) : gset pystr :=
  list_to_set
    (List.map fst
       (List.filter (fun '(a, b) => negb (str_eqb a b)) (zip s1_lines s2_lines))).

(** [cleaned_s1_lines] and [cleaned_s2_lines] *)
Definition cleaned_lines (s1_lines s2_lines : list pystr)
  : list pystr * list pystr :=
  let related := related_lines s1_lines s2_lines in
  let kept :=
    List.filter (fun '(a, _) => bool_decide (a ∈ related))
                (zip s1_lines s2_lines) in
  (List.map fst kept, List.map snd kept).

(** The function from the filter to the end of the loop, on lists of
    lines of equal length. *)
Definition replace_lines (pdf : Doc) (s1_lines s2_lines : list pystr)
  (position : option Q) : result DriverState :=
  let '(s1_lines, s2_lines) := cleaned_lines s1_lines s2_lines in
  process_pairs pdf (mkState pdf ∅ position []) (zip s1_lines s2_lines).

(** An argument [s1] or [s2]: a string or a list of strings. *)
Inductive PyArg : Type :=
| Str (s : pystr)
| Lines (l : list pystr).

(** [not s1] *)
Definition arg_falsy (a : PyArg) : bool :=
  match a with
  | Str s => falsy s
  | Lines l => negb (nonempty l)
  end.

(** [s1_lines] and [s2_lines], by the [multiline] test. *)
Definition lines_of_args (s1 s2 : PyArg) : list pystr * list pystr :=
  match s1, s2 with
  | Lines l1, Lines l2 => (l1, l2)
  | Lines l1, Str t2 => (l1, splitlines t2)
  | Str t1, Lines l2 => (splitlines t1, l2)
  | Str t1, Str t2 =>
      if contains t1 [10%N] || contains t2 [10%N]
      then (splitlines t1, splitlines t2)
      else ([t1], [t2])
  end.

(** [replace_text_preserve_layout_pdf(pdf_path, s1, s2, position=...)]:
    the state at the end of the loop, whose document is the one saved. *)
Definition replace_text_preserve_layout_pdf (pdf : Doc) (s1 s2 : PyArg)
  (position : option Q) : result DriverState :=
  if arg_falsy s1 then Raise (ValueError "Search string cannot be empty")
  else
    let '(s1_lines, s2_lines) := lines_of_args s1 s2 in
    if negb (length s1_lines =? length s2_lines)%nat
    then Raise (ValueError "s1 and s2 must have the same number of lines")
    else replace_lines pdf s1_lines s2_lines position.

End Engine.

(* ===================================================================== *)
(** ** The properties, in the words of the specification *)
(* ===================================================================== *)

(** The eight code points the sanitizer maps and their ASCII equivalents:
    straight double quote for U+201C and U+201D, apostrophe for U+2018
    and U+2019, two hyphens for the em dash, one for the en dash, three
    dots for the ellipsis and a space for the non-breaking space. *)
Definition mapped_code_points : list N :=
  [8220%N; 8221%N; 8216%N; 8217%N; 8212%N; 8211%N; 8230%N; 160%N].

Definition ascii_equivalent (ch : N) : pystr :=
  match ch with
  | 8220%N => [34%N]
  | 8221%N => [34%N]
  | 8216%N => [39%N]
  | 8217%N => [39%N]
  | 8212%N => [45%N; 45%N]
  | 8211%N => [45%N]
  | 8230%N => [46%N; 46%N; 46%N]
  | 160%N => [32%N]
  | _ => [ch]
  end.

(** The order of cursors: unset comes before every position. *)
Definition cursor_le (a b : option Q) : Prop :=
  match a, b with
  | None, _ => True
  | Some _, None => False
  | Some p, Some q => p <= q
  end.

(** A cursor after a pair is unchanged or strictly greater. *)
Definition cursor_advanced (before after : option Q) : Prop :=
  after = before \/
  match before, after with
  | None, Some _ => True
  | Some p, Some q => p < q
  | _, None => False
  end.

(** The pairs that survive the filter: the search string is not empty and
    some pair of the list has the same search string and a different
    replacement. *)
Definition survives (pairs : list (pystr * pystr)) (p : pystr * pystr) : Prop :=
  p.1 <> [] /\ Exists (fun q => q.1 = p.1 /\ q.1 <> q.2) pairs.

Global Instance survives_dec pairs p : Decision (survives pairs p).
Proof. unfold survives. apply _. Defined.

(** The constants of the baseline shift: with checkbox glyphs among text
    glyphs, and otherwise. *)
Definition K_mixed : Q := 5 # 10.
Definition cap_mixed : Q := 1 # 10.
Definition K_plain : Q := 18 # 10.
Definition cap_plain : Q := 2 # 10.

(** One replacement of a one-character pattern, seen character by
    character. *)
Definition replace_char (old : N) (new : pystr) (ch : N) : pystr :=
  if (ch =? old)%N then new else [ch].

(** A code point of the ASCII range. *)
Definition ascii_only (ch : N) : Prop := (ch < 128)%N.

(** [m] is the greatest, or the least, element of [l]. *)
Definition is_max (m : Q) (l : list Q) : Prop :=
  In m l /\ Forall (fun x => x <= m) l.

Definition is_min (m : Q) (l : list Q) : Prop :=
  In m l /\ Forall (fun x => m <= x) l.

(** The first attempt that gives a font. *)
Fixpoint first_success {A} (attempts : list (option A)) : option A :=
  match attempts with
  | [] => None
  | Some a :: _ => Some a
  | None :: attempts' => first_success attempts'
  end.

Section SpecWords.
Context `{env : PdfEnv}.

(** The ladder in the order the specification gives it: the exact name;
    the table of family prefixes, matched on the lowercased name, to the
    built-in serif, sans and mono fonts; the font manager's file, the
    family of its resolved name and the resolved name itself; the
    built-in sans font. *)
Definition font_ladder (name resolved_name : pystr) (font_path : option pystr)
  : list (option Font) :=
  [ Font_fontname name ]
  ++ List.map (fun '(prefix, builtin) =>
                 if startswith (lower name) prefix
                 then Font_fontname builtin else None)
              pymupdf_font_map
  ++ [ match font_path with
       | Some path => if falsy path then None else Font_fontfile path
       | None => None
       end;
       if contains (lower resolved_name) (py "times")
       then Font_fontname (py "tiro")
       else if contains (lower resolved_name) (py "arial")
               || contains (lower resolved_name) (py "helvetica")
            then Font_fontname (py "helv")
            else None;
       Font_fontname resolved_name ]
  ++ [ Font_fontname (py "helv") ].

End SpecWords.

(* ===================================================================== *)
(** ** A small concrete environment *)
(* ===================================================================== *)

Module Sample.

(** A font is a built-in one or one loaded from a file. *)
Inductive SFont : Type :=
| Builtin (name : pystr)
| FromFile (path : pystr).

(** A page records what the search answers for each string, its
    structured text, and the edits applied to it. *)
Record SPage : Type := mkSPage {
  sp_height : Q;
  sp_hits : list (pystr * list Rect);
  sp_dict : list DictBlock;
  sp_raw : list RawBlock;
  sp_redacted : list Rect;
  sp_written : list (TextWriter SFont)
}.

Definition s_search_for (p : SPage) (s : pystr) : list Rect :=
  match List.find (fun kv => str_eqb (fst kv) s) (sp_hits p) with
  | Some (_, rects) => rects
  | None => []
  end.

(** Redaction removes the hits it touches. *)
Definition s_apply_redaction (p : SPage) (r : Rect) : SPage :=
  mkSPage (sp_height p)
    (List.map (fun '(k, rects) =>
                 (k, List.filter (fun h => negb (intersects r h)) rects))
              (sp_hits p))
    (sp_dict p) (sp_raw p) (r :: sp_redacted p) (sp_written p).

Definition s_write_text (p : SPage) (w : TextWriter SFont) : SPage :=
  mkSPage (sp_height p) (sp_hits p) (sp_dict p) (sp_raw p)
          (sp_redacted p) (sp_written p ++ [w]).

Definition builtin_fonts : list pystr :=
  [py "helv"; py "tiro"; py "cour"; py "symb"; py "zadb"].

Definition s_Font_fontname (name : pystr) : option SFont :=
  if existsb (str_eqb name) builtin_fonts then Some (Builtin name) else None.

Definition s_Font_fontfile (path : pystr) : option SFont :=
  if startswith path (py "/tmp/") then Some (FromFile path) else None.

Definition s_get_available_font (name : pystr) : option (pystr * option pystr) :=
  Some (name, None).

Global Instance env : PdfEnv := {|
  Page := SPage;
  Font := SFont;
  page_height := sp_height;
  search_for := s_search_for;
  get_text_dict := sp_dict;
  get_text_rawdict := sp_raw;
  apply_redaction := s_apply_redaction;
  write_text := s_write_text;
  Font_fontname := s_Font_fontname;
  Font_fontfile := s_Font_fontfile;
  text_length := fun _ _ fontsize => fontsize * (1 # 2);
  get_available_font := s_get_available_font
|}.

(** A run of text set in 12 point glyphs 6 units wide, from [x] on the
    line between [top] and [bottom]. *)
Definition chars_at (x top bottom : Q) (text : pystr) : list RawChar :=
  imap (fun idx ch =>
          mkRawChar ch (mkRect (x + inject_Z (Z.of_nat idx) * 6) top
                               (x + (inject_Z (Z.of_nat idx) + 1) * 6) bottom))
       text.

Definition raw_span_at (x top bottom : Q) (text : pystr) : RawSpan :=
  mkRawSpan (Some (chars_at x top bottom text)) None
            (mkRect x top (x + inject_Z (Z.of_nat (length text)) * 6) bottom)
            (py "Helvetica") 12 (ColorInt 0) (Some 0%Z).

Definition dict_span_at (x top bottom : Q) (text : pystr) : DictSpan :=
  mkDictSpan text
    (mkRect x top (x + inject_Z (Z.of_nat (length text)) * 6) bottom).

(** A form of one page: [City: ____] on the line ending at 112 and
    [Name: ____] on the line ending at 212. *)
Definition form_page : SPage :=
  mkSPage 800
    [ (py "City: ____", [mkRect 50 100 110 112]);
      (py "Name: ____", [mkRect 50 200 110 212]) ]
    [ mkDictBlock 0
        [ mkDictLine (mkRect 50 100 110 112) [dict_span_at 50 100 112 (py "City: ____")];
          mkDictLine (mkRect 50 200 110 212) [dict_span_at 50 200 212 (py "Name: ____")] ] ]
    [ mkRawBlock
        [ mkRawLine [raw_span_at 50 100 112 (py "City: ____")];
          mkRawLine [raw_span_at 50 200 212 (py "Name: ____")] ] ]
    [] [].

Definition form_pdf : list SPage := [form_page].

(** The pairs of a fill where [City: ____] is expected twice and filled
    the second time. *)
Definition form_pairs : list (pystr * pystr) :=
  [ (py "Name: ____", py "Name: Alice");
    (py "City: ____", py "City: ____");
    (py "City: ____", py "City: Paris") ].

(** A page with two runs of underscores: the first one ends the span
    [Name: ____] of the upper line, the second one is a span of its own
    at the start of the lower line. *)
Definition two_lines_page : SPage :=
  mkSPage 800
    [ (py "____", [mkRect 86 100 110 112; mkRect 50 200 74 212]) ]
    [ mkDictBlock 0
        [ mkDictLine (mkRect 50 100 110 112) [dict_span_at 50 100 112 (py "Name: ____")];
          mkDictLine (mkRect 50 200 104 212)
            [dict_span_at 50 200 212 (py "____"); dict_span_at 74 200 212 (py " Date")] ] ]
    [ mkRawBlock
        [ mkRawLine [raw_span_at 50 100 112 (py "Name: ____")];
          mkRawLine [raw_span_at 50 200 212 (py "____"); raw_span_at 74 200 212 (py " Date")] ] ]
    [] [].

(** A page whose search reports a rectangle that no glyph of the raw
    dict meets: the only glyphs are those of a heading further up. *)
Definition stray_hit_page : SPage :=
  mkSPage 800
    [ (py "____", [mkRect 50 100 74 112]) ]
    [ mkDictBlock 0
        [ mkDictLine (mkRect 50 20 86 32) [dict_span_at 50 20 32 (py "Form A")] ] ]
    [ mkRawBlock [ mkRawLine [raw_span_at 50 20 32 (py "Form A")] ] ]
    [] [].





End Sample.

(* ===================================================================== *)
(** ** Further notions for the properties *)
(* ===================================================================== *)

(** The characters of a span: those of [chars], or those of [text]. *)
Definition span_chars (span : RawSpan) : pystr :=
  match raw_chars span with
  | Some chars => List.map rc_c chars
  | None => default [] (raw_text span)
  end.


Local Close Scope Q_scope.

(** How often [k] occurs in [l]. *)
Definition occurrences (k : pystr) (l : list pystr) : nat :=
  length (List.filter (str_eqb k) l).

(** A counter that has counted the elements of [seen]: its keys are
    distinct, they are the elements of [seen], and each is listed with
    the number of its occurrences. *)
Definition counts_of (counts : list (pystr * nat)) (seen : list pystr) : Prop :=
  List.NoDup (List.map fst counts) /\
  (forall k n, In (k, n) counts -> In k seen /\ n = occurrences k seen) /\
  (forall k, In k seen -> exists n, In (k, n) counts).

(** No character of [w] is a line boundary. *)
Definition no_break (w : pystr) : Prop := Forall (fun ch => is_linebreak ch = false) w.

(* ===================================================================== *)
(** ** DOCX documents *)
(* ===================================================================== *)

(** The children of the body of a document, of a table, of a row and of
    a cell, by their tag. A paragraph is the text its [text] property
    reads and writes. *)
Inductive CellChild : Type := CellP (text : pystr) | CellOther.
Inductive RowChild : Type := RowTc (children : list CellChild) | RowOther.
Inductive TblChild : Type := TblTr (children : list RowChild) | TblOther.
Inductive BodyChild : Type :=
| BodyP (text : pystr)
| BodyTbl (children : list TblChild)
| BodyOther.

Abbreviation Docx := (list BodyChild).

Definition cell_paragraphs (cell : list CellChild) : list pystr :=
  flat_map (fun cell_block => match cell_block with
                              | CellP text => [text]
                              | CellOther => []
                              end) cell.

Definition row_paragraphs (row : list RowChild) : list pystr :=
  flat_map (fun cell => match cell with
                        | RowTc children => cell_paragraphs children
                        | RowOther => []
                        end) row.

Definition tbl_paragraphs (tbl : list TblChild) : list pystr :=
  flat_map (fun row => match row with
                       | TblTr children => row_paragraphs children
                       | TblOther => []
                       end) tbl.

(** The paragraphs the main loop of [_iter_paragraphs_with_index] yields. *)
Definition body_paragraphs (doc : Docx) : list pystr :=
  flat_map (fun block => match block with
                         | BodyP text => [text]
                         | BodyTbl tbl => tbl_paragraphs tbl
                         | BodyOther => []
                         end) doc.

(** [doc.paragraphs]: the paragraphs that are children of the body. *)
Definition doc_paragraphs (doc : Docx) : list pystr :=
  flat_map (fun block => match block with
                         | BodyP text => [text]
                         | _ => []
                         end) doc.

(** [_iter_paragraphs_with_index(doc)]: the paragraphs with their index. *)
Definition _iter_paragraphs_with_index (doc : Docx) : list (pystr * nat) :=
  let yielded := body_paragraphs doc in
  let yielded := match yielded with
                 | [] => doc_paragraphs doc
                 | _ :: _ => yielded
                 end in
  imap (fun index para => (para, index)) yielded.

(** [para.text = new] for the paragraph that the iteration yields with
    index [idx]: each function walks one level with the running index
    and returns the level after the assignment and the index reached. *)
Fixpoint set_in_cell (idx : nat) (new : pystr) (index : nat)
  (cell : list CellChild) : list CellChild * nat :=
  match cell with
  | [] => ([], index)
  | CellP text :: rest =>
      let '(rest', n) := set_in_cell idx new (S index) rest in
      (CellP (if (index =? idx)%nat then new else text) :: rest', n)
  | CellOther :: rest =>
      let '(rest', n) := set_in_cell idx new index rest in
      (CellOther :: rest', n)
  end.

Fixpoint set_in_row (idx : nat) (new : pystr) (index : nat)
  (row : list RowChild) : list RowChild * nat :=
  match row with
  | [] => ([], index)
  | RowTc cell :: rest =>
      let '(cell', n) := set_in_cell idx new index cell in
      let '(rest', n) := set_in_row idx new n rest in
      (RowTc cell' :: rest', n)
  | RowOther :: rest =>
      let '(rest', n) := set_in_row idx new index rest in
      (RowOther :: rest', n)
  end.

Fixpoint set_in_tbl (idx : nat) (new : pystr) (index : nat)
  (tbl : list TblChild) : list TblChild * nat :=
  match tbl with
  | [] => ([], index)
  | TblTr row :: rest =>
      let '(row', n) := set_in_row idx new index row in
      let '(rest', n) := set_in_tbl idx new n rest in
      (TblTr row' :: rest', n)
  | TblOther :: rest =>
      let '(rest', n) := set_in_tbl idx new index rest in
      (TblOther :: rest', n)
  end.

Fixpoint set_in_body (idx : nat) (new : pystr) (index : nat)
  (doc : Docx) : Docx * nat :=
  match doc with
  | [] => ([], index)
  | BodyP text :: rest =>
      let '(rest', n) := set_in_body idx new (S index) rest in
      (BodyP (if (index =? idx)%nat then new else text) :: rest', n)
  | BodyTbl tbl :: rest =>
      let '(tbl', n) := set_in_tbl idx new index tbl in
      let '(rest', n) := set_in_body idx new n rest in
      (BodyTbl tbl' :: rest', n)
  | BodyOther :: rest =>
      let '(rest', n) := set_in_body idx new index rest in
      (BodyOther :: rest', n)
  end.

Definition set_paragraph_text (idx : nat) (new : pystr) (doc : Docx) : Docx :=
  (set_in_body idx new 0 doc).1.

(** The scan of [str.find]: the first index from [i] on at which [sub]
    starts, [t] being the text from index [i]. *)
Fixpoint find_in (t sub : pystr) (i : nat) : option nat :=
  if startswith t sub then Some i
  else match t with
       | [] => None
       | _ :: t' => find_in t' sub (S i)
       end.

(** [text.find(sub, start)]; [None] stands for -1. A negative [start]
    counts from the end. *)
Definition str_find (text sub : pystr) (start : Z) : option nat :=
  let len := Z.of_nat (length text) in
  let start := if (start <? 0)%Z then Z.max (start + len) 0 else start in
  if (len <? start)%Z then None
  else find_in (drop (Z.to_nat start) text) sub (Z.to_nat start).

(** A position in a DOCX file: paragraph index and character index. *)
Abbreviation DocxPos := (Z * Z)%type.

(** The loop of [get_string_last_char_position_docx]. *)
Fixpoint position_in_paragraphs (paras : list (pystr * nat)) (s : pystr)
  (position : option DocxPos) : option DocxPos :=
  match paras with
  | [] => None
  | (text, idx) :: paras' =>
      if falsy text then position_in_paragraphs paras' s position
      else
        match str_find text s 0 with
        | None => position_in_paragraphs paras' s position
        | Some found_at =>
            let last_char_idx :=
              (Z.of_nat found_at + Z.of_nat (length s) - 1)%Z in
            let accepted :=
              match position with
              | None => true
              | Some (p0, p1) =>
                  (p0 <? Z.of_nat idx)%Z
                  || ((Z.of_nat idx =? p0)%Z && (p1 <? last_char_idx)%Z)
              end in
            if accepted then Some (Z.of_nat idx, last_char_idx)
            else position_in_paragraphs paras' s position
        end
  end.

Definition get_string_last_char_position_docx (docx : Docx) (s : pystr)
  (position : option DocxPos) : result (option DocxPos) :=
  if falsy s then Raise (ValueError "Search string cannot be empty")
  else Ok (position_in_paragraphs (_iter_paragraphs_with_index docx) s position).

(** The loop of [_replace_once] of the DOCX variant: the index of the
    paragraph it assigns, the text assigned and the position returned. *)
Fixpoint replace_in_paragraphs (paras : list (pystr * nat))
  (search repl : pystr) (last_pos : option DocxPos)
  : option (nat * pystr * DocxPos) :=
  match paras with
  | [] => None
  | (text, idx) :: paras' =>
      if falsy text then replace_in_paragraphs paras' search repl last_pos
      else
        let found :=
          match last_pos with
          | Some (p0, p1) =>
              if (Z.of_nat idx <? p0)%Z then None
              else
                let search_from := if (p0 <? Z.of_nat idx)%Z then 0%Z else p1 in
                Some (str_find text search search_from)
          | None => Some (str_find text search 0)
          end in
        match found with
        | None | Some None =>
            replace_in_paragraphs paras' search repl last_pos
        | Some (Some start) =>
            let end_char := (start + length search)%nat in
            Some (idx, take start text ++ repl ++ drop end_char text,
                  (Z.of_nat idx, Z.of_nat (start + length repl)))
        end
  end.

(** [_replace_once(search, repl, last_pos)] on the open document: the
    document after the call, the position returned and the records
    logged. *)
Definition _replace_once_docx (doc : Docx) (search repl : pystr)
  (last_pos : option DocxPos) : Docx * option DocxPos * list LogRecord :=
  match replace_in_paragraphs (_iter_paragraphs_with_index doc)
          search repl last_pos with
  | Some (idx, new_text, pos) =>
      (set_paragraph_text idx new_text doc, Some pos, [])
  | None => (doc, last_pos, [mkLog DEBUG (NoMatchingOccurrences search)])
  end.

(** The state of the loop of [replace_text_preserve_layout_docx]. *)
Record DocxState : Type := mkDocxState {
  dx_doc : Docx;
  dx_last_position : option DocxPos;
  dx_log : list LogRecord
}.

(** The body of the loop for one pair; [docx] is the file at
    [docx_path], which the locator opens anew. *)
Definition process_pair_docx (docx : Docx) (st : DocxState)
  (line_pair : pystr * pystr) : result DocxState :=
  let '(search_line, repl_line) := line_pair in
  if falsy search_line then Ok st
  else if str_eqb search_line repl_line then
    pos ← get_string_last_char_position_docx docx search_line
            (dx_last_position st);
    Ok (mkDocxState (dx_doc st) pos (dx_log st))
  else
    let '(doc, pos, log) :=
      _replace_once_docx (dx_doc st) search_line repl_line
                         (dx_last_position st) in
    Ok (mkDocxState doc pos (dx_log st ++ log)).

Fixpoint process_pairs_docx (docx : Docx) (st : DocxState)
  (pairs : list (pystr * pystr)) : result DocxState :=
  match pairs with
  | [] => Ok st
  | line_pair :: pairs' =>
      st' ← process_pair_docx docx st line_pair;
      process_pairs_docx docx st' pairs'
  end.

(** [replace_text_preserve_layout_docx(docx_path, s1, s2, position=...)]:
    the state at the end of the loop, whose document is the one saved. *)
Definition replace_text_preserve_layout_docx (docx : Docx) (s1 s2 : PyArg)
  (position : option DocxPos) : result DocxState :=
  if arg_falsy s1 then Raise (ValueError "Search string cannot be empty")
  else
    let '(s1_lines, s2_lines) := lines_of_args s1 s2 in
    if negb (length s1_lines =? length s2_lines)%nat
    then Raise (ValueError "s1 and s2 must have the same number of lines")
    else
      let '(s1_lines, s2_lines) := cleaned_lines s1_lines s2_lines in
      process_pairs_docx docx (mkDocxState docx position [])
                         (zip s1_lines s2_lines).

(** The order of DOCX positions: by paragraph, then by character. *)
Definition docx_pos_le (a b : DocxPos) : Prop :=
  (a.1 < b.1 \/ (a.1 = b.1 /\ a.2 <= b.2))%Z.

Definition docx_pos_lt (a b : DocxPos) : Prop :=
  (a.1 < b.1 \/ (a.1 = b.1 /\ a.2 < b.2))%Z.

(* ===================================================================== *)
(** ** Checkboxes in the replacement lines *)
(* ===================================================================== *)

(** [pattern in options] *)
Definition str_in (pattern : pystr) (options : list pystr) : bool :=
  existsb (str_eqb pattern) options.

(** [update_checkbox(pattern, should_check)] of [checkbox_processor]. *)
Definition update_checkbox (pattern : pystr) (should_check : bool) : pystr :=
  if should_check then
    if str_in pattern [py "[ ]"; py "[]"] then py "[X]"
    else if str_in pattern [py "( )"; py "()"] then py "(X)"
    else if str_eqb pattern [9744%N] then [9745%N]
    else if str_eqb pattern [9633%N] then [9632%N]
    else if str_in pattern [[9675%N]; [9711%N]] then [9679%N]
    else pattern
  else
    if str_in pattern [py "[X]"; py "[x]"] then py "[ ]"
    else if str_in pattern [py "(X)"; py "(x)"] then py "( )"
    else if str_in pattern [[9745%N]; [9746%N]] then [9744%N]
    else if str_eqb pattern [9632%N] then [9633%N]
    else if str_in pattern [[9675%N]; [9711%N]] then [9675%N]
    else pattern.

(** The character class of box symbols and the class [[ Xx]] of
    [checkbox_regex]. *)
Definition is_box_symbol (ch : N) : bool :=
  existsb (N.eqb ch)
    [9744%N; 9745%N; 9746%N; 9633%N; 9632%N; 9675%N; 9711%N; 9679%N].

Definition is_mark (ch : N) : bool :=
  existsb (N.eqb ch) [32%N; 88%N; 120%N].

(** The closing character that [checkbox_regex] wants after an opening
    bracket or parenthesis. *)
Definition closing (ch : N) : option N :=
  if (ch =? 91)%N then Some 93%N
  else if (ch =? 40)%N then Some 41%N
  else None.

(** [checkbox_regex.sub(_replacer, text)]: the text is scanned from the
    left; a match of [\[[ Xx]?\]], [\([ Xx]?\)] or a box symbol is
    replaced by [update_checkbox] of it, checked when the running index
    of the match is among [checked_indices]. *)
Fixpoint sub_checkboxes (checked_indices : list Z) (current_index : nat)
  (text : pystr) {struct text} : pystr :=
  let should_check := bool_decide (Z.of_nat current_index ∈ checked_indices) in
  match text with
  | [] => []
  | ch :: rest =>
      if is_box_symbol ch then
        update_checkbox [ch] should_check
          ++ sub_checkboxes checked_indices (S current_index) rest
      else
        match closing ch with
        | None => ch :: sub_checkboxes checked_indices current_index rest
        | Some close =>
            match rest with
            | [] => [ch]
            | m :: rest1 =>
                if is_mark m then
                  match rest1 with
                  | [] => ch :: sub_checkboxes checked_indices current_index rest
                  | c :: rest2 =>
                      if (c =? close)%N then
                        update_checkbox [ch; m; c] should_check
                          ++ sub_checkboxes checked_indices (S current_index) rest2
                      else ch :: sub_checkboxes checked_indices current_index rest
                  end
                else if (m =? close)%N then
                  update_checkbox [ch; m] should_check
                    ++ sub_checkboxes checked_indices (S current_index) rest1
                else ch :: sub_checkboxes checked_indices current_index rest
            end
        end
  end.

(** A [CheckboxEntry], as far as [update_checkbox_in_paragraph] reads it. *)
Record CheckboxEntry : Type := mkCheckboxEntry {
  entry_lines : pystr;
  checked_indices : list Z
}.

(** [update_checkbox_in_paragraph(entry)]: the text returned, which is
    also stored in [entry.lines]. *)
Definition update_checkbox_in_paragraph (entry : CheckboxEntry) : pystr :=
  sub_checkboxes (checked_indices entry) 0 (entry_lines entry).

(** The two lists [fill_flat_pdf_with_entries] builds from the checkbox
    entries: the lines of each entry before the update, and after. *)
Definition checkbox_line_lists (checkbox_entries : list CheckboxEntry)
  : list pystr * list pystr :=
  fold_left (fun '(s1_lines, s2_lines) entry =>
               (s1_lines ++ splitlines (entry_lines entry),
                s2_lines ++ splitlines (update_checkbox_in_paragraph entry)))
            checkbox_entries ([], []).

(** The number of lines [splitlines_from] gives: [pending] tells whether
    the line read so far is not empty. *)
Fixpoint count_lines (pending : bool) (t : pystr) : nat :=
  match t with
  | [] => if pending then 1%nat else 0%nat
  | ch :: t' =>
      if (ch =? 13)%N then
        match t' with
        | 10%N :: t'' => S (count_lines false t'')
        | _ => S (count_lines false t')
        end
      else if is_linebreak ch then S (count_lines false t')
      else count_lines true t'
  end.

Local Open Scope Q_scope.

(* ===================================================================== *)
(** * Theorems *)
(* ===================================================================== *)

(* ===================================================================== *)
(** ** Strings and the sanitizer *)
(* ===================================================================== *)

Section SanitizerFacts.


Lemma replace_from_char old new t :
  replace_from [old] new 0 t = flat_map (replace_char old new) t.
Proof.
  induction t as [|ch t IH]; [reflexivity|].
  cbn [replace_from flat_map startswith length Nat.sub].
  unfold replace_char at 1.
  destruct (ch =? old)%N; cbn [andb]; rewrite IH.
  - destruct t; reflexivity.
  - destruct t; reflexivity.
Qed.

Lemma str_replace_char t old new :
  str_replace t [old] new = flat_map (replace_char old new) t.
Proof. apply replace_from_char. Qed.

Lemma flat_map_flat_map {A B C} (f : A -> list B) (g : B -> list C) l :
  flat_map g (flat_map f l) = flat_map (fun a => flat_map g (f a)) l.
Proof.
  induction l as [|a l IH]; [reflexivity|].
  cbn [flat_map]. rewrite flat_map_app. now rewrite IH.
Qed.

(** The eight replacements in a row act on each character as the table
    of ASCII equivalents does. *)
Lemma replacements_char ch :
  flat_map (replace_char 160 [32%N])
   (flat_map (replace_char 8230 [46%N; 46%N; 46%N])
    (flat_map (replace_char 8211 [45%N])
     (flat_map (replace_char 8212 [45%N; 45%N])
      (flat_map (replace_char 8217 [39%N])
       (flat_map (replace_char 8216 [39%N])
        (flat_map (replace_char 8221 [34%N])
         (replace_char 8220 [34%N] ch)))))))
  = ascii_equivalent ch.
Proof.
  unfold replace_char at 8.
  destruct (N.eqb_spec ch 8220) as [->|H1]; [reflexivity|].
  cbn [flat_map]. rewrite app_nil_r. unfold replace_char at 7.
  destruct (N.eqb_spec ch 8221) as [->|H2]; [reflexivity|].
  cbn [flat_map]. rewrite app_nil_r. unfold replace_char at 6.
  destruct (N.eqb_spec ch 8216) as [->|H3]; [reflexivity|].
  cbn [flat_map]. rewrite app_nil_r. unfold replace_char at 5.
  destruct (N.eqb_spec ch 8217) as [->|H4]; [reflexivity|].
  cbn [flat_map]. rewrite app_nil_r. unfold replace_char at 4.
  destruct (N.eqb_spec ch 8212) as [->|H5]; [reflexivity|].
  cbn [flat_map]. rewrite app_nil_r. unfold replace_char at 3.
  destruct (N.eqb_spec ch 8211) as [->|H6]; [reflexivity|].
  cbn [flat_map]. rewrite app_nil_r. unfold replace_char at 2.
  destruct (N.eqb_spec ch 8230) as [->|H7]; [reflexivity|].
  cbn [flat_map]. rewrite app_nil_r. unfold replace_char.
  destruct (N.eqb_spec ch 160) as [->|H8]; [reflexivity|].
  unfold ascii_equivalent.
  repeat match goal with
  | |- context [match ?c with _ => _ end] => destruct c; try reflexivity; try lia
  end.
Qed.

Lemma sanitize_flat_map text :
  sanitize_unicode_for_pdf text = flat_map ascii_equivalent text.
Proof.
  unfold sanitize_unicode_for_pdf.
  destruct text as [|ch text]; [reflexivity|].
  cbn [falsy]. unfold unicode_replacements. cbn [fold_left].
  rewrite !str_replace_char.
  generalize (ch :: text). intros t.
  induction t as [|c t IH]; [reflexivity|].
  cbn [flat_map]. rewrite !flat_map_app, IH.
  f_equal. apply replacements_char.
Qed.

End SanitizerFacts.

Lemma ascii_equivalent_unmapped ch :
  ~ In ch mapped_code_points -> ascii_equivalent ch = [ch].
Proof.
  intros Hn. unfold mapped_code_points in Hn. cbn [In] in Hn.
  assert (ch <> 8220 /\ ch <> 8221 /\ ch <> 8216 /\ ch <> 8217 /\
          ch <> 8212 /\ ch <> 8211 /\ ch <> 8230 /\ ch <> 160)%N
    as (H1 & H2 & H3 & H4 & H5 & H6 & H7 & H8)
    by (repeat split; intros ->; apply Hn; tauto).
  unfold ascii_equivalent.
  repeat match goal with
  | |- context [match ?c with _ => _ end] => destruct c; try reflexivity; try lia
  end.
Qed.


Lemma ascii_unmapped ch : ascii_only ch -> ~ In ch mapped_code_points.
Proof.
  unfold ascii_only, mapped_code_points. cbn [In]. lia.
Qed.

Lemma ascii_equivalent_mapped ch :
  In ch mapped_code_points -> Forall ascii_only (ascii_equivalent ch).
Proof.
  unfold mapped_code_points. cbn [In].
  intros H; repeat (destruct H as [<-|H]; [cbn; repeat constructor|]);
    [destruct H].
Qed.

Lemma ascii_equivalent_clean ch :
  Forall (fun d => ~ In d mapped_code_points) (ascii_equivalent ch).
Proof.
  destruct (in_dec N.eq_dec ch mapped_code_points) as [Hin|Hn].
  - eapply Forall_impl; [apply ascii_equivalent_mapped, Hin|].
    intros d. apply ascii_unmapped.
  - rewrite ascii_equivalent_unmapped by assumption.
    constructor; [assumption|constructor].
Qed.

Lemma flat_map_ascii_equivalent_clean t :
  Forall (fun d => ~ In d mapped_code_points) t ->
  flat_map ascii_equivalent t = t.
Proof.
  induction 1 as [|d t Hd _ IH]; [reflexivity|].
  cbn [flat_map]. rewrite IH, ascii_equivalent_unmapped by assumption.
  reflexivity.
Qed.

Lemma sanitize_clean text :
  Forall (fun d => ~ In d mapped_code_points) (sanitize_unicode_for_pdf text).
Proof.
  rewrite sanitize_flat_map.
  induction text as [|ch text IH]; [constructor|].
  cbn [flat_map]. apply Forall_app. split; [apply ascii_equivalent_clean|exact IH].
Qed.

(** C10. [sanitize_unicode_for_pdf] is idempotent: sanitizing a sanitized
    string changes nothing; and a string that holds none of the eight
    mapped code points is returned as it is. *)
Theorem sanitize_unicode_for_pdf_idempotent (t : pystr) :
  sanitize_unicode_for_pdf (sanitize_unicode_for_pdf t) = sanitize_unicode_for_pdf t
  /\ (Forall (fun ch => ~ In ch mapped_code_points) t ->
      sanitize_unicode_for_pdf t = t).
Proof.
  split.
  - rewrite (sanitize_flat_map (sanitize_unicode_for_pdf t)).
    apply flat_map_ascii_equivalent_clean, sanitize_clean.
  - intros Hclean. rewrite sanitize_flat_map.
    now apply flat_map_ascii_equivalent_clean.
Qed.

Lemma sanitize_unicode_for_pdf_idempotent_witness :
  Forall (fun ch => ~ In ch mapped_code_points) (py "O'Neil -- ok") /\
  sanitize_unicode_for_pdf (py "O'Neil -- ok") = py "O'Neil -- ok".
Proof.
  assert (Hclean : Forall (fun ch => ~ In ch mapped_code_points)
                     (py "O'Neil -- ok")).
  { repeat constructor; apply ascii_unmapped; unfold ascii_only; cbn; lia. }
  split; [exact Hclean|].
  exact (proj2 (sanitize_unicode_for_pdf_idempotent (py "O'Neil -- ok")) Hclean).
Defined.

(* ===================================================================== *)
(** ** Coordinates *)
(* ===================================================================== *)

Lemma Qgtb_lt a b : Qgtb a b = true <-> b < a.
Proof.
  unfold Qgtb. rewrite negb_true_iff, <- not_true_iff_false, Qle_bool_iff.
  split; [apply Qnot_le_lt | apply Qlt_not_le].
Qed.


Lemma rect_is_empty_false r :
  rect_is_empty r = false <-> x0 r < x1 r /\ y0 r < y1 r.
Proof.
  unfold rect_is_empty, Qleb. rewrite orb_false_iff.
  rewrite <- !not_true_iff_false, !Qle_bool_iff.
  split; intros [Hx Hy]; split;
    first [now apply Qnot_le_lt | now apply Qlt_not_le].
Qed.

Lemma rect_is_infinite_y1 r :
  rect_is_infinite r = true -> y1 r == FZ_MAX_INF_RECT.
Proof.
  unfold rect_is_infinite. rewrite !andb_true_iff.
  intros (_ & _ & Hy). now apply Qeq_bool_iff.
Qed.


(** The union with a rectangle that is not infinite keeps a non-empty
    rectangle non-empty and does not raise its lower edge. *)
Lemma rect_union_y1 a b :
  rect_is_empty a = false -> rect_is_infinite b = false ->
  rect_is_empty (rect_union a b) = false /\ y1 a <= y1 (rect_union a b).
Proof.
  intros Ha Hb. unfold rect_union. rewrite Hb, Ha. cbn [orb].
  destruct (rect_is_infinite a) eqn:Hia.
  - split; [reflexivity|].
    apply rect_is_infinite_y1 in Hia. rewrite Hia. apply Qle_refl.
  - destruct (rect_is_empty b) eqn:Heb; [split; [exact Ha|apply Qle_refl]|].
    split; [|cbn [y1]; apply Q.le_max_l].
    apply rect_is_empty_false in Ha as [Hx Hy].
    apply rect_is_empty_false. cbn [x0 y0 x1 y1]. split.
    + eapply Qle_lt_trans; [apply Q.le_min_l|].
      eapply Qlt_le_trans; [exact Hx|apply Q.le_max_l].
    + eapply Qle_lt_trans; [apply Q.le_min_l|].
      eapply Qlt_le_trans; [exact Hy|apply Q.le_max_l].
Qed.

Lemma y1_fold_union (l : list Rect) (a : Rect) :
  rect_is_empty a = false ->
  Forall (fun r => rect_is_infinite r = false) l ->
  y1 a <= y1 (fold_left rect_union l a).
Proof.
  intros Ha Hl. revert a Ha.
  induction Hl as [|b l Hb _ IH]; intros a Ha; cbn [fold_left].
  - apply Qle_refl.
  - destruct (rect_union_y1 a b Ha Hb) as [He Hy].
    eapply Qle_trans; [exact Hy|now apply IH].
Qed.

Lemma same_hit_followers_Forall (P : Rect -> Prop) base_y0 base_y1 followers :
  Forall P followers -> Forall P (same_hit_followers base_y0 base_y1 followers).
Proof.
  induction 1 as [|f followers Hf _ IH]; cbn [same_hit_followers];
    [constructor|].
  destruct (_ && _); now constructor.
Qed.

(* ===================================================================== *)
(** ** The locator *)
(* ===================================================================== *)

Section LocatorFacts.
Context `{env : PdfEnv}.

Lemma below_Some p y : below (Some p) y = true <-> p < y.
Proof. apply Qgtb_lt. Qed.

Lemma not_below_negb last_pos y : not_below last_pos y = negb (below last_pos y).
Proof.
  destruct last_pos as [p|]; [|reflexivity].
  cbn [not_below below]. unfold Qgtb, Qleb. now rewrite negb_involutive.
Qed.


Lemma position_in_pages_no_hits k pages s position :
  Forall (fun pg => search_for pg s = []) pages ->
  position_in_pages k pages s position = None.
Proof.
  intros Hall. revert k. induction Hall as [|pg pages Hpg _ IH]; intros k;
    [reflexivity|].
  cbn [position_in_pages]. now rewrite Hpg.
Qed.

(** The rectangle of a line ends where the line ends, and the line lies
    below the cursor. *)
Lemma line_selection_Some page_offset search last_pos line rect :
  line_selection page_offset search last_pos line = Some rect ->
  y1 rect = y1 (line_bbox line) /\
  below last_pos (page_offset + y1 rect) = true.
Proof.
  unfold line_selection.
  destruct (contains _ search); [|discriminate].
  destruct (below last_pos _) eqn:Hb; [|discriminate].
  destruct (span_bounds _ _ _ _ _) as [[sx|] [ex|]]; try discriminate.
  intros [= <-]. cbn [y1]. split; [reflexivity|exact Hb].
Qed.

Lemma lines_selection_Some page_offset search last_pos lines rect :
  lines_selection page_offset search last_pos lines = Some rect ->
  below last_pos (page_offset + y1 rect) = true.
Proof.
  induction lines as [|line lines IH]; cbn [lines_selection]; [discriminate|].
  destruct (line_selection _ _ _ line) as [r|] eqn:Hl; [|exact IH].
  intros [= <-]. now apply line_selection_Some in Hl.
Qed.

Lemma blocks_selection_Some page_offset search last_pos blocks rect :
  blocks_selection page_offset search last_pos blocks = Some rect ->
  below last_pos (page_offset + y1 rect) = true.
Proof.
  induction blocks as [|block blocks IH]; cbn [blocks_selection]; [discriminate|].
  destruct (negb _); [exact IH|].
  destruct (lines_selection _ _ _ _) as [r|] eqn:Hl; [|exact IH].
  intros [= <-]. now apply lines_selection_Some in Hl.
Qed.

Lemma fallback_selection_Some page_offset p rects rect :
  Forall ordinary_rect rects ->
  fallback_selection page_offset (Some p) rects = Some rect ->
  p < page_offset + y1 rect.
Proof.
  induction 1 as [|r followers [Hr _] Hfollowers IH];
    cbn [fallback_selection]; [discriminate|].
  rewrite not_below_negb.
  destruct (below (Some p) (page_offset + y1 r)) eqn:Hb; cbn [negb]; [|exact IH].
  intros [= <-]. apply below_Some in Hb.
  eapply Qlt_le_trans; [exact Hb|].
  apply Qplus_le_r, y1_fold_union; [exact Hr|].
  apply same_hit_followers_Forall.
  eapply List.Forall_impl; [|exact Hfollowers]. now intros f [_ Hf].
Qed.

Lemma page_selection_Some page_index page search p rect :
  Forall ordinary_rect (search_for page search) ->
  page_selection page_index page search (Some p) = Some rect ->
  p < page_offset_of page_index page + y1 rect.
Proof.
  unfold page_selection. intros Hrects.
  destruct (search_for page search) as [|r rs]; [discriminate|].
  destruct (1 <? _)%nat.
  - destruct (blocks_selection _ _ _ _) as [sel|] eqn:Hsel.
    + intros [= <-]. apply blocks_selection_Some in Hsel. now apply below_Some.
    + now apply fallback_selection_Some.
  - now apply fallback_selection_Some.
Qed.

Lemma page_selection_no_hits page_index page search last_pos :
  search_for page search = [] ->
  page_selection page_index page search last_pos = None.
Proof. unfold page_selection. now intros ->. Qed.


Lemma locate_from_Some k pages search last_pos i page rect :
  locate_from k pages search last_pos = Some (i, page, rect) ->
  exists j, i = (k + j)%nat /\ pages !! j = Some page /\
            page_selection i page search last_pos = Some rect.
Proof.
  revert k. induction pages as [|pg pages IH]; intros k;
    cbn [locate_from]; [discriminate|].
  destruct (page_selection k pg search last_pos) as [sel|] eqn:Hsel.
  - intros [= <- <- <-]. exists 0%nat. rewrite Nat.add_0_r. now repeat split.
  - intros Hloc. destruct (IH _ Hloc) as (j & -> & Hj & Hp).
    exists (S j). replace (k + S j)%nat with (S k + j)%nat by lia.
    now repeat split.
Qed.

Lemma locate_lookup doc search last_pos i page rect :
  locate doc search last_pos = Some (i, page, rect) ->
  doc !! i = Some page /\ page_selection i page search last_pos = Some rect.
Proof.
  intros Hloc. apply locate_from_Some in Hloc as (j & -> & Hj & Hp).
  now split.
Qed.


Lemma locate_from_no_hits k pages search last_pos :
  Forall (fun pg => search_for pg search = []) pages ->
  locate_from k pages search last_pos = None.
Proof.
  intros Hall. revert k. induction Hall as [|pg pages Hpg _ IH]; intros k;
    [reflexivity|].
  cbn [locate_from]. now rewrite (page_selection_no_hits _ _ _ _ Hpg).
Qed.

End LocatorFacts.

Section ReplaceFacts.
Context `{env : PdfEnv}.

Lemma append_text_chars font_obj fontsize baseline_y cursor_x text :
  List.map ti_ch (append_text font_obj fontsize baseline_y cursor_x text) = text.
Proof.
  revert cursor_x. induction text as [|ch text IH]; intros cursor_x;
    [reflexivity|].
  cbn [append_text List.map ti_ch]. now rewrite IH.
Qed.

Lemma target_glyphs_none rect glyphs :
  Forall (fun g => intersects rect (g_bbox g) = false) glyphs ->
  target_glyphs_of rect glyphs = [].
Proof.
  unfold target_glyphs_of. induction 1 as [|g glyphs Hg _ IH]; [reflexivity|].
  cbn [List.filter]. now rewrite Hg.
Qed.

Lemma _replace_once_not_found doc font_cache search repl last_pos :
  locate doc search last_pos = None ->
  _replace_once doc font_cache search repl last_pos
  = Ok (doc, font_cache, last_pos, [mkLog DEBUG (NoMatchingOccurrences search)]).
Proof. unfold _replace_once. now intros ->. Qed.

Lemma replace_on_page_no_glyphs page rect repl font_cache glyphs :
  page_glyphs page = Ok glyphs ->
  target_glyphs_of rect glyphs = [] ->
  replace_on_page page rect repl font_cache = Ok (page, font_cache, []).
Proof.
  unfold replace_on_page. intros -> Ht. cbn. now rewrite Ht.
Qed.

(** When [replace_on_page] returns, the page is untouched or it was
    redacted at [rect] and then written with the characters of the
    sanitized replacement. *)
Lemma replace_on_page_written page rect repl font_cache page' font_cache' log :
  replace_on_page page rect repl font_cache = Ok (page', font_cache', log) ->
  (page' = page /\ font_cache' = font_cache /\ log = [] /\
   exists glyphs, page_glyphs page = Ok glyphs /\ target_glyphs_of rect glyphs = [])
  \/
  exists writer,
    page' = write_text (apply_redaction page rect) writer /\
    List.map ti_ch (tw_items writer) = sanitize_unicode_for_pdf repl.
Proof.
  unfold replace_on_page.
  destruct (page_glyphs page) as [glyphs|e]; cbn; [|discriminate].
  destruct (target_glyphs_of rect glyphs) as [|first rest] eqn:Ht.
  - intros [= <- <- <-]. left. repeat split. now exists glyphs.
  - destruct (_get_font _ font_cache) as [[[font_obj fc] lf]|e]; cbn; [|discriminate].
    intros [= <- <- <-]. right. eexists. split; [reflexivity|].
    cbn [tw_items]. apply append_text_chars.
Qed.

End ReplaceFacts.

(** C2 at the failing input. With no cursor, the search reports the run
    of underscores that ends the upper line first, and
    [get_string_last_char_position_pdf] answers its position. The scan
    of the text lines in [_replace_once] gets no rectangle from the upper
    line, whose one span does not start with the search string, and
    selects the run of the lower line, wholly below the first
    occurrence. The replacement is written there and the cursor moves
    past the first occurrence, which stays on the page: the next
    replacement of the same string finds nothing. *)
Lemma replace_once_passes_over_first_occurrence :
  let s := py "____" in
  let doc := [Sample.two_lines_page] in
  let first := mkRect 86 100 110 112 in
  let second := mkRect 50 200 74 212 in
  search_for Sample.two_lines_page s = [first; second] /\
  y1 first < y0 second /\
  get_string_last_char_position_pdf doc s None
  = Ok (Some (page_offset_of 0 Sample.two_lines_page + y1 first)) /\
  locate doc s None = Some (0%nat, Sample.two_lines_page, second) /\
  exists page' font_cache' log,
    let pos := Some (page_offset_of 0 Sample.two_lines_page + y1 second) in
    _replace_once doc ∅ s (py "Alice") None
    = Ok ([page'], font_cache', pos, log) /\
    search_for page' s = [first] /\
    _replace_once [page'] font_cache' s (py "2024") pos
    = Ok ([page'], font_cache', pos, [mkLog DEBUG (NoMatchingOccurrences s)]).
Proof.
  intros s doc first second.
  split; [reflexivity|]. split; [reflexivity|].
  split; [vm_compute; reflexivity|]. split; [vm_compute; reflexivity|].
  set (pos := Some (page_offset_of (env := Sample.env) 0 Sample.two_lines_page
                    + y1 second)).
  assert (Hrun :
    match _replace_once (env := Sample.env) doc ∅ s (py "Alice") None with
    | Ok ([page'], font_cache', pos', _) =>
        pos' = pos /\
        search_for page' s = [first] /\
        _replace_once [page'] font_cache' s (py "2024") pos
        = Ok ([page'], font_cache', pos,
              [mkLog DEBUG (NoMatchingOccurrences s)])
    | _ => False
    end) by (vm_compute; repeat split; reflexivity).
  destruct (_replace_once (env := Sample.env) doc ∅ s (py "Alice") None)
    as [[[[doc' fc] pos'] log]|e]; [|contradiction].
  destruct doc' as [|page' [|]]; try contradiction.
  destruct Hrun as (-> & Hleft & Hnext).
  now exists page', fc, log.
Qed.

(** C4, as the code has it. When no extracted glyph meets the located
    rectangle, [_replace_once] leaves the document and the font cache as
    they are and logs nothing, and the cursor it returns is the position
    [page_offset + y1] of the located rectangle. *)
Theorem replace_once_without_target_glyphs `{env : PdfEnv} (doc : Doc)
  (font_cache : gmap pystr Font) (search repl : pystr) (last_pos : option Q)
  (i : nat) (page : Page) (rect : Rect) (glyphs : list Glyph) :
  locate doc search last_pos = Some (i, page, rect) ->
  page_glyphs page = Ok glyphs ->
  Forall (fun g => intersects rect (g_bbox g) = false) glyphs ->
  _replace_once doc font_cache search repl last_pos
  = Ok (doc, font_cache, Some (page_offset_of i page + y1 rect), []).
Proof.
  intros Hloc Hg Hnone. unfold _replace_once. rewrite Hloc.
  rewrite (replace_on_page_no_glyphs _ _ _ _ _ Hg (target_glyphs_none _ _ Hnone)).
  cbn [mbind result_bind]. apply locate_lookup in Hloc as [Hl _].
  now rewrite (list_insert_id _ _ _ Hl).
Qed.

Lemma replace_once_without_target_glyphs_witness :
  let doc := [Sample.stray_hit_page] in
  let s := py "____" in
  let rect := mkRect 50 100 74 112 in
  exists glyphs,
    locate doc s None = Some (0%nat, Sample.stray_hit_page, rect) /\
    page_glyphs Sample.stray_hit_page = Ok glyphs /\
    Forall (fun g => intersects rect (g_bbox g) = false) glyphs /\
    _replace_once doc ∅ s (py "Alice") None
    = Ok (doc, ∅, Some (page_offset_of 0 Sample.stray_hit_page + y1 rect), []).
Proof.
  intros doc s rect. eexists.
  split; [reflexivity|]. split; [vm_compute; reflexivity|].
  assert (Hn : forall l, l = List.map (fun ch => mkGlyph (rc_c ch) (rc_bbox ch)
                                   (py "Helvetica") 12 (ColorInt 0) 0%Z)
                         (Sample.chars_at 50 20 32 (py "Form A")) ->
               Forall (fun g => intersects rect (g_bbox g) = false) l)
    by (intros l ->; repeat constructor).
  split; [apply Hn; vm_compute; reflexivity|].
  eapply (replace_once_without_target_glyphs (env := Sample.env) doc ∅ s
            (py "Alice") None 0 Sample.stray_hit_page rect);
    [reflexivity|vm_compute; reflexivity|apply Hn; vm_compute; reflexivity].
Defined.

(** C4 fails on a page whose search reports a rectangle that no glyph
    meets: the document is unchanged, but nothing is logged and the cursor
    returned is 112, where the call was given none. *)
Lemma stray_hit_moves_cursor :
  let doc := [Sample.stray_hit_page] in
  let s := py "____" in
  let rect := mkRect 50 100 74 112 in
  locate doc s None = Some (0%nat, Sample.stray_hit_page, rect) /\
  (exists glyphs,
      page_glyphs Sample.stray_hit_page = Ok glyphs /\
      target_glyphs_of rect glyphs = []) /\
  exists pos,
    _replace_once doc ∅ s (py "Alice") None = Ok (doc, ∅, Some pos, []) /\
    pos == 112.
Proof.
  intros doc s rect. split; [reflexivity|].
  split; [eexists; split; reflexivity|].
  eexists. split; [reflexivity|]. vm_compute. reflexivity.
Qed.







(* ===================================================================== *)
(** ** The filter of the driver *)
(* ===================================================================== *)

Section FilterFacts.
Context `{env : PdfEnv}.

Lemma List_filter_stdpp {A} (f : A -> bool) (P : A -> Prop)
  `{forall x, Decision (P x)} (l : list A) :
  (forall x, f x = true <-> P x) -> List.filter f l = filter P l.
Proof.
  intros Hf. induction l as [|x l IH]; [reflexivity|].
  cbn [List.filter]. rewrite filter_cons, IH.
  destruct (decide (P x)) as [Hp|Hp].
  - apply Hf in Hp. now rewrite Hp.
  - destruct (f x) eqn:Hfx; [|reflexivity]. apply Hf in Hfx. contradiction.
Qed.

Lemma str_eqb_eq a b : str_eqb a b = true <-> a = b.
Proof. unfold str_eqb. apply bool_decide_eq_true. Qed.

Lemma falsy_nil s : falsy s = true <-> s = [].
Proof. destruct s; cbn; split; congruence. Qed.

Lemma related_lines_spec s1_lines s2_lines a :
  a ∈ related_lines s1_lines s2_lines <->
  Exists (fun q => q.1 = a /\ q.1 <> q.2) (zip s1_lines s2_lines).
Proof.
  unfold related_lines. rewrite elem_of_list_to_set, Exists_exists.
  rewrite list_elem_of_In, in_map_iff. split.
  - intros ([x y] & <- & Hin). apply filter_In in Hin as [Hin Hne].
    exists (x, y). rewrite list_elem_of_In. split; [exact Hin|].
    split; [reflexivity|]. cbn. intros ->.
    apply negb_true_iff in Hne. rewrite <- not_true_iff_false in Hne.
    apply Hne. now apply str_eqb_eq.
  - intros ([x y] & Hin & <- & Hne). exists (x, y). split; [reflexivity|].
    apply filter_In. split; [now apply list_elem_of_In|].
    apply negb_true_iff, not_true_iff_false. intros He.
    apply str_eqb_eq in He. now apply Hne.
Qed.

(** Pairs whose search string is empty are passed over by the loop. *)
Lemma process_pairs_skip_empty pdf st pairs :
  process_pairs pdf st pairs
  = process_pairs pdf st (List.filter (fun p => negb (falsy p.1)) pairs).
Proof.
  revert st. induction pairs as [|[a b] pairs IH]; intros st; [reflexivity|].
  cbn [List.filter fst]. destruct (falsy a) eqn:Ha; cbn [negb].
  - cbn [process_pairs process_pair]. rewrite Ha. cbn [mbind result_bind].
    apply IH.
  - cbn [process_pairs]. destruct (process_pair pdf st (a, b));
      cbn [mbind result_bind]; [apply IH|reflexivity].
Qed.

Lemma replace_lines_filter pdf s1_lines s2_lines position :
  replace_lines pdf s1_lines s2_lines position
  = process_pairs pdf (mkState pdf ∅ position [])
      (filter (survives (zip s1_lines s2_lines)) (zip s1_lines s2_lines)).
Proof.
  unfold replace_lines, cleaned_lines.
  change (zip (List.map fst ?l) (List.map snd ?l)) with (zip (l.*1) (l.*2)).
  rewrite zip_fst_snd, process_pairs_skip_empty.
  f_equal. set (pairs := zip s1_lines s2_lines).
  rewrite <- (List_filter_stdpp
                (fun p => bool_decide (p.1 ∈ related_lines s1_lines s2_lines)
                          && negb (falsy p.1)) (survives pairs)).
  - induction pairs as [|[a b] l IH]; [reflexivity|].
    cbn [List.filter fst]. destruct (bool_decide _); cbn [andb List.filter fst].
    + destruct (negb (falsy a)); now rewrite IH.
    + exact IH.
  - intros [a b]. cbn [fst]. unfold survives. cbn [fst].
    rewrite andb_true_iff, bool_decide_eq_true, negb_true_iff,
      <- not_true_iff_false, falsy_nil, related_lines_spec.
    tauto.
Qed.

Lemma filter_fst_fmap {A B} (P : A -> Prop) `{forall a, Decision (P a)}
  (l : list (A * B)) :
  (filter (fun p => P p.1) l).*1 = filter P (l.*1).
Proof.
  induction l as [|[a b] l IH]; [reflexivity|].
  cbn [fmap list_fmap fst]. rewrite !filter_cons. cbn [fst].
  destruct (decide (P a)); cbn [fmap list_fmap fst]; now rewrite IH.
Qed.

End FilterFacts.

(** C7. On lists of lines, [replace_text_preserve_layout_pdf] runs the
    loop body on exactly the pairs that survive the filter, in their
    order in the input: those whose search string is not empty and is the
    search string of some pair of the list with a different replacement. *)
Theorem driver_processes_surviving_pairs `{env : PdfEnv} (pdf : Doc)
  (s1_lines s2_lines : list pystr) (position : option Q) :
  s1_lines <> [] ->
  length s1_lines = length s2_lines ->
  let pairs := zip s1_lines s2_lines in
  let kept := filter (survives pairs) pairs in
  replace_text_preserve_layout_pdf pdf (Lines s1_lines) (Lines s2_lines) position
  = process_pairs pdf (mkState pdf ∅ position []) kept /\
  kept.*1 = filter (fun a => a <> [] /\
                             Exists (fun q => q.1 = a /\ q.1 <> q.2) pairs)
                   s1_lines.
Proof.
  intros Hne Hlen pairs kept. split.
  - unfold replace_text_preserve_layout_pdf.
    destruct s1_lines; [contradiction|]. cbn [arg_falsy nonempty negb lines_of_args].
    rewrite Hlen, Nat.eqb_refl. cbn [negb]. apply replace_lines_filter.
  - subst kept. rewrite <- (fst_zip s1_lines s2_lines) by lia.
    exact (filter_fst_fmap
             (fun a => a <> [] /\ Exists (fun q => q.1 = a /\ q.1 <> q.2) pairs)
             pairs).
Qed.

Lemma driver_processes_surviving_pairs_witness :
  let s1 := [py "Title"; py "Name: ____"; []; py "City: ____"; py "City: ____"] in
  let s2 := [py "Title"; py "Name: Alice"; py "x"; py "City: ____"; py "City: Paris"] in
  s1 <> [] /\ length s1 = length s2 /\
  replace_text_preserve_layout_pdf Sample.form_pdf (Lines s1) (Lines s2) None
  = process_pairs Sample.form_pdf (mkState Sample.form_pdf ∅ None [])
      Sample.form_pairs.
Proof.
  intros s1 s2. split; [discriminate|]. split; [reflexivity|].
  destruct (driver_processes_surviving_pairs (env := Sample.env) Sample.form_pdf
              s1 s2 None ltac:(discriminate) eq_refl) as [Hrun _].
  rewrite Hrun. f_equal.
Defined.

(* ===================================================================== *)
(** ** The baseline *)
(* ===================================================================== *)


Lemma py_max_spec x l : is_max (py_max x l) (x :: l).
Proof.
  unfold py_max. revert x. induction l as [|y l IH]; intros x; cbn [fold_left].
  - split; [now left|]. constructor; [apply Qle_refl|constructor].
  - destruct (IH (Qmax x y)) as [Hin Hall]. split.
    + destruct Hin as [Hin|Hin]; [|now right; right].
      rewrite <- Hin. unfold Qmax, GenericMinMax.gmax.
      destruct (x ?= y); [now left|now right; left|now left].
    + apply Forall_cons in Hall as [Hm Hall].
      constructor; [|constructor; [|exact Hall]].
      * eapply Qle_trans; [apply Q.le_max_l|exact Hm].
      * eapply Qle_trans; [apply Q.le_max_r|exact Hm].
Qed.

Lemma py_min_spec x l : is_min (py_min x l) (x :: l).
Proof.
  unfold py_min. revert x. induction l as [|y l IH]; intros x; cbn [fold_left].
  - split; [now left|]. constructor; [apply Qle_refl|constructor].
  - destruct (IH (Qmin x y)) as [Hin Hall]. split.
    + destruct Hin as [Hin|Hin]; [|now right; right].
      rewrite <- Hin. unfold Qmin, GenericMinMax.gmin.
      destruct (x ?= y); [now left|now left|now right; left].
    + apply Forall_cons in Hall as [Hm Hall].
      constructor; [|constructor; [|exact Hall]].
      * eapply Qle_trans; [exact Hm|apply Q.le_min_l].
      * eapply Qle_trans; [exact Hm|apply Q.le_min_r].
Qed.

Lemma split_glyphs_from text_glyphs checkbox_glyphs target_glyphs :
  fold_left (fun '(text_glyphs, checkbox_glyphs) g =>
               if is_checkbox g
               then (text_glyphs, checkbox_glyphs ++ [g])
               else (text_glyphs ++ [g], checkbox_glyphs))
            target_glyphs (text_glyphs, checkbox_glyphs)
  = (text_glyphs ++ List.filter (fun g => negb (is_checkbox g)) target_glyphs,
     checkbox_glyphs ++ List.filter is_checkbox target_glyphs).
Proof.
  revert text_glyphs checkbox_glyphs.
  induction target_glyphs as [|g l IH]; intros tg cg; cbn [fold_left List.filter].
  - now rewrite !app_nil_r.
  - destruct (is_checkbox g); cbn [negb]; rewrite IH, <- app_assoc; reflexivity.
Qed.

Lemma split_glyphs_filter target_glyphs :
  split_glyphs target_glyphs
  = (List.filter (fun g => negb (is_checkbox g)) target_glyphs,
     List.filter is_checkbox target_glyphs).
Proof. apply split_glyphs_from. Qed.

(** C8. For a non-empty list of target glyphs, the baseline is computed
    from the text glyphs if there are any and from all target glyphs
    otherwise: with [max_bottom] and [min_top] the extreme coordinates of
    the selected glyphs, [font_size] the size of the first of them and
    [excess = max(0, max_bottom - min_top - font_size)], the baseline is
    [max_bottom - min(excess * K, font_size * cap)], where [(K, cap)] is
    [(0.5, 0.1)] when checkbox glyphs are mixed with text glyphs and
    [(1.8, 0.2)] otherwise, the former smaller in both components. *)
Theorem baseline_shift_spec (target_glyphs : list Glyph) :
  target_glyphs <> [] ->
  let text_glyphs := List.filter (fun g => negb (is_checkbox g)) target_glyphs in
  let checkbox_glyphs := List.filter is_checkbox target_glyphs in
  let selected := if nonempty text_glyphs then text_glyphs else target_glyphs in
  let mixed := nonempty checkbox_glyphs && nonempty text_glyphs in
  exists base others max_bottom min_top,
    selected = base :: others /\
    is_max max_bottom (List.map (fun g => y1 (g_bbox g)) selected) /\
    is_min min_top (List.map (fun g => y0 (g_bbox g)) selected) /\
    let font_size := g_size base in
    let glyph_height := max_bottom - min_top in
    let excess := Qmax 0 (glyph_height - font_size) in
    let K := if mixed then K_mixed else K_plain in
    let cap := if mixed then cap_mixed else cap_plain in
    baseline_y_of target_glyphs
    = Some (max_bottom - Qmin (excess * K) (font_size * cap)) /\
    K_mixed < K_plain /\ cap_mixed < cap_plain.
Proof.
  intros Hne text_glyphs checkbox_glyphs selected mixed.
  assert (Hsel : baseline_glyphs_of target_glyphs = selected).
  { unfold baseline_glyphs_of. now rewrite split_glyphs_filter. }
  assert (Hsome : selected <> []).
  { subst selected. destruct text_glyphs; [exact Hne|discriminate]. }
  destruct selected as [|base others] eqn:Hs; [contradiction|].
  exists base, others,
    (py_max (y1 (g_bbox base)) (List.map (fun g => y1 (g_bbox g)) others)),
    (py_min (y0 (g_bbox base)) (List.map (fun g => y0 (g_bbox g)) others)).
  split; [reflexivity|].
  split; [apply py_max_spec|]. split; [apply py_min_spec|].
  split; [|split; reflexivity].
  unfold baseline_y_of. rewrite split_glyphs_filter, Hsel.
  fold text_glyphs checkbox_glyphs. fold mixed.
  destruct mixed; reflexivity.
Qed.

Lemma baseline_shift_spec_witness :
  let box := mkGlyph 9744%N (mkRect 50 98 62 114) (py "ZapfDingbats") 12 (ColorInt 0) 0%Z in
  let a := mkGlyph 65%N (mkRect 64 100 70 114) (py "Helvetica") 12 (ColorInt 0) 0%Z in
  let b := mkGlyph 66%N (mkRect 70 100 76 115) (py "Helvetica") 12 (ColorInt 0) 0%Z in
  [box; a; b] <> [] /\
  exists baseline_y, baseline_y_of [box; a; b] = Some baseline_y.
Proof.
  intros box a b. split; [discriminate|].
  destruct (baseline_shift_spec [box; a; b] ltac:(discriminate))
    as (base & others & mx & mn & _ & _ & _ & Hy & _).
  eexists. exact Hy.
Defined.

(* ===================================================================== *)
(** ** The font resolver *)
(* ===================================================================== *)


Section FontLadder.
Context `{env : PdfEnv}.


Lemma font_by_prefix_ladder name_lower table rest :
  first_success
    (List.map (fun '(prefix, builtin) =>
                 if startswith name_lower prefix
                 then Font_fontname builtin else None) table ++ rest)
  = match font_by_prefix name_lower table with
    | Some (f, _) => Some f
    | None => first_success rest
    end.
Proof.
  induction table as [|[prefix builtin] table IH]; [reflexivity|].
  cbn [List.map app first_success font_by_prefix].
  destruct (startswith name_lower prefix); [|exact IH].
  destruct (Font_fontname builtin); [reflexivity|exact IH].
Qed.

Lemma times_test l :
  str_eqb l (py "times new roman") || contains l (py "times")
  = contains l (py "times").
Proof.
  destruct (str_eqb l (py "times new roman")) eqn:He; [|reflexivity].
  apply bool_decide_eq_true in He as ->. reflexivity.
Qed.

Lemma arial_test l :
  str_eqb l (py "arial") || contains l (py "arial")
  || str_eqb l (py "helvetica") || contains l (py "helvetica")
  = contains l (py "arial") || contains l (py "helvetica").
Proof.
  destruct (str_eqb l (py "arial")) eqn:Ha.
  { apply bool_decide_eq_true in Ha as ->. reflexivity. }
  destruct (str_eqb l (py "helvetica")) eqn:Hh.
  { apply bool_decide_eq_true in Hh as ->. reflexivity. }
  cbn [orb]. now rewrite orb_false_r.
Qed.

Lemma font_by_resolved_name_ladder resolved_name :
  Font_fontname (py "helv") <> None ->
  exists f,
    font_by_resolved_name resolved_name = Ok f /\
    first_success
      [ if contains (lower resolved_name) (py "times")
        then Font_fontname (py "tiro")
        else if contains (lower resolved_name) (py "arial")
                || contains (lower resolved_name) (py "helvetica")
             then Font_fontname (py "helv")
             else None;
        Font_fontname resolved_name;
        Font_fontname (py "helv") ] = Some f.
Proof.
  intros Hhelv. unfold font_by_resolved_name.
  rewrite times_test, arial_test.
  destruct (Font_fontname (py "helv")) as [helv|] eqn:Hh; [|contradiction].
  destruct (contains (lower resolved_name) (py "times")).
  - cbn [first_success].
    destruct (Font_fontname (py "tiro")) as [tiro|]; [now exists tiro|].
    destruct (Font_fontname resolved_name) as [f|]; [now exists f|now exists helv].
  - destruct (_ || _); cbn [first_success]; [now exists helv|].
    destruct (Font_fontname resolved_name) as [f|]; [now exists f|now exists helv].
Qed.

Lemma _get_font_cached name font_cache f :
  font_cache !! name = Some f ->
  _get_font name font_cache = Ok (f, font_cache, []).
Proof. unfold _get_font. now intros ->. Qed.

End FontLadder.


(** X22. When the built-in font [helv] can be constructed and
    [get_available_font] returns, [_get_font] returns a font for every
    name and never raises; the font is stored in [font_cache] under the
    name, so that a second call returns it from the cache; and on a name
    not yet cached the font is the first success of the ladder: exact
    name, prefix table to the built-in [tiro], [helv] and [cour], the
    font manager's answer, the built-in [helv]. *)
Theorem _get_font_always_returns `{env : PdfEnv} (name : pystr)
  (font_cache : gmap pystr Font) (resolved_name : pystr)
  (font_path : option pystr) :
  Font_fontname (py "helv") <> None ->
  get_available_font name = Some (resolved_name, font_path) ->
  exists font_obj font_cache' log,
    _get_font name font_cache = Ok (font_obj, font_cache', log) /\
    font_cache' !! name = Some font_obj /\
    _get_font name font_cache' = Ok (font_obj, font_cache', []) /\
    match font_cache !! name with
    | Some cached => font_obj = cached /\ font_cache' = font_cache
    | None =>
        font_cache' = <[name := font_obj]> font_cache /\
        first_success (font_ladder name resolved_name font_path) = Some font_obj
    end /\
    Forall (fun entry => In entry.2 [py "tiro"; py "helv"; py "cour"])
           pymupdf_font_map.
Proof.
  intros Hhelv Hhelper.
  cut (exists font_obj font_cache' log,
    _get_font name font_cache = Ok (font_obj, font_cache', log) /\
    font_cache' !! name = Some font_obj /\
    _get_font name font_cache' = Ok (font_obj, font_cache', []) /\
    match font_cache !! name with
    | Some cached => font_obj = cached /\ font_cache' = font_cache
    | None =>
        font_cache' = <[name := font_obj]> font_cache /\
        first_success (font_ladder name resolved_name font_path) = Some font_obj
    end).
  { intros (f & fc & log & H1 & H2 & H3 & H4). exists f, fc, log.
    repeat (split; [assumption|]).
    repeat constructor; cbn; tauto. }
  destruct (font_cache !! name) as [cached|] eqn:Hc.
  { exists cached, font_cache, [].
    rewrite (_get_font_cached _ _ _ Hc). now repeat split. }
  assert (Hdone : forall f log,
    _get_font name font_cache = Ok (f, <[name := f]> font_cache, log) ->
    first_success (font_ladder name resolved_name font_path) = Some f ->
    exists font_obj font_cache' log,
      _get_font name font_cache = Ok (font_obj, font_cache', log) /\
      font_cache' !! name = Some font_obj /\
      _get_font name font_cache' = Ok (font_obj, font_cache', []) /\
      font_cache' = <[name := font_obj]> font_cache /\
      first_success (font_ladder name resolved_name font_path) = Some font_obj).
  { intros f log Hf Hl. exists f, (<[name := f]> font_cache), log.
    split; [exact Hf|]. split; [apply lookup_insert_eq|].
    split; [apply _get_font_cached, lookup_insert_eq|]. now split. }
  unfold _get_font in Hdone |- *. rewrite Hc in Hdone |- *.
  unfold font_ladder in *. cbn [app first_success] in *.
  destruct (Font_fontname name) as [exact|]; [now apply (Hdone exact [])|].
  rewrite font_by_prefix_ladder in *.
  destruct (font_by_prefix (lower name) pymupdf_font_map) as [[f builtin]|];
    [now eapply Hdone|].
  rewrite Hhelper in *.
  destruct (font_by_resolved_name_ladder resolved_name Hhelv) as (f & Hf & Hl).
  cbn [app first_success] in *.
  destruct font_path as [path|].
  - destruct (falsy path).
    + rewrite Hf in *. cbn [mbind result_bind] in *. now eapply Hdone.
    + destruct (Font_fontfile path) as [ff|]; [now eapply Hdone|].
      rewrite Hf in *. cbn [mbind result_bind] in *. now eapply Hdone.
  - rewrite Hf in *. cbn [mbind result_bind] in *. now eapply Hdone.
Qed.

Lemma _get_font_always_returns_witness :
  let name := py "Wingdings-Regular" in
  Font_fontname (py "helv") <> None /\
  get_available_font name = Some (name, None) /\
  exists font_obj font_cache' log,
    _get_font name ∅ = Ok (font_obj, font_cache', log) /\
    font_cache' !! name = Some font_obj /\
    _get_font name font_cache' = Ok (font_obj, font_cache', []).
Proof.
  intros name. split; [discriminate|]. split; [reflexivity|].
  destruct (_get_font_always_returns (env := Sample.env) name ∅ name None
              ltac:(discriminate) eq_refl)
    as (f & fc & log & Hf & Hl & Hagain & _ & _).
  exists f, fc, log. now repeat split.
Defined.

(* ===================================================================== *)
(** ** The cursor of the driver *)
(* ===================================================================== *)

Section CursorFacts.
Context `{env : PdfEnv}.

(** Edits leave the page size as it is. *)
Hypothesis apply_redaction_height :
  forall page rect, page_height (apply_redaction page rect) = page_height page.
Hypothesis write_text_height :
  forall page writer, page_height (write_text page writer) = page_height page.

Lemma cursor_advanced_below last_pos y :
  below last_pos y = true -> cursor_advanced last_pos (Some y).
Proof.
  destruct last_pos as [p|]; intros Hb; right; [|exact I].
  now apply below_Some.
Qed.

(** On pages whose search reports rectangles that are neither empty nor
    infinite, a replacement returns the cursor it was given or one
    further down. *)
Lemma _replace_once_cursor doc font_cache search repl last_pos
  doc' font_cache' pos log :
  Forall (fun page => Forall ordinary_rect (search_for page search)) doc ->
  _replace_once doc font_cache search repl last_pos
  = Ok (doc', font_cache', pos, log) ->
  cursor_advanced last_pos pos.
Proof.
  intros Hrects. unfold _replace_once.
  destruct (locate doc search last_pos) as [[[i page] rect]|] eqn:Hloc.
  - destruct (replace_on_page page rect repl font_cache)
      as [[[page' fc] lg]|e] eqn:Hp; cbn [mbind result_bind]; [|discriminate].
    intros [= <- <- <- <-].
    assert (Hh : page_height page' = page_height page).
    { apply replace_on_page_written in Hp as [(-> & _)|(w & -> & _)];
        [reflexivity|].
      now rewrite write_text_height, apply_redaction_height. }
    apply locate_lookup in Hloc as [Hl Hsel].
    unfold page_offset_of. rewrite Hh.
    destruct last_pos as [p|]; right; [|exact I].
    apply page_selection_Some in Hsel; [exact Hsel|].
    exact (Forall_lookup_1 _ _ _ _ Hrects Hl).
  - intros [= <- <- <- <-]. now left.
Qed.

End CursorFacts.

Section DriverFacts.
Context `{env : PdfEnv}.

(** A replacement pair whose search string is found nowhere below the
    cursor: a debug record, the same cursor, the same document. *)
Lemma process_pair_replacement_not_found pdf st search_line repl_line :
  search_line <> [] ->
  search_line <> repl_line ->
  locate (st_doc st) search_line (last_position st) = None ->
  process_pair pdf st (search_line, repl_line)
  = Ok (mkState (st_doc st) (st_font_cache st) (last_position st)
          (st_log st ++ [mkLog DEBUG (NoMatchingOccurrences search_line)])).
Proof.
  intros Hne Hdiff Hloc. unfold process_pair.
  destruct search_line; [contradiction|]. cbn [falsy].
  unfold str_eqb. rewrite bool_decide_eq_false_2 by exact Hdiff.
  now rewrite (_replace_once_not_found _ _ _ _ _ Hloc).
Qed.

(** A pair with equal strings takes whatever the locator answers as the
    new cursor, its [None] included. *)
Lemma process_pair_locate_only pdf st line :
  line <> [] ->
  process_pair pdf st (line, line)
  = Ok (mkState (st_doc st) (st_font_cache st)
          (position_in_pages 0 pdf line (last_position st)) (st_log st)).
Proof.
  intros Hne. unfold process_pair.
  destruct line; [contradiction|]. cbn [falsy].
  unfold str_eqb. rewrite bool_decide_eq_true_2 by reflexivity.
  reflexivity.
Qed.

End DriverFacts.

(** C3 at the failing input. With the cursor at 212, [City: ____] has no
    occurrence further down. As a pair with equal strings, the driver
    sets the cursor to [None] and logs nothing; as a replacement pair at
    the same state, it keeps the cursor and logs the debug record. *)
Lemma locate_only_miss_unsets_cursor :
  let line := py "City: ____" in
  let st := mkState Sample.form_pdf ∅ (Some 212) [] in
  position_in_pages 0 Sample.form_pdf line (Some 212) = None /\
  locate Sample.form_pdf line (Some 212) = None /\
  process_pair Sample.form_pdf st (line, line)
  = Ok (mkState Sample.form_pdf ∅ None []) /\
  process_pair Sample.form_pdf st (line, py "City: Paris")
  = Ok (mkState Sample.form_pdf ∅ (Some 212)
          [mkLog DEBUG (NoMatchingOccurrences line)]).
Proof.
  intros line st.
  assert (Hpos : position_in_pages (env := Sample.env) 0 Sample.form_pdf line
                   (Some 212) = None)
    by (vm_compute; reflexivity).
  assert (Hloc : locate (env := Sample.env) Sample.form_pdf line (Some 212) = None)
    by (vm_compute; reflexivity).
  split; [exact Hpos|]. split; [exact Hloc|]. split.
  - rewrite (process_pair_locate_only (env := Sample.env)) by discriminate.
    cbn [st last_position st_doc st_font_cache st_log]. now rewrite Hpos.
  - rewrite (process_pair_replacement_not_found (env := Sample.env));
      [reflexivity|discriminate|discriminate|exact Hloc].
Qed.

(** C1 at the failing input. The first pair moves the cursor to 212, the
    second, a pair of equal strings with no occurrence below 212, unsets
    it, and the third then replaces the occurrence that ends at 112,
    above the position reached after the first pair. *)
Lemma cursor_falls_back_after_locate_only_miss :
  let st0 := mkState Sample.form_pdf ∅ None [] in
  exists st1 st2 st3,
    process_pair Sample.form_pdf st0 (py "Name: ____", py "Name: Alice") = Ok st1 /\
    process_pair Sample.form_pdf st1 (py "City: ____", py "City: ____") = Ok st2 /\
    process_pair Sample.form_pdf st2 (py "City: ____", py "City: Paris") = Ok st3 /\
    process_pairs Sample.form_pdf st0 Sample.form_pairs = Ok st3 /\
    last_position st1 = Some 212 /\
    last_position st2 = None /\
    last_position st3 = Some 112 /\
    ~ cursor_advanced (last_position st1) (last_position st2) /\
    ~ cursor_le (last_position st1) (last_position st3).
Proof.
  intros st0.
  destruct (process_pair (env := Sample.env) Sample.form_pdf st0
              (py "Name: ____", py "Name: Alice"))
    as [st1|e] eqn:H1; [|vm_compute in H1; discriminate].
  assert (Hc1 : last_position st1 = Some 212).
  { assert (Hx : match process_pair (env := Sample.env) Sample.form_pdf st0
                         (py "Name: ____", py "Name: Alice") with
                 | Ok s => last_position s = Some 212
                 | Raise _ => False
                 end) by (vm_compute; reflexivity).
    now rewrite H1 in Hx. }
  assert (H2 : process_pair (env := Sample.env) Sample.form_pdf st1 (py "City: ____", py "City: ____")
               = Ok (mkState (st_doc st1) (st_font_cache st1) None (st_log st1))).
  { rewrite (process_pair_locate_only (env := Sample.env)) by discriminate.
    rewrite Hc1. reflexivity. }
  set (st2 := mkState (st_doc st1) (st_font_cache st1) None (st_log st1)) in *.
  destruct (process_pair (env := Sample.env) Sample.form_pdf st2
              (py "City: ____", py "City: Paris"))
    as [st3|e] eqn:H3.
  2: { exfalso.
       assert (Hx : match process_pairs (env := Sample.env) Sample.form_pdf st0
                            Sample.form_pairs with
                    | Ok _ => True | Raise _ => False end) by (vm_compute; exact I).
       unfold Sample.form_pairs in Hx. cbn [process_pairs] in Hx.
       rewrite H1 in Hx. cbn [mbind result_bind] in Hx.
       rewrite H2 in Hx. cbn [mbind result_bind] in Hx.
       now rewrite H3 in Hx. }
  assert (Hrun : process_pairs (env := Sample.env) Sample.form_pdf st0
                   Sample.form_pairs = Ok st3).
  { unfold Sample.form_pairs. cbn [process_pairs].
    rewrite H1. cbn [mbind result_bind]. rewrite H2. cbn [mbind result_bind].
    rewrite H3. reflexivity. }
  assert (Hc3 : last_position st3 = Some 112).
  { assert (Hx : match process_pairs (env := Sample.env) Sample.form_pdf st0
                            Sample.form_pairs with
                 | Ok s => last_position s = Some 112
                 | Raise _ => False
                 end) by (vm_compute; reflexivity).
    now rewrite Hrun in Hx. }
  exists st1, st2, st3.
  repeat (split; [first [assumption|reflexivity]|]).
  rewrite Hc1, Hc3. split.
  - intros [Heq|Hf]; [discriminate Heq|exact Hf].
  - cbn [cursor_le]. apply Qlt_not_le. reflexivity.
Qed.

(* ===================================================================== *)
(** * Further properties *)
(* ===================================================================== *)

(* ===================================================================== *)
(** ** More on the locators *)
(* ===================================================================== *)

Section LocatorCompleteness.
Context `{env : PdfEnv}.

Lemma first_rect_below_None page_offset position rects :
  first_rect_below page_offset position rects = None <->
  Forall (fun rect => below position (page_offset + y1 rect) = false) rects.
Proof.
  induction rects as [|rect rects IH]; cbn [first_rect_below].
  - split; [constructor|reflexivity].
  - destruct (below position (page_offset + y1 rect)) eqn:Hb.
    + split; [discriminate|]. intros Hall. apply Forall_cons in Hall as [Hr _].
      congruence.
    + rewrite IH. split; [now constructor|]. intros Hall.
      now apply Forall_cons in Hall as [_ Hall].
Qed.

Lemma position_in_pages_None k pages s position :
  position_in_pages k pages s position = None <->
  forall j page rect,
    pages !! j = Some page -> In rect (search_for page s) ->
    below position (page_offset_of (k + j) page + y1 rect) = false.
Proof.
  revert k. induction pages as [|page pages IH]; intros k;
    cbn [position_in_pages].
  - split; [intros _ j page rect Hj; discriminate Hj|reflexivity].
  - assert (Hstep :
      (Forall (fun rect => below position (page_offset_of k page + y1 rect) = false)
              (search_for page s) /\
       position_in_pages (S k) pages s position = None) <->
      forall j pg rect,
        (page :: pages) !! j = Some pg -> In rect (search_for pg s) ->
        below position (page_offset_of (k + j) pg + y1 rect) = false).
    { rewrite IH. split.
      - intros [Hhere Hrest] [|j] pg rect Hj Hin.
        + injection Hj as <-. rewrite Nat.add_0_r.
          rewrite List.Forall_forall in Hhere. now apply Hhere.
        + replace (k + S j)%nat with (S k + j)%nat by lia.
          now apply (Hrest j pg rect).
      - intros Hall. split.
        + apply List.Forall_forall. intros rect Hin.
          specialize (Hall 0%nat page rect eq_refl Hin).
          now rewrite Nat.add_0_r in Hall.
        + intros j pg rect Hj Hin.
          replace (S k + j)%nat with (k + S j)%nat by lia.
          now apply (Hall (S j) pg rect). }
    rewrite <- Hstep.
    destruct (search_for page s) as [|r rs] eqn:Hs.
    + split; [intros Hn; split; [constructor|exact Hn]|now intros [_ Hn]].
    + destruct (first_rect_below _ position (r :: rs)) as [y|] eqn:Hf.
      * split; [discriminate|]. intros [Hall _].
        apply first_rect_below_None in Hall. congruence.
      * apply first_rect_below_None in Hf. split; [now intros Hn|now intros [_ Hn]].
Qed.

Lemma fallback_selection_None page_offset last_pos rects :
  fallback_selection page_offset last_pos rects = None ->
  first_rect_below page_offset last_pos rects = None.
Proof.
  induction rects as [|rect rects IH];
    cbn [fallback_selection first_rect_below]; [reflexivity|].
  rewrite not_below_negb.
  destruct (below last_pos (page_offset + y1 rect)); cbn [negb];
    [discriminate|exact IH].
Qed.

Lemma locate_from_None k pages search last_pos :
  locate_from k pages search last_pos = None ->
  position_in_pages k pages search last_pos = None.
Proof.
  revert k. induction pages as [|page pages IH]; intros k;
    cbn [locate_from position_in_pages]; [reflexivity|].
  unfold page_selection.
  destruct (search_for page search) as [|r rs]; [apply IH|].
  destruct (if (1 <? length (r :: rs))%nat then _ else None);
    [discriminate|].
  destruct (fallback_selection _ last_pos (r :: rs)) eqn:Hf; [discriminate|].
  apply fallback_selection_None in Hf. rewrite Hf. apply IH.
Qed.

End LocatorCompleteness.

(** X1. For a non-empty search string,
    [get_string_last_char_position_pdf] answers [None] exactly when no
    rectangle that any page reports for the string lies below the given
    position: an occurrence below the position is never missed. *)
Theorem locator_misses_nothing `{env : PdfEnv} (pdf : Doc) (s : pystr)
  (position : option Q) :
  s <> [] ->
  get_string_last_char_position_pdf pdf s position = Ok None <->
  forall i page rect,
    pdf !! i = Some page -> In rect (search_for page s) ->
    below position (page_offset_of i page + y1 rect) = false.
Proof.
  intros Hs. unfold get_string_last_char_position_pdf.
  destruct s; [contradiction|]. cbn [falsy].
  rewrite <- (position_in_pages_None 0). split; [now intros [= ->]|now intros ->].
Qed.

Lemma locator_misses_nothing_witness :
  py "____" <> [] /\
  (get_string_last_char_position_pdf [Sample.two_lines_page] (py "____") (Some 212)
   = Ok None <->
   forall i page rect,
     [Sample.two_lines_page] !! i = Some page ->
     In rect (search_for page (py "____")) ->
     below (Some 212) (page_offset_of i page + y1 rect) = false).
Proof.
  split; [discriminate|].
  apply (locator_misses_nothing (env := Sample.env)). discriminate.
Defined.

Section LocatorOrder.
Context `{env : PdfEnv}.

Lemma first_rect_below_first page_offset position rects y :
  first_rect_below page_offset position rects = Some y ->
  exists before rect after,
    rects = before ++ rect :: after /\
    Forall (fun r => below position (page_offset + y1 r) = false) before /\
    below position y = true /\
    y = page_offset + y1 rect.
Proof.
  induction rects as [|r rects IH]; cbn [first_rect_below]; [discriminate|].
  destruct (below position (page_offset + y1 r)) eqn:Hb.
  - intros [= <-]. exists [], r, rects. now repeat split.
  - intros Hy. destruct (IH Hy) as (before & rect & after & -> & Hbefore & Hrest).
    exists (r :: before), rect, after.
    split; [reflexivity|]. split; [now constructor|exact Hrest].
Qed.

Lemma position_in_pages_first_below k pages s position y :
  position_in_pages k pages s position = Some y ->
  exists j page before rect after,
    pages !! j = Some page /\
    search_for page s = before ++ rect :: after /\
    y = page_offset_of (k + j) page + y1 rect /\
    below position y = true /\
    Forall (fun r => below position (page_offset_of (k + j) page + y1 r) = false)
           before /\
    forall j' pg r,
      (j' < j)%nat -> pages !! j' = Some pg -> In r (search_for pg s) ->
      below position (page_offset_of (k + j') pg + y1 r) = false.
Proof.
  revert k. induction pages as [|page pages IH]; intros k;
    cbn [position_in_pages]; [discriminate|].
  assert (Hrec :
    Forall (fun r => below position (page_offset_of k page + y1 r) = false)
           (search_for page s) ->
    position_in_pages (S k) pages s position = Some y ->
    exists j pg before rect after,
      (page :: pages) !! j = Some pg /\
      search_for pg s = before ++ rect :: after /\
      y = page_offset_of (k + j) pg + y1 rect /\
      below position y = true /\
      Forall (fun r => below position (page_offset_of (k + j) pg + y1 r) = false)
             before /\
      forall j' pg' r,
        (j' < j)%nat -> (page :: pages) !! j' = Some pg' ->
        In r (search_for pg' s) ->
        below position (page_offset_of (k + j') pg' + y1 r) = false).
  { intros Hhere Hy.
    destruct (IH _ Hy)
      as (j & pg & before & rect & after & Hj & Hs & -> & Hb & Hbefore & Hearlier).
    exists (S j), pg, before, rect, after.
    replace (k + S j)%nat with (S k + j)%nat by lia.
    repeat split; try assumption.
    intros [|j'] pg' r Hlt Hj' Hin.
    - injection Hj' as <-. rewrite Nat.add_0_r.
      rewrite List.Forall_forall in Hhere. now apply Hhere.
    - replace (k + S j')%nat with (S k + j')%nat by lia.
      apply (Hearlier j' pg' r); [lia|exact Hj'|exact Hin]. }
  destruct (search_for page s) as [|r rs] eqn:Hs; [apply Hrec; constructor|].
  destruct (first_rect_below _ position (r :: rs)) as [y'|] eqn:Hf.
  - intros [= <-].
    destruct (first_rect_below_first _ _ _ _ Hf)
      as (before & rect & after & Hparts & Hbefore & Hb & ->).
    exists 0%nat, page, before, rect, after. rewrite Nat.add_0_r, Hs.
    repeat split; try assumption. intros j' pg' r' Hlt. lia.
  - apply Hrec. now apply first_rect_below_None.
Qed.

End LocatorOrder.

(** X23. A position that [get_string_last_char_position_pdf] returns is
    the position [page_offset + y1] of the first rectangle below the
    given position, in the order of the pages and, on its page, in the
    order in which the search reports the rectangles: no rectangle of an
    earlier page and no earlier rectangle of the page lies below the
    given position. With no position given that is the first rectangle
    reported at all. *)
Theorem locator_answers_first_occurrence `{env : PdfEnv} (pdf : Doc)
  (s : pystr) (position : option Q) (y : Q) :
  get_string_last_char_position_pdf pdf s position = Ok (Some y) ->
  exists i page before rect after,
    pdf !! i = Some page /\
    search_for page s = before ++ rect :: after /\
    y = page_offset_of i page + y1 rect /\
    below position y = true /\
    Forall (fun r => below position (page_offset_of i page + y1 r) = false)
           before /\
    (position = None -> before = []) /\
    forall j pg r,
      (j < i)%nat -> pdf !! j = Some pg -> In r (search_for pg s) ->
      below position (page_offset_of j pg + y1 r) = false.
Proof.
  unfold get_string_last_char_position_pdf.
  destruct (falsy s); [discriminate|]. intros [= Hy].
  destruct (position_in_pages_first_below 0 _ _ _ _ Hy)
    as (i & page & before & rect & after & Hi & Hs & -> & Hb & Hbefore & Hearlier).
  exists i, page, before, rect, after.
  repeat split; try assumption.
  intros ->. destruct before as [|r before]; [reflexivity|].
  apply Forall_cons in Hbefore as [Hr _]. discriminate Hr.
Qed.

Lemma locator_answers_first_occurrence_witness :
  let s := py "____" in
  let pdf := [Sample.two_lines_page] in
  get_string_last_char_position_pdf pdf s (Some 150)
  = Ok (Some (page_offset_of 0 Sample.two_lines_page + 212)) /\
  exists i page before rect after,
    pdf !! i = Some page /\
    search_for page s = before ++ rect :: after /\
    page_offset_of 0 Sample.two_lines_page + 212 = page_offset_of i page + y1 rect /\
    Forall (fun r => below (Some 150) (page_offset_of i page + y1 r) = false)
           before.
Proof.
  intros s pdf.
  assert (Hy : get_string_last_char_position_pdf (env := Sample.env) pdf s (Some 150)
               = Ok (Some (page_offset_of (env := Sample.env) 0
                             Sample.two_lines_page + 212)))
    by (vm_compute; reflexivity).
  split; [exact Hy|].
  destruct (locator_answers_first_occurrence (env := Sample.env) _ _ _ _ Hy)
    as (i & page & before & rect & after & Hi & Hs & Heq & _ & Hbefore & _).
  now exists i, page, before, rect, after.
Defined.

(** X2. Whenever [get_string_last_char_position_pdf] finds an occurrence
    of a string below a position in a document, the search of
    [_replace_once] on the same document and position finds a rectangle
    too. *)
Theorem locate_finds_what_locator_finds `{env : PdfEnv} (doc : Doc)
  (s : pystr) (last_pos : option Q) (y : Q) :
  get_string_last_char_position_pdf doc s last_pos = Ok (Some y) ->
  exists i page rect, locate doc s last_pos = Some (i, page, rect).
Proof.
  unfold get_string_last_char_position_pdf.
  destruct (falsy s); [discriminate|]. intros [= Hy].
  destruct (locate doc s last_pos) as [[[i page] rect]|] eqn:Hloc.
  - now exists i, page, rect.
  - apply locate_from_None in Hloc. congruence.
Qed.

Lemma locate_finds_what_locator_finds_witness :
  get_string_last_char_position_pdf Sample.form_pdf (py "Name: ____") (Some 150)
  = Ok (Some 212) /\
  exists i page rect,
    locate Sample.form_pdf (py "Name: ____") (Some 150) = Some (i, page, rect).
Proof.
  assert (H : get_string_last_char_position_pdf (env := Sample.env)
                Sample.form_pdf (py "Name: ____") (Some 150) = Ok (Some 212))
    by (vm_compute; reflexivity).
  split; [exact H|].
  exact (locate_finds_what_locator_finds (env := Sample.env) _ _ _ _ H).
Defined.

(* ===================================================================== *)
(** ** What a call leaves alone *)
(* ===================================================================== *)

Section FontCacheFacts.
Context `{env : PdfEnv}.

Lemma font_by_resolved_name_raises resolved_name e :
  font_by_resolved_name resolved_name = Raise e ->
  e = FontError /\ Font_fontname (py "helv") = None.
Proof.
  unfold font_by_resolved_name.
  destruct (Font_fontname (py "helv")) as [helv|];
    repeat match goal with
    | |- context [if ?c then _ else _] => destruct c
    | |- context [match Font_fontname ?n with _ => _ end] =>
        destruct (Font_fontname n)
    end; try discriminate; now intros [= <-].
Qed.

Lemma _get_font_result name font_cache :
  match _get_font name font_cache with
  | Ok (f, font_cache', _) =>
      font_cache' !! name = Some f /\
      match font_cache !! name with
      | Some cached => f = cached /\ font_cache' = font_cache
      | None => font_cache' = <[name := f]> font_cache
      end
  | Raise e =>
      font_cache !! name = None /\
      ((e = HelperError /\ get_available_font name = None) \/
       (e = FontError /\ Font_fontname (py "helv") = None))
  end.
Proof.
  unfold _get_font.
  destruct (font_cache !! name) as [cached|] eqn:Hc; [now rewrite Hc|].
  destruct (Font_fontname name) as [exact|];
    [split; [apply lookup_insert_eq|reflexivity]|].
  destruct (font_by_prefix _ _) as [[f builtin]|];
    [split; [apply lookup_insert_eq|reflexivity]|].
  destruct (get_available_font name) as [[resolved_name font_path]|];
    [|split; [reflexivity|now left]].
  destruct (font_by_resolved_name resolved_name) as [fr|er] eqn:Hf;
    (destruct font_path as [path|];
     [destruct (falsy path); [|destruct (Font_fontfile path)]|]);
    cbn [mbind result_bind];
    first [ split; [apply lookup_insert_eq|reflexivity]
          | apply font_by_resolved_name_raises in Hf;
            split; [reflexivity|now right] ].
Qed.

Lemma _get_font_cache_grows name font_cache f font_cache' log :
  _get_font name font_cache = Ok (f, font_cache', log) ->
  font_cache ⊆ font_cache'.
Proof.
  intros Hg. pose proof (_get_font_result name font_cache) as Hr.
  rewrite Hg in Hr. destruct Hr as [_ Hr].
  destruct (font_cache !! name) eqn:Hc.
  - now destruct Hr as [_ ->].
  - subst font_cache'. now apply insert_subseteq.
Qed.

Lemma replace_on_page_cache_grows page rect repl font_cache page' font_cache' log :
  replace_on_page page rect repl font_cache = Ok (page', font_cache', log) ->
  font_cache ⊆ font_cache'.
Proof.
  unfold replace_on_page.
  destruct (page_glyphs page) as [glyphs|e]; cbn [mbind result_bind];
    [|discriminate].
  destruct (target_glyphs_of rect glyphs) as [|first rest].
  - now intros [= <- <- <-].
  - destruct (_get_font _ font_cache) as [[[font_obj fc] lf]|e] eqn:Hg;
      cbn [mbind result_bind]; [|discriminate].
    intros [= <- <- <-]. eapply _get_font_cache_grows, Hg.
Qed.

End FontCacheFacts.

(** X3. [_get_font] never drops or replaces a cached font: when it
    returns, the cache it leaves maps the name to the font returned and
    agrees with the cache it was given on every other name, and on the
    name itself if it was cached. When it raises, the name was not
    cached and either [get_available_font] raised or the built-in
    [helv] could not be constructed. *)
Theorem _get_font_keeps_cache `{env : PdfEnv} (name : pystr)
  (font_cache : gmap pystr Font) :
  match _get_font name font_cache with
  | Ok (f, font_cache', _) =>
      font_cache' !! name = Some f /\
      font_cache ⊆ font_cache' /\
      forall other, other <> name -> font_cache' !! other = font_cache !! other
  | Raise e =>
      font_cache !! name = None /\
      ((e = HelperError /\ get_available_font name = None) \/
       (e = FontError /\ Font_fontname (py "helv") = None))
  end.
Proof.
  pose proof (_get_font_result name font_cache) as Hr.
  destruct (_get_font name font_cache) as [[[f fc] log]|e] eqn:Hg; [|exact Hr].
  destruct Hr as [Hl Hr]. split; [exact Hl|].
  split; [eapply _get_font_cache_grows, Hg|].
  intros other Hne. destruct (font_cache !! name).
  - now destruct Hr as [_ ->].
  - subst fc. now apply lookup_insert_ne.
Qed.

(** X4. A call of [_replace_once] that returns changes at most the page
    it selected: the document keeps its number of pages, every other
    page is the same, and when nothing was located the document, the
    font cache and the cursor are the ones passed in. *)
Theorem _replace_once_touches_one_page `{env : PdfEnv} (doc : Doc)
  (font_cache : gmap pystr Font) (search repl : pystr) (last_pos : option Q)
  (doc' : Doc) (font_cache' : gmap pystr Font) (pos : option Q)
  (log : list LogRecord) :
  _replace_once doc font_cache search repl last_pos
  = Ok (doc', font_cache', pos, log) ->
  length doc' = length doc /\
  font_cache ⊆ font_cache' /\
  match locate doc search last_pos with
  | Some (i, _, _) => forall j, j <> i -> doc' !! j = doc !! j
  | None => doc' = doc /\ font_cache' = font_cache /\ pos = last_pos
  end.
Proof.
  unfold _replace_once.
  destruct (locate doc search last_pos) as [[[i page] rect]|].
  - destruct (replace_on_page page rect repl font_cache)
      as [[[page' fc] lg]|e] eqn:Hp; cbn [mbind result_bind]; [|discriminate].
    intros [= <- <- <- <-]. split; [apply length_insert|].
    split; [eapply replace_on_page_cache_grows, Hp|].
    intros j Hne. now apply list_lookup_insert_ne.
  - intros [= <- <- <- <-]. now repeat split.
Qed.

Lemma _replace_once_touches_one_page_witness :
  exists doc' font_cache' pos log,
    _replace_once Sample.form_pdf ∅ (py "Name: ____") (py "Name: Alice") None
    = Ok (doc', font_cache', pos, log) /\
    length doc' = length Sample.form_pdf.
Proof.
  destruct (_replace_once (env := Sample.env) Sample.form_pdf ∅
              (py "Name: ____") (py "Name: Alice") None)
    as [[[[doc' fc] pos] log]|e] eqn:Hr; [|vm_compute in Hr; discriminate].
  exists doc', fc, pos, log. split; [reflexivity|].
  exact (proj1 (_replace_once_touches_one_page (env := Sample.env)
                  _ _ _ _ _ _ _ _ _ Hr)).
Defined.

Section DriverGrowth.
Context `{env : PdfEnv}.

Lemma process_pair_grows pdf st line_pair st' :
  process_pair pdf st line_pair = Ok st' ->
  length (st_doc st') = length (st_doc st) /\
  st_font_cache st ⊆ st_font_cache st' /\
  st_log st `prefix_of` st_log st'.
Proof.
  destruct line_pair as [search_line repl_line]. unfold process_pair.
  destruct (falsy search_line); [now intros [= <-]|].
  destruct (str_eqb search_line repl_line).
  - destruct (get_string_last_char_position_pdf _ _ _) as [pos|e];
      cbn [mbind result_bind]; [|discriminate].
    now intros [= <-].
  - destruct (_replace_once _ _ _ _ _) as [[[[doc fc] pos] log]|e] eqn:Hr;
      cbn [mbind result_bind]; [|discriminate].
    intros [= <-]. cbn [st_doc st_font_cache st_log].
    apply _replace_once_touches_one_page in Hr as (Hlen & Hsub & _).
    split; [exact Hlen|]. split; [exact Hsub|]. now apply prefix_app_r.
Qed.

End DriverGrowth.

(** X5. Over any run of the loop of [replace_text_preserve_layout_pdf]
    that returns, the document keeps its number of pages, the font cache
    only gains entries and the log is only extended. *)
Theorem process_pairs_grows `{env : PdfEnv} (pdf : Doc) (st : DriverState)
  (pairs : list (pystr * pystr)) (st' : DriverState) :
  process_pairs pdf st pairs = Ok st' ->
  length (st_doc st') = length (st_doc st) /\
  st_font_cache st ⊆ st_font_cache st' /\
  st_log st `prefix_of` st_log st'.
Proof.
  revert st. induction pairs as [|line_pair pairs IH]; intros st;
    cbn [process_pairs].
  - now intros [= <-].
  - destruct (process_pair pdf st line_pair) as [st1|e] eqn:H1;
      cbn [mbind result_bind]; [|discriminate].
    intros Hrest. apply process_pair_grows in H1 as (Hl1 & Hc1 & Hg1).
    apply IH in Hrest as (Hl2 & Hc2 & Hg2).
    split; [congruence|]. split; [now transitivity (st_font_cache st1)|].
    now transitivity (st_log st1).
Qed.

Lemma process_pairs_grows_witness :
  exists st',
    process_pairs (env := Sample.env) Sample.form_pdf
      (mkState Sample.form_pdf ∅ None []) Sample.form_pairs = Ok st' /\
    length (st_doc st') = length Sample.form_pdf.
Proof.
  destruct (process_pairs (env := Sample.env) Sample.form_pdf
              (mkState (env := Sample.env) Sample.form_pdf ∅ None [])
              Sample.form_pairs)
    as [st'|e] eqn:Hr; [|vm_compute in Hr; discriminate].
  exists st'. split; [reflexivity|].
  exact (proj1 (process_pairs_grows (env := Sample.env) _ _ _ _ Hr)).
Defined.

(** X6. With edits that keep the size of a page, and on pages whose
    search reports for the string only rectangles that are neither empty
    nor infinite, a call of [_replace_once] that returns gives back the
    cursor it was passed or a position strictly further down: a
    replacement never moves the cursor back. *)
Theorem _replace_once_never_moves_back `{env : PdfEnv} (doc : Doc)
  (font_cache : gmap pystr Font) (search repl : pystr) (last_pos : option Q)
  (doc' : Doc) (font_cache' : gmap pystr Font) (pos : option Q)
  (log : list LogRecord) :
  (forall page rect, page_height (apply_redaction page rect) = page_height page) ->
  (forall page writer, page_height (write_text page writer) = page_height page) ->
  Forall (fun page => Forall ordinary_rect (search_for page search)) doc ->
  _replace_once doc font_cache search repl last_pos
  = Ok (doc', font_cache', pos, log) ->
  cursor_advanced last_pos pos /\ cursor_le last_pos pos.
Proof.
  intros Hred Hwrite Hrects Hrep. unfold _replace_once in Hrep.
  destruct (locate doc search last_pos) as [[[i page] rect]|] eqn:Hloc.
  - destruct (replace_on_page page rect repl font_cache)
      as [[[page' fc] lg]|e] eqn:Hp; cbn [mbind result_bind] in Hrep;
      [|discriminate].
    injection Hrep as <- <- <- <-.
    assert (Hh : page_height page' = page_height page).
    { apply replace_on_page_written in Hp as [(-> & _)|(w & -> & _)];
        [reflexivity|]. now rewrite Hwrite, Hred. }
    apply locate_lookup in Hloc as [Hl Hsel].
    unfold page_offset_of. rewrite Hh.
    destruct last_pos as [p|]; [|split; [now right|exact I]].
    apply page_selection_Some in Hsel;
      [|exact (Forall_lookup_1 _ _ _ _ Hrects Hl)].
    split; [now right|]. cbn [cursor_le]. now apply Qlt_le_weak.
  - injection Hrep as <- <- <- <-. split; [now left|].
    destruct last_pos; cbn [cursor_le]; [apply Qle_refl|exact I].
Qed.

Lemma _replace_once_never_moves_back_witness :
  (forall page rect,
      page_height (apply_redaction (PdfEnv := Sample.env) page rect)
      = page_height page) /\
  (forall page writer,
      page_height (write_text (PdfEnv := Sample.env) page writer)
      = page_height page) /\
  Forall (fun page => Forall ordinary_rect (search_for page (py "Name: ____")))
         Sample.form_pdf /\
  exists doc' font_cache' pos log,
    _replace_once Sample.form_pdf ∅ (py "Name: ____") (py "Name: Alice") (Some 150)
    = Ok (doc', font_cache', pos, log) /\
    cursor_le (Some 150) pos.
Proof.
  assert (Hrects : Forall (fun page => Forall ordinary_rect
                             (search_for (PdfEnv := Sample.env) page
                                (py "Name: ____")))
                     Sample.form_pdf)
    by (repeat constructor).
  assert (Hred : forall page rect,
             page_height (apply_redaction (PdfEnv := Sample.env) page rect)
             = page_height page) by reflexivity.
  assert (Hwrite : forall page writer,
             page_height (write_text (PdfEnv := Sample.env) page writer)
             = page_height page) by reflexivity.
  split; [exact Hred|]. split; [exact Hwrite|]. split; [exact Hrects|].
  destruct (_replace_once (env := Sample.env) Sample.form_pdf ∅
              (py "Name: ____") (py "Name: Alice") (Some 150))
    as [[[[doc' fc] pos] log]|e] eqn:Hr; [|vm_compute in Hr; discriminate].
  exists doc', fc, pos, log. split; [reflexivity|].
  exact (proj2 (_replace_once_never_moves_back (env := Sample.env)
                  _ _ _ _ _ _ _ _ _ Hred Hwrite Hrects Hr)).
Defined.

(** Why the rectangles must not be empty: [|=] replaces an empty
    rectangle by the one united with it, so that a hit whose first
    rectangle is empty and lies below the cursor can be selected as a
    rectangle that ends above the cursor. *)
Lemma fallback_selection_degenerate_hit :
  let r1 := mkRect 50 100 50 112 in
  let r2 := mkRect 60 99 90 105 in
  rect_is_empty r1 = true /\
  fallback_selection 0 (Some 110) [r1; r2] = Some r2 /\
  y1 r2 < 110.
Proof. repeat split; vm_compute; reflexivity. Qed.

(* ===================================================================== *)
(** ** Calls that have nothing to do, and the single-line call *)
(* ===================================================================== *)

Lemma filter_none {A} (P : A -> Prop) `{forall x, Decision (P x)} (l : list A) :
  Forall (fun x => ~ P x) l -> filter P l = [].
Proof.
  induction 1 as [|x l Hx _ IH]; [reflexivity|].
  rewrite filter_cons. now destruct (decide (P x)).
Qed.

Lemma zip_same {A} (l : list A) : Forall (fun p => p.1 = p.2) (zip l l).
Proof. induction l as [|x l IH]; cbn; now constructor. Qed.

Lemma survives_needs_difference pairs :
  Forall (fun p : pystr * pystr => p.1 = p.2) pairs ->
  filter (survives pairs) pairs = [].
Proof.
  intros Hsame. apply filter_none, List.Forall_forall.
  intros p _ [_ Hex]. apply Exists_exists in Hex as (q & Hin & _ & Hdiff).
  rewrite Forall_forall in Hsame. now apply Hdiff, Hsame.
Qed.

(** X7. When every search line is its own replacement, the call
    processes no pair: it returns with the document it was given, an
    empty font cache, the cursor at [position] and nothing logged. *)
Theorem nothing_differs_nothing_done `{env : PdfEnv} (pdf : Doc)
  (lines : list pystr) (position : option Q) :
  lines <> [] ->
  replace_text_preserve_layout_pdf pdf (Lines lines) (Lines lines) position
  = Ok (mkState pdf ∅ position []).
Proof.
  intros Hne. unfold replace_text_preserve_layout_pdf.
  destruct lines as [|l lines]; [contradiction|].
  cbn [arg_falsy nonempty negb lines_of_args]. rewrite Nat.eqb_refl. cbn [negb].
  rewrite replace_lines_filter, survives_needs_difference; [reflexivity|].
  apply zip_same.
Qed.

Lemma nothing_differs_nothing_done_witness :
  [py "Name: ____"; py "City: ____"] <> [] /\
  replace_text_preserve_layout_pdf Sample.form_pdf
    (Lines [py "Name: ____"; py "City: ____"])
    (Lines [py "Name: ____"; py "City: ____"]) (Some 10)
  = Ok (mkState Sample.form_pdf ∅ (Some 10) []).
Proof.
  split; [discriminate|].
  apply (nothing_differs_nothing_done (env := Sample.env)). discriminate.
Defined.

(** X8. A call with two strings that hold no newline, the first one not
    empty, is a single replacement: nothing at all when the strings are
    equal, and otherwise one call of [_replace_once] on the document
    with an empty font cache and the cursor at [position]. *)
Theorem single_line_call `{env : PdfEnv} (pdf : Doc) (s1 s2 : pystr)
  (position : option Q) :
  s1 <> [] ->
  contains s1 [10%N] = false ->
  contains s2 [10%N] = false ->
  replace_text_preserve_layout_pdf pdf (Str s1) (Str s2) position
  = if decide (s1 = s2) then Ok (mkState pdf ∅ position [])
    else
      '(doc, font_cache, pos, log) ← _replace_once pdf ∅ s1 s2 position;
      Ok (mkState doc font_cache pos log).
Proof.
  intros Hne H1 H2. unfold replace_text_preserve_layout_pdf.
  destruct s1 as [|ch s1]; [contradiction|].
  cbn [arg_falsy falsy lines_of_args]. rewrite H1, H2.
  cbn [orb length Nat.eqb negb]. rewrite replace_lines_filter.
  cbn [zip_with]. rewrite filter_cons.
  destruct (decide (ch :: s1 = s2)) as [<-|Hdiff].
  - destruct (decide _) as [[_ Hex]|_]; [|reflexivity].
    apply Exists_cons in Hex as [[_ Hd]|Hex]; [now contradiction Hd|].
    now apply Exists_nil in Hex.
  - destruct (decide _) as [_|Hn].
    + rewrite filter_nil. cbn [process_pairs process_pair falsy].
      unfold str_eqb. rewrite bool_decide_eq_false_2 by exact Hdiff.
      cbn [st_doc st_font_cache last_position st_log].
      destruct (_replace_once _ _ _ _ _) as [[[[doc fc] pos] log]|e];
        reflexivity.
    + exfalso. apply Hn. split; [discriminate|].
      apply Exists_cons. left. now split.
Qed.

Lemma single_line_call_witness :
  py "Name: ____" <> [] /\
  contains (py "Name: ____") [10%N] = false /\
  contains (py "Name: Alice") [10%N] = false /\
  replace_text_preserve_layout_pdf Sample.form_pdf (Str (py "Name: ____"))
    (Str (py "Name: Alice")) None
  = ('(doc, font_cache, pos, log) ←
       _replace_once Sample.form_pdf ∅ (py "Name: ____") (py "Name: Alice") None;
     Ok (mkState doc font_cache pos log)).
Proof.
  split; [discriminate|]. split; [reflexivity|]. split; [reflexivity|].
  rewrite (single_line_call (env := Sample.env)); [|discriminate|reflexivity..].
  destruct (decide _) as [He|_]; [discriminate He|reflexivity].
Defined.

(* ===================================================================== *)
(** ** More on the sanitizer *)
(* ===================================================================== *)

Lemma startswith_nil t : startswith t [] = true.
Proof. now destruct t. Qed.

Lemma contains_char t k : contains t [k] = true <-> In k t.
Proof.
  induction t as [|ch t IH]; cbn [contains startswith In].
  - split; [discriminate|contradiction].
  - rewrite startswith_nil, orb_true_iff, andb_true_r, N.eqb_eq, IH.
    split; (intros [->|Hin]; [now left|now right]).
Qed.

Lemma ascii_equivalent_length ch : (1 <= length (ascii_equivalent ch))%nat.
Proof.
  destruct (in_dec N.eq_dec ch mapped_code_points) as [Hin|Hn].
  - unfold mapped_code_points in Hin. cbn [In] in Hin.
    repeat (destruct Hin as [<-|Hin]; [cbn; lia|]). destruct Hin.
  - rewrite ascii_equivalent_unmapped by assumption. cbn. lia.
Qed.

(** X9. [sanitize_unicode_for_pdf] works character by character: the
    result for a concatenation is the concatenation of the results, and
    the result is never shorter than the text. *)
Theorem sanitize_unicode_for_pdf_app (a b : pystr) :
  sanitize_unicode_for_pdf (a ++ b)
  = sanitize_unicode_for_pdf a ++ sanitize_unicode_for_pdf b /\
  (length a <= length (sanitize_unicode_for_pdf a))%nat.
Proof.
  rewrite !sanitize_flat_map. split; [apply flat_map_app|].
  induction a as [|ch a IH]; [reflexivity|].
  cbn [flat_map length]. rewrite length_app.
  pose proof (ascii_equivalent_length ch). lia.
Qed.

(** X10. [sanitize_unicode_for_pdf] logs nothing exactly when the text
    holds none of the eight mapped code points; otherwise it logs one
    debug record, which lists the entries of the table whose code point
    occurs in the text, in the order of the table. *)
Theorem sanitize_unicode_for_pdf_log_spec (text : pystr) :
  (sanitize_unicode_for_pdf_log text = [] <->
   Forall (fun ch => ~ In ch mapped_code_points) text) /\
  (sanitize_unicode_for_pdf_log text <> [] ->
   sanitize_unicode_for_pdf_log text
   = [mkLog DEBUG
        (Sanitized (List.filter (fun entry => contains text entry.1)
                                unicode_replacements))]).
Proof.
  assert (Hclean : Forall (fun ch => ~ In ch mapped_code_points) text ->
                   sanitize_unicode_for_pdf_log text = []).
  { intros Hc. unfold sanitize_unicode_for_pdf_log.
    destruct (falsy text); [reflexivity|].
    rewrite sanitize_flat_map, flat_map_ascii_equivalent_clean by exact Hc.
    unfold str_eqb. now rewrite bool_decide_eq_true_2. }
  assert (Hfilter : List.filter (fun '(unicode_char, _) => contains text unicode_char)
                      unicode_replacements
                    = List.filter (fun entry => contains text entry.1)
                        unicode_replacements).
  { apply filter_ext. now intros [u a]. }
  assert (Hdirty : ~ Forall (fun ch => ~ In ch mapped_code_points) text ->
                   sanitize_unicode_for_pdf_log text
                   = [mkLog DEBUG
                        (Sanitized (List.filter (fun entry => contains text entry.1)
                                                unicode_replacements))]).
  { intros Hd. unfold sanitize_unicode_for_pdf_log.
    destruct (falsy text) eqn:Hf0.
    { apply falsy_nil in Hf0. subst text. exfalso. apply Hd. constructor. }
    unfold str_eqb. rewrite bool_decide_eq_false_2.
    2: { intros Heq. apply Hd. rewrite <- Heq. apply sanitize_clean. }
    cbn [negb]. rewrite <- Hfilter.
    destruct (List.filter _ unicode_replacements) as [|e l] eqn:Hf; [|reflexivity].
    exfalso. apply Hd, List.Forall_forall. intros ch Hin Hm.
    assert (Hk : In ([ch], ascii_equivalent ch) unicode_replacements).
    { unfold mapped_code_points in Hm. cbn [In] in Hm.
      unfold unicode_replacements. cbn [In].
      repeat (destruct Hm as [<-|Hm]; [cbn; tauto|]). destruct Hm. }
    assert (Hin' : In ([ch], ascii_equivalent ch)
                     (List.filter (fun '(unicode_char, _) => contains text unicode_char)
                                  unicode_replacements)).
    { apply filter_In. split; [exact Hk|]. now apply contains_char. }
    rewrite Hf in Hin'. destruct Hin'. }
  split.
  - split; [|exact Hclean]. intros Hnil.
    destruct (List.Forall_dec (fun ch => ~ In ch mapped_code_points)
                (fun ch => match in_dec N.eq_dec ch mapped_code_points with
                           | left i => right (fun n => n i)
                           | right n => left n
                           end) text) as [Hc|Hd]; [exact Hc|].
    apply Hdirty in Hd. congruence.
  - intros Hne.
    destruct (List.Forall_dec (fun ch => ~ In ch mapped_code_points)
                (fun ch => match in_dec N.eq_dec ch mapped_code_points with
                           | left i => right (fun n => n i)
                           | right n => left n
                           end) text) as [Hc|Hd]; [|now apply Hdirty].
    now apply Hclean in Hc.
Qed.

Lemma sanitize_unicode_for_pdf_log_spec_witness :
  sanitize_unicode_for_pdf_log (py "a" ++ [8212%N] ++ py "b") <> [] /\
  sanitize_unicode_for_pdf_log (py "a" ++ [8212%N] ++ py "b")
  = [mkLog DEBUG (Sanitized [([8212%N], [45%N; 45%N])])].
Proof.
  assert (Hne : sanitize_unicode_for_pdf_log (py "a" ++ [8212%N] ++ py "b") <> [])
    by (vm_compute; discriminate).
  split; [exact Hne|].
  rewrite (proj2 (sanitize_unicode_for_pdf_log_spec _) Hne). reflexivity.
Defined.

(* ===================================================================== *)
(** ** Colours *)
(* ===================================================================== *)

Lemma byte_component (z : Z) :
  0 <= inject_Z (Z.land z 255) / 255 /\ inject_Z (Z.land z 255) / 255 <= 1.
Proof.
  assert (Hb : (0 <= Z.land z 255 < 256)%Z).
  { change 255%Z with (Z.ones 8). rewrite Z.land_ones by lia.
    apply Z.mod_pos_bound. lia. }
  unfold Qle, Qdiv, Qmult, Qinv, inject_Z. cbn. lia.
Qed.

(** X11. [_normalize_color] returns at most three components. For a
    packed integer, whatever its value, it returns exactly three floats,
    each between 0 and 1; a sequence of one number is repeated three
    times. *)
Theorem _normalize_color_components (color : PyColor) :
  (length (_normalize_color color) <= 3)%nat /\
  (forall packed, color = ColorInt packed ->
     exists r g b,
       _normalize_color color = [PyFloat r; PyFloat g; PyFloat b] /\
       (0 <= r /\ r <= 1) /\ (0 <= g /\ g <= 1) /\ (0 <= b /\ b <= 1)) /\
  (forall one, color = ColorSeq [one] ->
     exists c, _normalize_color color = [c; c; c]).
Proof.
  split; [|split].
  - destruct color as [comps|packed|]; cbn [_normalize_color length]; [|lia..].
    rewrite length_firstn. lia.
  - intros packed ->. cbn [_normalize_color]. do 3 eexists.
    split; [reflexivity|]. repeat split; apply byte_component.
  - intros one ->. cbn [_normalize_color forallb List.map].
    destruct (is_int_above_1 one && true); eexists; reflexivity.
Qed.

Lemma _normalize_color_components_witness :
  exists r g b,
    _normalize_color (ColorInt 16711680) = [PyFloat r; PyFloat g; PyFloat b] /\
    (0 <= r /\ r <= 1) /\ (0 <= g /\ g <= 1) /\ (0 <= b /\ b <= 1).
Proof.
  exact (proj1 (proj2 (_normalize_color_components (ColorInt 16711680)))
           16711680%Z eq_refl).
Defined.

(* ===================================================================== *)
(** ** Glyphs of a span *)
(* ===================================================================== *)


Lemma map_imap_const {A B C} (f : nat -> A -> B) (g : B -> C) (h : A -> C) l :
  (forall i a, g (f i a) = h a) -> List.map g (imap f l) = List.map h l.
Proof.
  revert f. induction l as [|a l IH]; intros f Hf; [reflexivity|].
  cbn [imap List.map]. rewrite Hf. f_equal. apply IH. intros i b. apply Hf.
Qed.

Lemma Forall_imap {A B} (f : nat -> A -> B) (P : B -> Prop) l :
  (forall i a, P (f i a)) -> Forall P (imap f l).
Proof.
  revert f. induction l as [|a l IH]; intros f Hf; cbn [imap]; constructor.
  - apply Hf.
  - apply IH. intros i b. apply Hf.
Qed.

(** X12. [_span_glyphs] yields one glyph per character of the span, each
    with the font, size and colour of the span. For a span without
    [chars] the boxes share the vertical extent of the span and tile it
    from left to right: the first starts at its left edge, each ends
    where the next starts, and the last ends at its right edge. It
    raises only for a span without [chars] whose font cannot be
    constructed. *)
Theorem _span_glyphs_spec `{env : PdfEnv} (span : RawSpan) :
  match _span_glyphs span with
  | Ok glyphs =>
      List.map g_c glyphs = span_chars span /\
      Forall (fun g => g_font g = raw_font span /\ g_size g = raw_size span /\
                       g_color g = raw_color span) glyphs /\
      (raw_chars span = None ->
       let b := raw_bbox span in
       Forall (fun g => y0 (g_bbox g) = y0 b /\ y1 (g_bbox g) = y1 b) glyphs /\
       (forall g, glyphs !! 0%nat = Some g -> x0 (g_bbox g) == x0 b) /\
       (forall i g g', glyphs !! i = Some g -> glyphs !! S i = Some g' ->
                       x1 (g_bbox g) == x0 (g_bbox g')) /\
       (forall g, glyphs !! (length glyphs - 1)%nat = Some g ->
                  x1 (g_bbox g) == x1 b))
  | Raise e =>
      e = FontError /\ raw_chars span = None /\
      Font_fontname (raw_font span) = None
  end.
Proof.
  unfold _span_glyphs, span_chars.
  destruct (raw_chars span) as [chars|].
  - split; [|split; [|discriminate]].
    + now rewrite List.map_map.
    + apply List.Forall_forall. intros g Hin.
      apply in_map_iff in Hin as (ch & <- & _). now repeat split.
  - destruct (Font_fontname (raw_font span)); [|now repeat split].
    set (txt := default [] (raw_text span)).
    set (b := raw_bbox span).
    set (step := (x1 b - x0 b) / inject_Z (Z.max (Z.of_nat (length txt)) 1)).
    split; [|split].
    + rewrite (map_imap_const _ g_c (fun ch => ch)); [apply List.map_id|reflexivity].
    + apply Forall_imap. now repeat split.
    + intros _. cbn zeta. split; [|split; [|split]].
      * apply Forall_imap. now split.
      * intros g Hg. rewrite list_lookup_imap in Hg.
        destruct (txt !! 0%nat); [|discriminate]. injection Hg as <-.
        cbn [g_bbox x0]. ring.
      * intros i g g' Hg Hg'. rewrite list_lookup_imap in Hg, Hg'.
        destruct (txt !! i); [|discriminate].
        destruct (txt !! S i); [|discriminate].
        injection Hg as <-. injection Hg' as <-. cbn [g_bbox x0 x1].
        rewrite Nat2Z.inj_succ. unfold Z.succ. rewrite inject_Z_plus. ring.
      * intros g Hg. rewrite length_imap in Hg. rewrite list_lookup_imap in Hg.
        destruct (txt !! (length txt - 1)%nat) eqn:Hl; [|discriminate].
        injection Hg as <-. cbn [g_bbox x1].
        assert (Hpos : (0 < length txt)%nat).
        { apply lookup_lt_Some in Hl. lia. }
        subst step.
        replace (Z.max (Z.of_nat (length txt)) 1) with (Z.of_nat (length txt)) by lia.
        replace (inject_Z (Z.of_nat (length txt - 1)) + 1)
          with (inject_Z (Z.of_nat (length txt - 1)) + inject_Z 1) by reflexivity.
        rewrite <- inject_Z_plus.
        replace (Z.of_nat (length txt - 1) + 1)%Z with (Z.of_nat (length txt)) by lia.
        field. intros Hz.
        unfold Qeq in Hz. cbn in Hz. lia.
Qed.

Lemma _span_glyphs_spec_witness :
  let span := mkRawSpan None (Some (py "Name")) (mkRect 50 100 74 112)
                (py "helv") 12 (ColorInt 0) None in
  raw_chars span = None /\
  exists glyphs,
    _span_glyphs (env := Sample.env) span = Ok glyphs /\
    List.map g_c glyphs = py "Name" /\
    forall g, glyphs !! (length glyphs - 1)%nat = Some g -> x1 (g_bbox g) == 74.
Proof.
  intros span. split; [reflexivity|].
  pose proof (_span_glyphs_spec (env := Sample.env) span) as Hs.
  destruct (_span_glyphs (env := Sample.env) span) as [glyphs|e] eqn:Hg;
    [|vm_compute in Hg; discriminate].
  destruct Hs as (Hc & _ & Ht). exists glyphs. split; [reflexivity|].
  split; [exact Hc|]. now destruct (Ht eq_refl) as (_ & _ & _ & Hlast).
Defined.

(* ===================================================================== *)
(** ** The baseline stays near the glyphs *)
(* ===================================================================== *)

Lemma Qmin_shift_bounds excess fontsize K cap :
  0 <= excess -> 0 <= fontsize -> 0 <= K -> 0 <= cap -> cap <= 2 # 10 ->
  0 <= Qmin (excess * K) (fontsize * cap) /\
  Qmin (excess * K) (fontsize * cap) <= fontsize * (2 # 10).
Proof.
  intros He Hf HK Hc Hcap. split.
  - apply Q.min_glb; now apply Qmult_le_0_compat.
  - eapply Qle_trans; [apply Q.le_min_r|].
    rewrite (Qmult_comm fontsize cap), (Qmult_comm fontsize (2 # 10)).
    now apply Qmult_le_compat_r.
Qed.

(** X13. For target glyphs whose first baseline glyph has a size that is
    not negative, the baseline is never below the lowest bottom edge of
    the baseline glyphs and never more than a fifth of that size above
    it. *)
Theorem baseline_near_bottom (target_glyphs : list Glyph) (base : Glyph)
  (others : list Glyph) :
  baseline_glyphs_of target_glyphs = base :: others ->
  0 <= g_size base ->
  exists baseline_y,
    baseline_y_of target_glyphs = Some baseline_y /\
    let max_bottom :=
      py_max (y1 (g_bbox base)) (List.map (fun g => y1 (g_bbox g)) others) in
    max_bottom - g_size base * (2 # 10) <= baseline_y /\
    baseline_y <= max_bottom.
Proof.
  intros Hsel Hsize. unfold baseline_y_of.
  destruct (split_glyphs target_glyphs) as [text_glyphs checkbox_glyphs].
  rewrite Hsel. eexists. split; [reflexivity|]. cbn zeta.
  set (mb := py_max _ _). set (mt := py_min _ _).
  set (excess := Qmax 0 (mb - mt - g_size base)).
  assert (He : 0 <= excess) by apply Q.le_max_l.
  assert (Hshift : forall shift,
             0 <= shift -> shift <= g_size base * (2 # 10) ->
             mb - g_size base * (2 # 10) <= mb - shift /\ mb - shift <= mb).
  { intros shift H0 H1. unfold Qminus. split.
    - apply Qplus_le_r. now apply Qopp_le_compat.
    - rewrite <- (Qplus_0_r mb) at 2. apply Qplus_le_r.
      change 0 with (- 0). now apply Qopp_le_compat. }
  destruct (nonempty checkbox_glyphs && nonempty text_glyphs);
    apply Hshift; apply Qmin_shift_bounds; try assumption; discriminate.
Qed.

Lemma baseline_near_bottom_witness :
  let a := mkGlyph 65%N (mkRect 64 100 70 114) (py "Helvetica") 12 (ColorInt 0) 0%Z in
  let b := mkGlyph 66%N (mkRect 70 100 76 115) (py "Helvetica") 12 (ColorInt 0) 0%Z in
  baseline_glyphs_of [a; b] = [a; b] /\ 0 <= g_size a /\
  exists baseline_y,
    baseline_y_of [a; b] = Some baseline_y /\
    115 - 12 * (2 # 10) <= baseline_y /\ baseline_y <= 115.
Proof.
  intros a b. split; [reflexivity|]. split; [discriminate|].
  destruct (baseline_near_bottom [a; b] a [b] eq_refl ltac:(discriminate))
    as (y & Hy & Hlo & Hhi).
  exists y. split; [exact Hy|]. split; [exact Hlo|exact Hhi].
Defined.

(* ===================================================================== *)
(** ** The fallback rectangle *)
(* ===================================================================== *)











Local Close Scope Q_scope.

(* ===================================================================== *)
(** ** The dominant font *)
(* ===================================================================== *)


Lemma occurrences_snoc k l e :
  occurrences k (l ++ [e])
  = (occurrences k l + if decide (k = e) then 1 else 0)%nat.
Proof.
  unfold occurrences. rewrite List.filter_app, length_app. cbn [List.filter].
  unfold str_eqb. destruct (decide (k = e)) as [->|Hne].
  - now rewrite bool_decide_eq_true_2.
  - now rewrite bool_decide_eq_false_2.
Qed.

Lemma counter_incr_keys elem counts :
  List.map fst (counter_incr elem counts)
  = if in_dec (List.list_eq_dec N.eq_dec) elem (List.map fst counts)
    then List.map fst counts else List.map fst counts ++ [elem].
Proof.
  induction counts as [|[k n] counts IH]; cbn [counter_incr List.map fst].
  - destruct (in_dec _ _ _) as [[]|_]. reflexivity.
  - unfold str_eqb. destruct (decide (k = elem)) as [->|Hne].
    + rewrite bool_decide_eq_true_2 by reflexivity. cbn [List.map fst].
      destruct (in_dec _ elem (elem :: _)) as [_|Hn]; [reflexivity|].
      exfalso. apply Hn. now left.
    + rewrite bool_decide_eq_false_2 by exact Hne. cbn [List.map fst].
      rewrite IH.
      destruct (in_dec _ elem (List.map fst counts)) as [Hin|Hn];
        destruct (in_dec _ elem (k :: List.map fst counts)) as [Hin'|Hn'];
        try reflexivity.
      * exfalso. apply Hn'. now right.
      * exfalso. destruct Hin' as [He|Hin']; [now apply Hne|now apply Hn].
Qed.

Lemma counter_incr_entries elem counts k n :
  List.NoDup (List.map fst counts) ->
  In (k, n) (counter_incr elem counts) <->
  (k <> elem /\ In (k, n) counts) \/
  (k = elem /\ ((exists m, In (elem, m) counts /\ n = S m) \/
                (~ In elem (List.map fst counts) /\ n = 1%nat))).
Proof.
  induction counts as [|[k0 n0] counts IH]; intros Hnd; cbn [counter_incr].
  - cbn [In List.map]. split.
    + intros [[= <- <-]|[]]. right. split; [reflexivity|]. right. tauto.
    + intros [[_ []]|[-> [(m & [] & _)|[_ ->]]]]. now left.
  - cbn [List.map fst] in Hnd. apply List.NoDup_cons_iff in Hnd as [Hk0 Hnd].
    specialize (IH Hnd). unfold str_eqb.
    destruct (decide (k0 = elem)) as [->|Hne].
    + rewrite bool_decide_eq_true_2 by reflexivity. cbn [In List.map fst]. split.
      * intros [[= <- <-]|Hin].
        -- right. split; [reflexivity|]. left. exists n0. split; [now left|reflexivity].
        -- left. split; [|now right]. intros ->. apply Hk0.
           apply in_map_iff. now exists (elem, n).
      * intros [[Hne Hin]|[-> [(m & Hin & ->)|[Hn _]]]].
        -- destruct Hin as [[= -> ->]|Hin]; [contradiction|now right].
        -- destruct Hin as [[= ->]|Hin]; [now left|].
           exfalso. apply Hk0. apply in_map_iff. now exists (elem, m).
        -- exfalso. apply Hn. now left.
    + rewrite bool_decide_eq_false_2 by exact Hne. cbn [In List.map fst].
      rewrite IH. split.
      * intros [[= <- <-]|[[Hd Hin]|[-> Hcase]]].
        -- left. split; [exact Hne|now left].
        -- left. split; [exact Hd|now right].
        -- right. split; [reflexivity|].
           destruct Hcase as [(m & Hin & ->)|[Hn ->]].
           ++ left. exists m. split; [now right|reflexivity].
           ++ right. split; [|reflexivity]. intros [He|Hin]; [now apply Hne|].
              now apply Hn.
      * intros [[Hd [[= <- <-]|Hin]]|[-> Hcase]].
        -- now left.
        -- right. left. now split.
        -- right. right. split; [reflexivity|].
           destruct Hcase as [(m & [[= He _]|Hin] & ->)|[Hn ->]].
           ++ now contradiction Hne.
           ++ left. now exists m.
           ++ right. split; [|reflexivity]. intros Hin. apply Hn. now right.
Qed.

Lemma counts_of_incr counts seen elem :
  counts_of counts seen -> counts_of (counter_incr elem counts) (seen ++ [elem]).
Proof.
  intros (Hnd & Hexact & Hall). split; [|split].
  - rewrite counter_incr_keys. destruct (in_dec _ _ _) as [Hin|Hn]; [exact Hnd|].
    apply NoDup_ListNoDup, NoDup_app. apply NoDup_ListNoDup in Hnd.
    split; [exact Hnd|]. split.
    + intros x Hx Hx'. apply list_elem_of_singleton in Hx' as ->.
      apply Hn. now apply list_elem_of_In.
    + apply NoDup_singleton.
  - intros k n Hin. apply counter_incr_entries in Hin; [|exact Hnd].
    rewrite occurrences_snoc, in_app_iff. cbn [In].
    destruct Hin as [[Hne Hin]|[-> [(m & Hin & ->)|[Hn ->]]]].
    + destruct (Hexact _ _ Hin) as [Hs ->].
      destruct (decide (k = elem)); [contradiction|]. split; [now left|lia].
    + destruct (Hexact _ _ Hin) as [Hs ->].
      destruct (decide (elem = elem)); [|contradiction]. split; [now left|lia].
    + destruct (decide (elem = elem)); [|contradiction].
      split; [right; now left|].
      assert (Hz : occurrences elem seen = 0%nat); [|lia].
      unfold occurrences.
      destruct (List.filter (str_eqb elem) seen) as [|x l] eqn:Hf; [reflexivity|].
      exfalso. assert (Hx : In x (List.filter (str_eqb elem) seen))
        by (rewrite Hf; now left).
      apply filter_In in Hx as [Hx He]. apply str_eqb_eq in He as <-.
      destruct (Hall _ Hx) as (n & Hin). apply Hn, in_map_iff. now exists (elem, n).
  - intros k Hin. apply in_app_iff in Hin as [Hin|[<-|[]]].
    + destruct (Hall _ Hin) as (n & Hn).
      destruct (decide (k = elem)) as [->|Hne].
      * exists (S n). apply counter_incr_entries; [exact Hnd|].
        right. split; [reflexivity|]. left. now exists n.
      * exists n. apply counter_incr_entries; [exact Hnd|]. left. now split.
    + destruct (in_dec (List.list_eq_dec N.eq_dec) elem (List.map fst counts))
        as [Hk|Hk].
      * apply in_map_iff in Hk as ([k' n] & Heq & Hin). cbn in Heq. subst k'.
        exists (S n). apply counter_incr_entries; [exact Hnd|].
        right. split; [reflexivity|]. left. now exists n.
      * exists 1%nat. apply counter_incr_entries; [exact Hnd|].
        right. split; [reflexivity|]. right. now split.
Qed.

Lemma Counter_counts elems : counts_of (Counter elems) elems.
Proof.
  unfold Counter.
  assert (Hgen : forall rest counts seen,
             counts_of counts seen ->
             counts_of (fold_left (fun counts elem => counter_incr elem counts)
                                  rest counts) (seen ++ rest)).
  { induction rest as [|e rest IH]; intros counts seen Hc; cbn [fold_left].
    - now rewrite app_nil_r.
    - replace (seen ++ e :: rest) with ((seen ++ [e]) ++ rest)
        by now rewrite <- app_assoc.
      apply IH, counts_of_incr, Hc. }
  apply (Hgen elems [] []). split; [constructor|].
  split; [intros k n []|intros k []].
Qed.

Lemma most_common_from_spec best counts :
  In (most_common_from best counts) (best :: counts) /\
  Forall (fun kn => (snd kn <= snd (most_common_from best counts))%nat)
         (best :: counts).
Proof.
  revert best. induction counts as [|kn counts IH]; intros best;
    cbn [most_common_from].
  - split; [now left|]. constructor; [lia|constructor].
  - destruct (snd best <? snd kn)%nat eqn:Hlt.
    + destruct (IH kn) as [Hin Hall]. split; [now right|].
      apply Forall_cons in Hall as [Hkn Hall].
      apply Nat.ltb_lt in Hlt.
      constructor; [lia|]. now constructor.
    + destruct (IH best) as [Hin Hall]. apply Nat.ltb_ge in Hlt. split.
      * destruct Hin as [Hin|Hin]; [now left|now right; right].
      * apply Forall_cons in Hall as [Hb Hall].
        constructor; [exact Hb|]. constructor; [lia|exact Hall].
Qed.

(** X15. Among the target glyphs that have a font name, the dominant
    font is one whose name occurs most often, and the representative
    glyph is a target glyph that has the dominant font name. *)
Theorem dominant_font_is_most_frequent (first : Glyph) (rest : list Glyph) :
  let target_glyphs := first :: rest in
  let fonts :=
    List.map g_font
      (List.filter (fun g => negb (falsy (g_font g))) target_glyphs) in
  let dominant_fontname := dominant_fontname_of first target_glyphs in
  let rep_glyph := rep_glyph_of first target_glyphs dominant_fontname in
  (forall f, (occurrences f fonts <= occurrences dominant_fontname fonts)%nat) /\
  (fonts <> [] -> In dominant_fontname fonts) /\
  In rep_glyph target_glyphs /\
  g_font rep_glyph = dominant_fontname.
Proof.
  intros target_glyphs fonts dominant_fontname rep_glyph.
  assert (Hrd : rep_glyph = rep_glyph_of first target_glyphs dominant_fontname)
    by reflexivity.
  assert (Hdd : dominant_fontname
                = match most_common_1 (Counter fonts) with
                  | Some (name, _) => name
                  | None => g_font first
                  end) by reflexivity.
  assert (Hfd : fonts = List.map g_font
                          (List.filter (fun g => negb (falsy (g_font g)))
                                       target_glyphs)) by reflexivity.
  assert (Hfirst : In first target_glyphs) by now left.
  clearbody rep_glyph dominant_fontname fonts target_glyphs.
  assert (Hrep : (fonts = [] -> dominant_fontname = g_font first) ->
                 (fonts <> [] -> In dominant_fontname fonts) ->
                 In rep_glyph target_glyphs /\ g_font rep_glyph = dominant_fontname).
  { intros Hempty Hin. subst rep_glyph. unfold rep_glyph_of.
    destruct (List.find _ target_glyphs) as [g|] eqn:Hf.
    - apply find_some in Hf as [Hg He]. apply str_eqb_eq in He. now split.
    - exfalso. destruct fonts as [|f fs].
      + pose proof (find_none _ _ Hf first Hfirst) as Hno.
        apply not_true_iff_false in Hno. apply Hno, str_eqb_eq.
        symmetry. now apply Hempty.
      + assert (Hd : In dominant_fontname (f :: fs)) by (apply Hin; discriminate).
        rewrite Hfd in Hd. apply in_map_iff in Hd as (g & Hg & Hin').
        apply filter_In in Hin' as [Hin' _].
        pose proof (find_none _ _ Hf g Hin') as Hno.
        apply not_true_iff_false in Hno. now apply Hno, str_eqb_eq. }
  clear Hrd Hfd.
  pose proof (Counter_counts fonts) as (Hnd & Hexact & Hall).
  destruct (Counter fonts) as [|kn counts] eqn:Hc; cbn [most_common_1] in Hdd.
  - assert (Hnil : fonts = []).
    { destruct fonts as [|f fs]; [reflexivity|].
      destruct (Hall f ltac:(now left)) as (n & []). }
    subst fonts. split; [intros f; reflexivity|].
    split; [contradiction|]. apply Hrep; [now intros _|contradiction].
  - destruct (most_common_from_spec kn counts) as [Hin Hmax].
    destruct (most_common_from kn counts) as [name n] eqn:Hm.
    destruct (Hexact _ _ Hin) as [Hname ->]. subst dominant_fontname.
    assert (Hmost : forall f, (occurrences f fonts <= occurrences name fonts)%nat).
    { intros f. destruct (in_dec (List.list_eq_dec N.eq_dec) f fonts) as [Hf|Hf].
      - destruct (Hall _ Hf) as (m & Hfm).
        destruct (Hexact _ _ Hfm) as [_ ->].
        rewrite List.Forall_forall in Hmax. exact (Hmax _ Hfm).
      - assert (Hz : occurrences f fonts = 0%nat); [|lia].
        unfold occurrences.
        destruct (List.filter (str_eqb f) fonts) as [|x l] eqn:Hfl; [reflexivity|].
        exfalso. assert (Hx : In x (List.filter (str_eqb f) fonts))
          by (rewrite Hfl; now left).
        apply filter_In in Hx as [Hx He]. apply str_eqb_eq in He as <-.
        contradiction. }
    split; [exact Hmost|]. split; [now intros _|].
    apply Hrep; [|now intros _].
    intros Hnil. rewrite Hnil in Hname. destruct Hname.
Qed.

(* ===================================================================== *)
(** ** DOCX: iteration and assignment *)
(* ===================================================================== *)

Section DocxFacts.

Lemma startswith_app t sub : startswith t sub = true <-> exists rest, t = sub ++ rest.
Proof.
  revert t. induction sub as [|p sub IH]; intros t.
  - rewrite startswith_nil. split; [now exists t|reflexivity].
  - destruct t as [|ch t]; cbn [startswith].
    + split; [discriminate|]. intros (rest & Hr). discriminate Hr.
    + rewrite andb_true_iff, N.eqb_eq, IH. split.
      * intros [-> (rest & ->)]. now exists rest.
      * intros (rest & [= -> ->]). split; [reflexivity|now exists rest].
Qed.

Lemma find_in_Some t sub i r :
  find_in t sub i = Some r ->
  exists k, r = (i + k)%nat /\ (k <= length t)%nat /\
            startswith (drop k t) sub = true.
Proof.
  revert i. induction t as [|ch t IH]; intros i; cbn [find_in].
  - destruct (startswith [] sub) eqn:Hs; [|discriminate].
    intros [= <-]. exists 0%nat. rewrite Nat.add_0_r. cbn. now repeat split.
  - destruct (startswith (ch :: t) sub) eqn:Hs.
    + intros [= <-]. exists 0%nat. rewrite Nat.add_0_r. cbn [drop length].
      repeat split; [lia|exact Hs].
    + intros Hf. destruct (IH _ Hf) as (k & -> & Hk & Hd).
      exists (S k). cbn [drop length]. repeat split; [lia|lia|exact Hd].
Qed.

Lemma str_find_Some text sub start r :
  str_find text sub start = Some r ->
  (r <= length text)%nat /\
  ((0 <= start)%Z -> (Z.to_nat start <= r)%nat) /\
  text = take r text ++ sub ++ drop (r + length sub) text.
Proof.
  unfold str_find.
  set (len := Z.of_nat (length text)).
  set (start' := if (start <? 0)%Z then Z.max (start + len) 0 else start).
  destruct (len <? start')%Z eqn:Hlen; [discriminate|].
  apply Z.ltb_ge in Hlen. intros Hf.
  apply find_in_Some in Hf as (k & -> & Hk & Hs).
  rewrite length_drop in Hk. rewrite drop_drop in Hs.
  assert (Hs0 : (0 <= start')%Z).
  { subst start'. destruct (start <? 0)%Z eqn:Hneg; [lia|].
    now apply Z.ltb_ge in Hneg. }
  split; [lia|]. split.
  - intros Hpos. subst start'. destruct (start <? 0)%Z eqn:Hneg; [|lia].
    apply Z.ltb_lt in Hneg. lia.
  - apply startswith_app in Hs as (rest & Hrest).
    rewrite <- (take_drop (Z.to_nat start' + k) text) at 1. f_equal.
    rewrite Hrest. f_equal.
    rewrite <- drop_drop, Hrest, drop_app_length. reflexivity.
Qed.

Lemma imap_assign {A} (new : A) (idx k : nat) (l : list A) :
  imap (fun i a => if (k + i =? idx)%nat then new else a) l
  = if decide (k <= idx)%nat then <[(idx - k)%nat := new]> l else l.
Proof.
  revert k. induction l as [|a l IH]; intros k; cbn [imap].
  - now destruct (decide _).
  - rewrite Nat.add_0_r.
    rewrite (imap_ext _ (fun i a => if (S k + i =? idx)%nat then new else a))
      by (intros i x _; cbn; now replace (k + S i)%nat with (S (k + i))%nat by lia).
    rewrite IH.
    destruct (decide (k <= idx)%nat) as [Hle|Hgt].
    + destruct (k =? idx)%nat eqn:He.
      * apply Nat.eqb_eq in He as ->. rewrite Nat.sub_diag. cbn.
        destruct (decide (S idx <= idx)%nat); [lia|reflexivity].
      * apply Nat.eqb_neq in He.
        destruct (decide (S k <= idx)%nat); [|lia].
        replace (idx - k)%nat with (S (idx - S k))%nat by lia. reflexivity.
    + destruct (k =? idx)%nat eqn:He; [apply Nat.eqb_eq in He; lia|].
      destruct (decide (S k <= idx)%nat); [lia|reflexivity].
Qed.

Lemma imap_assign_app {A} (new : A) idx k (l1 l2 : list A) :
  imap (fun i a => if (k + i =? idx)%nat then new else a) (l1 ++ l2)
  = imap (fun i a => if (k + i =? idx)%nat then new else a) l1
    ++ imap (fun i a => if (k + length l1 + i =? idx)%nat then new else a) l2.
Proof.
  rewrite imap_app. f_equal. apply imap_ext. intros i x _. cbn.
  now replace (k + (length l1 + i))%nat with (k + length l1 + i)%nat by lia.
Qed.

Lemma imap_assign_cons {A} (new : A) idx k (a : A) (l : list A) :
  imap (fun i a => if (k + i =? idx)%nat then new else a) (a :: l)
  = (if (k =? idx)%nat then new else a)
    :: imap (fun i a => if (S k + i =? idx)%nat then new else a) l.
Proof.
  cbn [imap]. rewrite Nat.add_0_r. f_equal. apply imap_ext. intros i x _. cbn.
  now replace (k + S i)%nat with (S (k + i))%nat by lia.
Qed.

Lemma cell_paragraphs_P text rest :
  cell_paragraphs (CellP text :: rest) = text :: cell_paragraphs rest.
Proof. reflexivity. Qed.

Lemma cell_paragraphs_Other rest :
  cell_paragraphs (CellOther :: rest) = cell_paragraphs rest.
Proof. reflexivity. Qed.

Lemma row_paragraphs_Tc cell rest :
  row_paragraphs (RowTc cell :: rest) = cell_paragraphs cell ++ row_paragraphs rest.
Proof. reflexivity. Qed.

Lemma row_paragraphs_Other rest :
  row_paragraphs (RowOther :: rest) = row_paragraphs rest.
Proof. reflexivity. Qed.

Lemma tbl_paragraphs_Tr row rest :
  tbl_paragraphs (TblTr row :: rest) = row_paragraphs row ++ tbl_paragraphs rest.
Proof. reflexivity. Qed.

Lemma tbl_paragraphs_Other rest :
  tbl_paragraphs (TblOther :: rest) = tbl_paragraphs rest.
Proof. reflexivity. Qed.

Lemma body_paragraphs_P text rest :
  body_paragraphs (BodyP text :: rest) = text :: body_paragraphs rest.
Proof. reflexivity. Qed.

Lemma body_paragraphs_Tbl tbl rest :
  body_paragraphs (BodyTbl tbl :: rest) = tbl_paragraphs tbl ++ body_paragraphs rest.
Proof. reflexivity. Qed.

Lemma body_paragraphs_Other rest :
  body_paragraphs (BodyOther :: rest) = body_paragraphs rest.
Proof. reflexivity. Qed.

Lemma set_in_cell_paragraphs idx new k cell :
  cell_paragraphs (set_in_cell idx new k cell).1
  = imap (fun i a => if (k + i =? idx)%nat then new else a) (cell_paragraphs cell)
  /\ (set_in_cell idx new k cell).2 = (k + length (cell_paragraphs cell))%nat.
Proof.
  revert k. induction cell as [|[text|] rest IH]; intros k; cbn [set_in_cell].
  - cbn. split; [reflexivity|lia].
  - destruct (IH (S k)) as [Hp Hn].
    destruct (set_in_cell idx new (S k) rest) as [rest' n]. cbn [fst snd] in *.
    rewrite !cell_paragraphs_P, imap_assign_cons, Hp, Hn. cbn [length].
    split; [reflexivity|lia].
  - destruct (IH k) as [Hp Hn].
    destruct (set_in_cell idx new k rest) as [rest' n]. cbn [fst snd] in *.
    rewrite !cell_paragraphs_Other. now split.
Qed.

Lemma set_in_row_paragraphs idx new k row :
  row_paragraphs (set_in_row idx new k row).1
  = imap (fun i a => if (k + i =? idx)%nat then new else a) (row_paragraphs row)
  /\ (set_in_row idx new k row).2 = (k + length (row_paragraphs row))%nat.
Proof.
  revert k. induction row as [|[cell|] rest IH]; intros k; cbn [set_in_row].
  - cbn. split; [reflexivity|lia].
  - destruct (set_in_cell_paragraphs idx new k cell) as [Hc Hcn].
    destruct (set_in_cell idx new k cell) as [cell' n]. cbn [fst snd] in *.
    destruct (IH n) as [Hp Hn].
    destruct (set_in_row idx new n rest) as [rest' n']. cbn [fst snd] in *.
    rewrite !row_paragraphs_Tc, imap_assign_app, length_app, Hc, Hp, Hn, Hcn.
    split; [reflexivity|lia].
  - destruct (IH k) as [Hp Hn].
    destruct (set_in_row idx new k rest) as [rest' n]. cbn [fst snd] in *.
    rewrite !row_paragraphs_Other. now split.
Qed.

Lemma set_in_tbl_paragraphs idx new k tbl :
  tbl_paragraphs (set_in_tbl idx new k tbl).1
  = imap (fun i a => if (k + i =? idx)%nat then new else a) (tbl_paragraphs tbl)
  /\ (set_in_tbl idx new k tbl).2 = (k + length (tbl_paragraphs tbl))%nat.
Proof.
  revert k. induction tbl as [|[row|] rest IH]; intros k; cbn [set_in_tbl].
  - cbn. split; [reflexivity|lia].
  - destruct (set_in_row_paragraphs idx new k row) as [Hc Hcn].
    destruct (set_in_row idx new k row) as [row' n]. cbn [fst snd] in *.
    destruct (IH n) as [Hp Hn].
    destruct (set_in_tbl idx new n rest) as [rest' n']. cbn [fst snd] in *.
    rewrite !tbl_paragraphs_Tr, imap_assign_app, length_app, Hc, Hp, Hn, Hcn.
    split; [reflexivity|lia].
  - destruct (IH k) as [Hp Hn].
    destruct (set_in_tbl idx new k rest) as [rest' n]. cbn [fst snd] in *.
    rewrite !tbl_paragraphs_Other. now split.
Qed.

Lemma set_in_body_paragraphs idx new k doc :
  body_paragraphs (set_in_body idx new k doc).1
  = imap (fun i a => if (k + i =? idx)%nat then new else a) (body_paragraphs doc)
  /\ (set_in_body idx new k doc).2 = (k + length (body_paragraphs doc))%nat.
Proof.
  revert k. induction doc as [|[text|tbl|] rest IH]; intros k; cbn [set_in_body].
  - cbn. split; [reflexivity|lia].
  - destruct (IH (S k)) as [Hp Hn].
    destruct (set_in_body idx new (S k) rest) as [rest' n]. cbn [fst snd] in *.
    rewrite !body_paragraphs_P, imap_assign_cons, Hp, Hn. cbn [length].
    split; [reflexivity|lia].
  - destruct (set_in_tbl_paragraphs idx new k tbl) as [Hc Hcn].
    destruct (set_in_tbl idx new k tbl) as [tbl' n]. cbn [fst snd] in *.
    destruct (IH n) as [Hp Hn].
    destruct (set_in_body idx new n rest) as [rest' n']. cbn [fst snd] in *.
    rewrite !body_paragraphs_Tbl, imap_assign_app, length_app, Hc, Hp, Hn, Hcn.
    split; [reflexivity|lia].
  - destruct (IH k) as [Hp Hn].
    destruct (set_in_body idx new k rest) as [rest' n]. cbn [fst snd] in *.
    rewrite !body_paragraphs_Other. now split.
Qed.

Lemma set_paragraph_text_paragraphs idx new doc :
  body_paragraphs (set_paragraph_text idx new doc)
  = <[idx := new]> (body_paragraphs doc).
Proof.
  unfold set_paragraph_text.
  rewrite (proj1 (set_in_body_paragraphs idx new 0 doc)).
  rewrite (imap_assign new idx 0). destruct (decide _); [|lia].
  now rewrite Nat.sub_0_r.
Qed.

Lemma doc_paragraphs_sub doc : body_paragraphs doc = [] -> doc_paragraphs doc = [].
Proof.
  induction doc as [|[text|tbl|] rest IH];
    cbn [body_paragraphs doc_paragraphs flat_map]; [reflexivity|discriminate|..].
  - intros Happ. apply app_eq_nil in Happ as [_ Hrest]. now apply IH.
  - exact IH.
Qed.

Lemma _iter_paragraphs_with_index_body doc :
  _iter_paragraphs_with_index doc
  = imap (fun index para => (para, index)) (body_paragraphs doc).
Proof.
  unfold _iter_paragraphs_with_index.
  destruct (body_paragraphs doc) eqn:Hb; [|reflexivity].
  now rewrite (doc_paragraphs_sub _ Hb).
Qed.

End DocxFacts.

(* ===================================================================== *)
(** ** DOCX: one replacement *)
(* ===================================================================== *)

Lemma replace_in_paragraphs_Some paras search repl last_pos idx new_text pos :
  replace_in_paragraphs paras search repl last_pos = Some (idx, new_text, pos) ->
  exists text start,
    In (text, idx) paras /\
    text = take start text ++ search ++ drop (start + length search) text /\
    new_text = take start text ++ repl ++ drop (start + length search) text /\
    pos = (Z.of_nat idx, Z.of_nat (start + length repl)) /\
    forall p, last_pos = Some p ->
      docx_pos_le p pos /\ (p.1 = Z.of_nat idx -> (p.2 <= Z.of_nat start)%Z).
Proof.
  induction paras as [|[text i] paras IH]; cbn [replace_in_paragraphs];
    [discriminate|].
  assert (Hrec : replace_in_paragraphs paras search repl last_pos
                 = Some (idx, new_text, pos) ->
                 exists text0 start,
                   In (text0, idx) ((text, i) :: paras) /\
                   text0 = take start text0 ++ search
                           ++ drop (start + length search) text0 /\
                   new_text = take start text0 ++ repl
                              ++ drop (start + length search) text0 /\
                   pos = (Z.of_nat idx, Z.of_nat (start + length repl)) /\
                   forall p, last_pos = Some p ->
                     docx_pos_le p pos /\
                     (p.1 = Z.of_nat idx -> (p.2 <= Z.of_nat start)%Z)).
  { intros Hr. destruct (IH Hr) as (t & s & Hin & Hrest).
    exists t, s. split; [now right|exact Hrest]. }
  destruct (falsy text); [exact Hrec|].
  destruct last_pos as [[p0 p1]|].
  - destruct (Z.of_nat i <? p0)%Z eqn:Hskip; [exact Hrec|].
    apply Z.ltb_ge in Hskip.
    destruct (str_find text search _) as [start|] eqn:Hfind; [|exact Hrec].
    intros [= <- <- <-]. exists text, start.
    apply str_find_Some in Hfind as (_ & Hfrom & Hsplit).
    split; [now left|]. split; [exact Hsplit|]. split; [reflexivity|].
    split; [reflexivity|]. intros p [= <-]. cbn [fst snd].
    destruct (p0 <? Z.of_nat i)%Z eqn:Hlt.
    + apply Z.ltb_lt in Hlt. split; [left; exact Hlt|lia].
    + apply Z.ltb_ge in Hlt.
      assert (Hstart : (p1 <= Z.of_nat start)%Z).
      { destruct (Z_lt_le_dec p1 0) as [Hneg|Hpos]; [lia|].
        specialize (Hfrom Hpos). lia. }
      split; [right; unfold docx_pos_le; cbn [fst snd]; lia|now intros _].
  - destruct (str_find text search 0) as [start|] eqn:Hfind; [|exact Hrec].
    intros [= <- <- <-]. exists text, start.
    apply str_find_Some in Hfind as (_ & _ & Hsplit).
    split; [now left|]. split; [exact Hsplit|]. split; [reflexivity|].
    split; [reflexivity|]. intros p Hp. discriminate Hp.
Qed.

Lemma In_iter_paragraphs doc text idx :
  In (text, idx) (_iter_paragraphs_with_index doc) ->
  body_paragraphs doc !! idx = Some text.
Proof.
  rewrite _iter_paragraphs_with_index_body. intros Hin.
  apply list_elem_of_In, elem_of_lookup_imap in Hin as (i & p & [= -> ->] & Hl).
  exact Hl.
Qed.

(** X16. A call of [_replace_once] of the DOCX variant either finds
    nothing, and then returns the document and the cursor as they were
    with one debug record, or it replaces one occurrence of the search
    string in one paragraph: that paragraph reads as before with the
    replacement in the place of the occurrence, the other paragraphs
    read as before, their number is the same, and the position returned
    is the index of the paragraph with the index of the character after
    the replacement. *)
Theorem _replace_once_docx_spec (doc : Docx) (search repl : pystr)
  (last_pos : option DocxPos) :
  let '(doc', pos, log) := _replace_once_docx doc search repl last_pos in
  (doc' = doc /\ pos = last_pos /\
   log = [mkLog DEBUG (NoMatchingOccurrences search)]) \/
  exists idx text start,
    body_paragraphs doc !! idx = Some text /\
    text = take start text ++ search ++ drop (start + length search) text /\
    body_paragraphs doc'
    = <[idx := take start text ++ repl ++ drop (start + length search) text]>
        (body_paragraphs doc) /\
    pos = Some (Z.of_nat idx, Z.of_nat (start + length repl)) /\
    log = [].
Proof.
  unfold _replace_once_docx.
  destruct (replace_in_paragraphs _ search repl last_pos)
    as [[[idx new_text] pos]|] eqn:Hr; [|left; now repeat split].
  right. apply replace_in_paragraphs_Some in Hr
    as (text & start & Hin & Hsplit & -> & -> & _).
  exists idx, text, start. apply In_iter_paragraphs in Hin.
  split; [exact Hin|]. split; [exact Hsplit|].
  split; [apply set_paragraph_text_paragraphs|now split].
Qed.

(** X17. In a DOCX file the cursor never moves back on a replacement,
    and the locator only answers positions past the one it is given:
    the position [_replace_once] returns is at or after the cursor in
    the order by paragraph and then by character, and the position
    [get_string_last_char_position_docx] returns is strictly after the
    position passed to it. *)
Theorem docx_cursor_never_moves_back (doc : Docx) (search repl : pystr)
  (p : DocxPos) :
  (forall q, (_replace_once_docx doc search repl (Some p)).1.2 = Some q ->
             docx_pos_le p q) /\
  (forall q, get_string_last_char_position_docx doc search (Some p)
             = Ok (Some q) -> docx_pos_lt p q).
Proof.
  split.
  - intros q. unfold _replace_once_docx.
    destruct (replace_in_paragraphs _ search repl (Some p))
      as [[[idx new_text] pos]|] eqn:Hr; cbn [fst snd].
    + intros [= ->]. apply replace_in_paragraphs_Some in Hr
        as (text & start & _ & _ & _ & _ & Hle).
      now destruct (Hle p eq_refl).
    + intros [= <-]. destruct p as [p0 p1]. right. cbn. lia.
  - intros q. unfold get_string_last_char_position_docx.
    destruct (falsy search); [discriminate|]. intros [= Hq].
    induction (_iter_paragraphs_with_index doc) as [|[text idx] paras IH];
      cbn [position_in_paragraphs] in Hq; [discriminate|].
    destruct (falsy text); [now apply IH|].
    destruct (str_find text search 0) as [found_at|]; [|now apply IH].
    destruct p as [p0 p1].
    destruct (_ || _) eqn:Hacc; [|now apply IH].
    injection Hq as <-. unfold docx_pos_lt. cbn [fst snd].
    apply orb_true_iff in Hacc as [Hlt|Heq].
    + apply Z.ltb_lt in Hlt. now left.
    + apply andb_true_iff in Heq as [He Hlt].
      apply Z.eqb_eq in He. apply Z.ltb_lt in Hlt. right. lia.
Qed.

(* ===================================================================== *)
(** ** DOCX: the driver *)
(* ===================================================================== *)

Lemma process_pair_docx_paragraphs docx st line_pair st' :
  process_pair_docx docx st line_pair = Ok st' ->
  length (body_paragraphs (dx_doc st')) = length (body_paragraphs (dx_doc st)) /\
  dx_log st `prefix_of` dx_log st'.
Proof.
  destruct line_pair as [search_line repl_line]. unfold process_pair_docx.
  destruct (falsy search_line); [now intros [= <-]|].
  destruct (str_eqb search_line repl_line).
  - destruct (get_string_last_char_position_docx _ _ _) as [pos|e];
      cbn [mbind result_bind]; [|discriminate].
    now intros [= <-].
  - pose proof (_replace_once_docx_spec (dx_doc st) search_line repl_line
                  (dx_last_position st)) as Hs.
    destruct (_replace_once_docx _ _ _ _) as [[doc pos] log].
    intros [= <-]. cbn [dx_doc dx_log]. split; [|now apply prefix_app_r].
    destruct Hs as [(-> & _)|(idx & text & start & _ & _ & -> & _)];
      [reflexivity|apply length_insert].
Qed.

Lemma process_pairs_docx_skip_empty docx st pairs :
  process_pairs_docx docx st pairs
  = process_pairs_docx docx st (List.filter (fun p => negb (falsy p.1)) pairs).
Proof.
  revert st. induction pairs as [|[a b] pairs IH]; intros st; [reflexivity|].
  cbn [List.filter fst]. destruct (falsy a) eqn:Ha; cbn [negb].
  - cbn [process_pairs_docx process_pair_docx]. rewrite Ha.
    cbn [mbind result_bind]. apply IH.
  - cbn [process_pairs_docx]. destruct (process_pair_docx docx st (a, b));
      cbn [mbind result_bind]; [apply IH|reflexivity].
Qed.

(** X18. On lists of lines of equal length,
    [replace_text_preserve_layout_docx] runs its loop body on exactly
    the pairs whose search string is not empty and is the search string
    of some pair with a different replacement, in their order; when it
    returns, the document has as many paragraphs as before; and when
    every line is its own replacement it returns the document as it
    was. *)
Theorem docx_driver_spec (docx : Docx) (s1_lines s2_lines : list pystr)
  (position : option DocxPos) :
  s1_lines <> [] ->
  length s1_lines = length s2_lines ->
  let pairs := zip s1_lines s2_lines in
  replace_text_preserve_layout_docx docx (Lines s1_lines) (Lines s2_lines) position
  = process_pairs_docx docx (mkDocxState docx position [])
      (filter (survives pairs) pairs) /\
  (forall st,
      replace_text_preserve_layout_docx docx (Lines s1_lines) (Lines s2_lines)
        position = Ok st ->
      length (body_paragraphs (dx_doc st)) = length (body_paragraphs docx)) /\
  (s1_lines = s2_lines ->
   replace_text_preserve_layout_docx docx (Lines s1_lines) (Lines s2_lines) position
   = Ok (mkDocxState docx position [])).
Proof.
  intros Hne Hlen pairs.
  assert (Hrun : replace_text_preserve_layout_docx docx (Lines s1_lines)
                   (Lines s2_lines) position
                 = process_pairs_docx docx (mkDocxState docx position [])
                     (filter (survives pairs) pairs)).
  { assert (Hf : arg_falsy (Lines s1_lines) = false)
      by (destruct s1_lines; [contradiction|reflexivity]).
    unfold replace_text_preserve_layout_docx. rewrite Hf.
    cbn [lines_of_args].
    rewrite Hlen, Nat.eqb_refl. cbn [negb]. unfold cleaned_lines.
    change (zip (List.map fst ?l) (List.map snd ?l)) with (zip (l.*1) (l.*2)).
    rewrite zip_fst_snd, process_pairs_docx_skip_empty. f_equal.
    fold pairs.
    rewrite <- (List_filter_stdpp
                  (fun p => bool_decide (p.1 ∈ related_lines s1_lines s2_lines)
                            && negb (falsy p.1)) (survives pairs)).
    - clear. induction pairs as [|[a b] l IH]; [reflexivity|].
      cbn [List.filter fst]. destruct (bool_decide _); cbn [andb List.filter fst].
      + destruct (negb (falsy a)); now rewrite IH.
      + exact IH.
    - intros [a b]. cbn [fst]. unfold survives. cbn [fst].
      rewrite andb_true_iff, bool_decide_eq_true, negb_true_iff,
        <- not_true_iff_false, falsy_nil, related_lines_spec.
      tauto. }
  split; [exact Hrun|]. split.
  - intros st. rewrite Hrun. generalize (filter (survives pairs) pairs).
    intros kept.
    change (body_paragraphs docx)
      with (body_paragraphs (dx_doc (mkDocxState docx position []))).
    generalize (mkDocxState docx position []). revert st.
    induction kept as [|line_pair kept IH]; intros st st0;
      cbn [process_pairs_docx].
    + now intros [= <-].
    + destruct (process_pair_docx docx st0 line_pair) as [st1|e] eqn:H1;
        cbn [mbind result_bind]; [|discriminate].
      intros Hrest. apply process_pair_docx_paragraphs in H1 as [H1 _].
      apply IH in Hrest. congruence.
  - intros <-. rewrite Hrun. subst pairs.
    rewrite survives_needs_difference; [reflexivity|apply zip_same].
Qed.

Lemma docx_driver_spec_witness :
  let docx := [BodyP (py "Name: ____");
               BodyTbl [TblTr [RowTc [CellP (py "City: ____"); CellOther]]];
               BodyP (py "Name: ____")] in
  let s1 := [py "Name: ____"; py "City: ____"; py "Name: ____"] in
  let s2 := [py "Name: Alice"; py "City: ____"; py "Name: Bob"] in
  s1 <> [] /\ length s1 = length s2 /\
  exists st,
    replace_text_preserve_layout_docx docx (Lines s1) (Lines s2) None = Ok st /\
    body_paragraphs (dx_doc st)
    = [py "Name: Alice"; py "City: ____"; py "Name: Bob"] /\
    length (body_paragraphs (dx_doc st)) = length (body_paragraphs docx).
Proof.
  intros docx s1 s2. split; [discriminate|]. split; [reflexivity|].
  destruct (replace_text_preserve_layout_docx docx (Lines s1) (Lines s2) None)
    as [st|e] eqn:Hr; [|vm_compute in Hr; discriminate].
  exists st. split; [reflexivity|]. split.
  - assert (Hx : match replace_text_preserve_layout_docx docx (Lines s1)
                         (Lines s2) None with
                 | Ok st => body_paragraphs (dx_doc st)
                            = [py "Name: Alice"; py "City: ____"; py "Name: Bob"]
                 | Raise _ => False
                 end) by (vm_compute; reflexivity).
    now rewrite Hr in Hx.
  - destruct (docx_driver_spec docx s1 s2 None ltac:(discriminate) eq_refl)
      as (_ & Hlen & _). now apply Hlen.
Defined.

Ltac case_pattern pattern :=
  repeat match goal with
  | |- context [str_eqb pattern ?x] =>
      let E := fresh "E" in
      destruct (str_eqb pattern x) eqn:E;
      [apply str_eqb_eq in E; subst pattern; vm_compute; reflexivity
      |cbn [orb]]
  end.

(** X19. [update_checkbox] is idempotent: updating its result once more
    with the same [should_check] changes nothing, whatever the pattern. *)
Theorem update_checkbox_idempotent (pattern : pystr) (should_check : bool) :
  update_checkbox (update_checkbox pattern should_check) should_check
  = update_checkbox pattern should_check.
Proof.
  unfold update_checkbox at 2 3. unfold str_in. cbn [existsb].
  destruct should_check; case_pattern pattern;
    unfold update_checkbox, str_in; cbn [existsb];
    repeat match goal with
    | E : str_eqb pattern ?x = false |- _ => rewrite E; clear E
    end; reflexivity.
Qed.

(* --------------------------------------------------------------------- *)
(** *** Line breaks *)

Lemma splitlines_from_length cur t :
  length (splitlines_from cur t) = count_lines (nonempty cur) t.
Proof.
  remember (length t) as n eqn:Hn. revert cur t Hn.
  induction n as [n IH] using lt_wf_ind. intros cur t ->.
  destruct t as [|ch t']; cbn [splitlines_from count_lines].
  - now destruct cur.
  - destruct (ch =? 13)%N.
    + destruct t' as [|c t'']; cbn [length].
      * now rewrite (IH 0%nat ltac:(cbn; lia) [] []).
      * assert (H1 : length (splitlines_from [] (c :: t''))
                     = count_lines false (c :: t''))
          by (apply (IH (length (c :: t''))); [cbn; lia|reflexivity]).
        assert (H2 : length (splitlines_from [] t'') = count_lines false t'')
          by (apply (IH (length t'')); [cbn; lia|reflexivity]).
        destruct c as [|p]; [cbn [length]; now rewrite H1|].
        repeat (destruct p as [p|p|]; try (cbn [length]; now rewrite H1)).
        cbn [length]. now rewrite H2.
    + destruct (is_linebreak ch); cbn [length].
      * now rewrite (IH (length t') ltac:(cbn; lia) [] t' eq_refl).
      * rewrite (IH (length t') ltac:(cbn; lia) (cur ++ [ch]) t' eq_refl).
        now destruct cur.
Qed.


Lemma is_linebreak_13 ch : (ch =? 13)%N = true -> is_linebreak ch = true.
Proof. intros He. apply N.eqb_eq in He as ->. reflexivity. Qed.

Lemma count_lines_word pending w r :
  no_break w -> w <> [] -> count_lines pending (w ++ r) = count_lines true r.
Proof.
  intros Hw. revert pending. induction Hw as [|ch w Hch Hw IH]; intros pending Hne;
    [contradiction|].
  cbn [app count_lines]. rewrite Hch.
  destruct (ch =? 13)%N eqn:H13; [apply is_linebreak_13 in H13; congruence|].
  destruct w as [|c w]; [reflexivity|]. apply IH. discriminate.
Qed.

Lemma update_checkbox_word pattern should_check :
  no_break pattern -> pattern <> [] ->
  no_break (update_checkbox pattern should_check) /\
  update_checkbox pattern should_check <> [].
Proof.
  intros Hnb Hne. unfold update_checkbox.
  repeat match goal with
  | |- context [if ?c then _ else _] => destruct c
  end; (split; [first [exact Hnb|repeat constructor]|first [exact Hne|discriminate]]).
Qed.

Lemma count_lines_char pending ch r :
  is_linebreak ch = false -> count_lines pending (ch :: r) = count_lines true r.
Proof. intros Hch. now apply (count_lines_word pending [ch] r); [repeat constructor|]. Qed.

Lemma is_box_symbol_no_break ch : is_box_symbol ch = true -> is_linebreak ch = false.
Proof.
  unfold is_box_symbol. cbn [existsb]. rewrite !orb_true_iff, !N.eqb_eq.
  intros H. repeat (destruct H as [->|H]; [reflexivity|]). discriminate H.
Qed.

Lemma closing_no_break ch close :
  closing ch = Some close -> is_linebreak ch = false /\ is_linebreak close = false.
Proof.
  unfold closing. destruct (N.eqb_spec ch 91) as [->|_]; [now intros [= <-]|].
  destruct (N.eqb_spec ch 40) as [->|_]; [now intros [= <-]|discriminate].
Qed.

Lemma is_mark_no_break ch : is_mark ch = true -> is_linebreak ch = false.
Proof.
  unfold is_mark. cbn [existsb]. rewrite !orb_true_iff, !N.eqb_eq.
  intros H. repeat (destruct H as [->|H]; [reflexivity|]). discriminate H.
Qed.

(** The result of the substitution starts with a line feed only if the
    text does. *)
Lemma sub_checkboxes_head checked idx t r :
  sub_checkboxes checked idx t = 10%N :: r -> exists t', t = 10%N :: t'.
Proof.
  assert (Hword : forall pattern b rest,
             no_break pattern -> pattern <> [] ->
             update_checkbox pattern b ++ rest <> 10%N :: r).
  { intros pattern b rest Hnb Hne.
    destruct (update_checkbox_word pattern b Hnb Hne) as [Hw Hn].
    destruct (update_checkbox pattern b) as [|c w]; [contradiction|].
    apply Forall_cons in Hw as [Hc _]. intros [= -> _]. discriminate Hc. }
  destruct t as [|ch rest]; cbn [sub_checkboxes]; [discriminate|].
  destruct (is_box_symbol ch) eqn:Hb.
  { intros Hs. exfalso. revert Hs. apply Hword; [|discriminate].
    repeat constructor. now apply is_box_symbol_no_break. }
  destruct (closing ch) as [close|] eqn:Hc.
  2: { intros [= -> _]. now exists rest. }
  destruct (closing_no_break _ _ Hc) as [Hch Hcl].
  assert (Hsame : forall x, ch :: x = 10%N :: r -> exists t', ch :: rest = 10%N :: t').
  { intros x [= -> _]. discriminate Hch. }
  destruct rest as [|m rest1]; [apply Hsame|].
  destruct (is_mark m) eqn:Hm.
  - destruct rest1 as [|c rest2]; [apply Hsame|].
    destruct (N.eqb_spec c close) as [->|_]; [|apply Hsame].
    intros Hs. exfalso. revert Hs. apply Hword; [|discriminate].
    repeat constructor; [exact Hch|now apply is_mark_no_break|exact Hcl].
  - destruct (N.eqb_spec m close) as [->|_]; [|apply Hsame].
    intros Hs. exfalso. revert Hs. apply Hword; [|discriminate].
    repeat constructor; [exact Hch|exact Hcl].
Qed.

Lemma sub_checkboxes_line_feed checked idx t :
  sub_checkboxes checked idx (10%N :: t) = 10%N :: sub_checkboxes checked idx t.
Proof. reflexivity. Qed.

Lemma count_lines_cr_lf pending x :
  count_lines pending (13%N :: 10%N :: x) = S (count_lines false x).
Proof. reflexivity. Qed.

Lemma count_lines_cr_other pending x :
  (forall t', x <> 10%N :: t') ->
  count_lines pending (13%N :: x) = S (count_lines false x).
Proof.
  intros Hno. destruct x as [|c x']; [reflexivity|].
  destruct (N.eqb_spec c 10) as [->|Hc]; [now contradiction (Hno x')|].
  cbn [count_lines N.eqb]. destruct c as [|p]; [reflexivity|].
  repeat (destruct p as [p|p|]; try reflexivity). now contradiction Hc.
Qed.

Lemma sub_checkboxes_count_lines checked t :
  forall idx pending,
    count_lines pending (sub_checkboxes checked idx t) = count_lines pending t.
Proof.
  remember (length t) as n eqn:Hn. revert t Hn.
  induction n as [n IH] using lt_wf_ind. intros t -> idx pending.
  assert (Hword : forall pattern b rest,
             no_break pattern -> pattern <> [] ->
             (length rest < length t)%nat ->
             count_lines pending
               (update_checkbox pattern b ++ sub_checkboxes checked (S idx) rest)
             = count_lines pending (pattern ++ rest)).
  { intros pattern b rest Hnb Hne Hlen.
    destruct (update_checkbox_word pattern b Hnb Hne) as [Hw Hn].
    rewrite !count_lines_word by assumption.
    now apply (IH (length rest)). }
  assert (Hcons : forall ch rest,
             (length rest < length t)%nat ->
             count_lines pending (ch :: sub_checkboxes checked idx rest)
             = count_lines pending (ch :: rest)).
  { intros ch rest Hlen.
    assert (Hrest : forall p, count_lines p (sub_checkboxes checked idx rest)
                              = count_lines p rest)
      by (intros p; now apply (IH (length rest))).
    destruct (N.eqb_spec ch 13) as [->|H13].
    - assert (Hcase : (exists rest', rest = 10%N :: rest') \/
                      (forall t', rest <> 10%N :: t')).
      { destruct rest as [|c rest']; [right; discriminate|].
        destruct (N.eqb_spec c 10) as [->|Hc]; [left; now exists rest'|].
        right. intros t' [= -> _]. now apply Hc. }
      destruct Hcase as [(rest' & ->)|Hno].
      + rewrite sub_checkboxes_line_feed, !count_lines_cr_lf. f_equal.
        apply (IH (length rest')); [cbn in Hlen |- *; lia|reflexivity].
      + rewrite !count_lines_cr_other; [now rewrite Hrest|exact Hno|].
        intros t' Hs. apply sub_checkboxes_head in Hs as (t'' & Ht).
        now apply (Hno t'').
    - cbn [count_lines]. apply N.eqb_neq in H13. rewrite H13.
      now rewrite !Hrest. }
  destruct t as [|ch rest]; [reflexivity|]. cbn [sub_checkboxes].
  destruct (is_box_symbol ch) eqn:Hb.
  { apply (Hword [ch]); [|discriminate|cbn; lia].
    repeat constructor. now apply is_box_symbol_no_break. }
  destruct (closing ch) as [close|] eqn:Hc; [|apply Hcons; cbn; lia].
  destruct (closing_no_break _ _ Hc) as [Hch Hcl].
  destruct rest as [|m rest1]; [reflexivity|].
  destruct (is_mark m) eqn:Hm.
  - destruct rest1 as [|c rest2]; [apply Hcons; cbn; lia|].
    destruct (N.eqb_spec c close) as [->|_]; [|apply Hcons; cbn; lia].
    apply (Hword [ch; m; close]); [|discriminate|cbn; lia].
    repeat constructor; [exact Hch|now apply is_mark_no_break|exact Hcl].
  - destruct (N.eqb_spec m close) as [->|_]; [|apply Hcons; cbn; lia].
    apply (Hword [ch; close]); [|discriminate|cbn; lia].
    repeat constructor; [exact Hch|exact Hcl].
Qed.

Lemma checkbox_line_lists_from entries s1 s2 :
  length s1 = length s2 ->
  let '(s1', s2') :=
    fold_left (fun '(s1_lines, s2_lines) entry =>
                 (s1_lines ++ splitlines (entry_lines entry),
                  s2_lines ++ splitlines (update_checkbox_in_paragraph entry)))
              entries (s1, s2) in
  length s1' = length s2'.
Proof.
  revert s1 s2. induction entries as [|entry entries IH]; intros s1 s2 Hlen;
    cbn [fold_left]; [exact Hlen|].
  apply IH. rewrite !length_app, Hlen. f_equal.
  unfold splitlines, update_checkbox_in_paragraph.
  rewrite !splitlines_from_length. symmetry. apply sub_checkboxes_count_lines.
Qed.

(** X20. [update_checkbox_in_paragraph] keeps the line structure of an
    entry: its result splits into as many lines as the text of the entry
    does. So the two lists that [fill_flat_pdf_with_entries] builds from
    the checkbox entries have the same length, and the call of
    [replace_text_preserve_layout_pdf] on them passes the check of the
    numbers of lines, whatever the entries are. *)
Theorem checkbox_lines_stay_aligned `{env : PdfEnv} (pdf : Doc)
  (checkbox_entries : list CheckboxEntry) (position : option Q) :
  (forall entry,
      length (splitlines (update_checkbox_in_paragraph entry))
      = length (splitlines (entry_lines entry))) /\
  let '(s1_lines, s2_lines) := checkbox_line_lists checkbox_entries in
  length s1_lines = length s2_lines /\
  replace_text_preserve_layout_pdf pdf (Lines s1_lines) (Lines s2_lines) position
  <> Raise (ValueError "s1 and s2 must have the same number of lines").
Proof.
  split.
  - intros entry. unfold splitlines, update_checkbox_in_paragraph.
    rewrite !splitlines_from_length. apply sub_checkboxes_count_lines.
  - pose proof (checkbox_line_lists_from checkbox_entries [] [] eq_refl) as Hl.
    unfold checkbox_line_lists.
    destruct (fold_left _ checkbox_entries ([], [])) as [s1 s2].
    split; [exact Hl|]. unfold replace_text_preserve_layout_pdf.
    destruct (arg_falsy (Lines s1)); [discriminate|].
    cbn [lines_of_args]. rewrite Hl, Nat.eqb_refl. cbn [negb].
    rewrite replace_lines_filter.
    generalize (filter (survives (zip s1 s2)) (zip s1 s2)).
    generalize (mkState pdf ∅ position []).
    intros st kept. revert st.
    induction kept as [|[a b] kept IH]; intros st; cbn [process_pairs];
      [discriminate|].
    destruct (process_pair pdf st (a, b)) as [st'|e] eqn:Hp;
      cbn [mbind result_bind]; [apply IH|].
    intros [= ->]. unfold process_pair in Hp.
    destruct (falsy a) eqn:Ha; [discriminate|].
    destruct (str_eqb a b).
    + unfold get_string_last_char_position_pdf in Hp. rewrite Ha in Hp.
      discriminate Hp.
    + destruct (_replace_once _ _ _ _ _) as [[[[d c0] p0] l0]|e'] eqn:Hr;
        cbn [mbind result_bind] in Hp; [discriminate|].
      injection Hp as ->. unfold _replace_once in Hr.
      destruct (locate _ _ _) as [[[i page] rect]|]; [|discriminate].
      destruct (replace_on_page _ _ _ _) as [[[pg fc] lg]|e''] eqn:Hrp;
        cbn [mbind result_bind] in Hr; [discriminate|].
      injection Hr as ->. unfold replace_on_page in Hrp.
      destruct (page_glyphs page) as [glyphs|e3] eqn:Hg;
        cbn [mbind result_bind] in Hrp.
      * destruct (target_glyphs_of rect glyphs); [discriminate|].
        pose proof (_get_font_result
                      (dominant_fontname_of g (g :: l))
                      (st_font_cache st)) as Hf.
        destruct (_get_font _ _) as [[[fo fc] lf]|e4];
          cbn [mbind result_bind] in Hrp; [discriminate|].
        injection Hrp as ->.
        destruct Hf as [_ [[Hf _]|[Hf _]]]; discriminate Hf.
      * injection Hrp as ->. unfold page_glyphs in Hg.
        revert Hg. generalize (@nil Glyph).
        induction (flat_map raw_spans _) as [|sp spans IHs]; intros acc;
          cbn [extend_glyphs]; [discriminate|].
        pose proof (_span_glyphs_spec sp) as Hs.
        destruct (_span_glyphs sp) as [new|e5]; cbn [mbind result_bind];
          [apply IHs|].
        intros [= ->]. destruct Hs as [Hs _]. discriminate Hs.
Qed.

Lemma _get_font_keeps_cache_witness :
  let name := py "Wingdings-Regular" in
  let cached := py "Helvetica" in
  let font_cache : gmap pystr Sample.SFont := {[ cached := Sample.Builtin (py "helv") ]} in
  cached <> name /\
  exists f font_cache' log,
    _get_font (env := Sample.env) name font_cache = Ok (f, font_cache', log) /\
    font_cache' !! name = Some f /\
    font_cache' !! cached = font_cache !! cached.
Proof.
  intros name cached font_cache.
  assert (Hne : cached <> name) by discriminate. split; [exact Hne|].
  pose proof (_get_font_keeps_cache (env := Sample.env) name font_cache) as Hk.
  destruct (_get_font (env := Sample.env) name font_cache)
    as [[[f fc] log]|e] eqn:Hg.
  - destruct Hk as (Hl & _ & Hother). exists f, fc, log.
    split; [reflexivity|]. split; [exact Hl|]. now apply Hother.
  - exfalso. destruct Hk as [_ [[_ Hh]|[_ Hh]]]; discriminate Hh.
Defined.

Lemma dominant_font_is_most_frequent_witness :
  let a := mkGlyph 65%N (mkRect 64 100 70 114) (py "Times") 12 (ColorInt 0) 0%Z in
  let b := mkGlyph 66%N (mkRect 70 100 76 115) (py "Helvetica") 12 (ColorInt 0) 0%Z in
  let c := mkGlyph 67%N (mkRect 76 100 82 115) (py "Helvetica") 12 (ColorInt 0) 0%Z in
  let fonts := [py "Times"; py "Helvetica"; py "Helvetica"] in
  fonts <> [] /\
  In (dominant_fontname_of a [a; b; c]) fonts /\
  g_font (rep_glyph_of a [a; b; c] (dominant_fontname_of a [a; b; c]))
  = dominant_fontname_of a [a; b; c].
Proof.
  intros a b c fonts. split; [discriminate|].
  destruct (dominant_font_is_most_frequent a [b; c]) as (_ & Hin & _ & Hrep).
  split; [apply Hin; discriminate|exact Hrep].
Defined.

Lemma docx_cursor_never_moves_back_witness :
  let doc := [BodyP (py "Date: ____ to ____")] in
  exists q,
    (_replace_once_docx doc (py "____") (py "May") (Some (0, 10)%Z)).1.2 = Some q /\
    docx_pos_le (0, 10)%Z q.
Proof.
  intros doc.
  destruct ((_replace_once_docx doc (py "____") (py "May") (Some (0, 10)%Z)).1.2)
    as [q|] eqn:Hq; [|vm_compute in Hq; discriminate].
  exists q. split; [reflexivity|].
  exact (proj1 (docx_cursor_never_moves_back doc (py "____") (py "May") (0, 10)%Z)
           q Hq).
Defined.

Lemma imap_index_fst {A} (k : nat) (l : list A) :
  List.map fst (imap (fun index para => (para, (k + index)%nat)) l) = l /\
  List.map snd (imap (fun index para => (para, (k + index)%nat)) l)
  = seq k (length l).
Proof.
  revert k. induction l as [|a l IH]; intros k; [now split|].
  cbn [imap List.map fst snd length seq]. rewrite Nat.add_0_r.
  rewrite (imap_ext _ (fun index para => (para, (S k + index)%nat)))
    by (intros i x _; cbn; f_equal; lia).
  destruct (IH (S k)) as [-> ->]. now split.
Qed.

(** X21. [_iter_paragraphs_with_index] yields the paragraphs of the body
    and of the cells of its tables once each, numbered 0, 1, 2, ... in
    the order of the document, the paragraphs of a table at the place of
    the table; when that gives no paragraph there is none to yield, so
    the final loop over [doc.paragraphs] never adds any. *)
Theorem _iter_paragraphs_with_index_spec (doc : Docx) :
  List.map snd (_iter_paragraphs_with_index doc)
  = seq 0 (length (body_paragraphs doc)) /\
  List.map fst (_iter_paragraphs_with_index doc) = body_paragraphs doc /\
  (body_paragraphs doc = [] -> doc_paragraphs doc = []) /\
  forall before tbl after,
    doc = before ++ BodyTbl tbl :: after ->
    body_paragraphs doc
    = body_paragraphs before ++ tbl_paragraphs tbl ++ body_paragraphs after.
Proof.
  rewrite _iter_paragraphs_with_index_body.
  destruct (imap_index_fst 0 (body_paragraphs doc)) as [Hf Hs].
  split; [exact Hs|]. split; [exact Hf|]. split; [apply doc_paragraphs_sub|].
  intros before tbl after ->. unfold body_paragraphs.
  now rewrite flat_map_app.
Qed.

Lemma _iter_paragraphs_with_index_spec_witness :
  let doc := [BodyP (py "Name: ____");
              BodyTbl [TblTr [RowTc [CellP (py "City: ____"); CellOther]]];
              BodyP (py "Date: ____")] in
  doc = [BodyP (py "Name: ____")]
        ++ BodyTbl [TblTr [RowTc [CellP (py "City: ____"); CellOther]]]
        :: [BodyP (py "Date: ____")] /\
  _iter_paragraphs_with_index doc
  = [(py "Name: ____", 0%nat); (py "City: ____", 1%nat); (py "Date: ____", 2%nat)] /\
  body_paragraphs doc
  = body_paragraphs [BodyP (py "Name: ____")]
    ++ tbl_paragraphs [TblTr [RowTc [CellP (py "City: ____"); CellOther]]]
    ++ body_paragraphs [BodyP (py "Date: ____")].
Proof.
  intros doc. split; [reflexivity|]. split; [reflexivity|].
  destruct (_iter_paragraphs_with_index_spec doc) as (_ & _ & _ & Happ).
  now apply Happ.
Defined.
